(** * Writer Memory System: a shallow embedding of the store and its operations

    The development follows the TypeScript modules of the repository:
    - [memory-manager.ts]: the document types, [loadMemory], [saveMemory],
      [createBackup], [pruneBackups], [validateMemory];
    - the character module: [findCharacter], [addCharacter], [addAlias],
      [removeAlias], [detectSpeechLevel];
    - the relationship module: [addRelationship], [updateRelationship],
      [getRelationship], [addRelationshipEvent];
    - the scene module: [addScene], [removeScene], [reorderScenes],
      [addCut], [removeCut], [reorderCuts], [addEmotionTag],
      [removeEmotionTag].

    Modelling choices.
    - A TypeScript interface is a record; an optional property [p?: T] is a
      field of type [option T] ([None] stands for an absent or [undefined]
      property, which [JSON.stringify] omits alike).  The property
      [synopsis] of [WriterMemory] is declared without [?], but the synopsis
      builder reads it as one that may be absent ([memory.synopsis || ...]),
      so it is an optional field here.
    - Numbers stored in a document ([order], [intensity]) are integers [Z].
    - A file holds text; the model keeps the JSON value the text denotes
      ([Parsed j]) or records that [JSON.parse] rejects it ([Unparsable]).
      [JSON.stringify] is the encoder from records to JSON values,
      and reading a parsed value at the type [WriterMemory] (the unchecked
      cast [as WriterMemory] followed by the property reads of the callers)
      is the decoder.
    - Every [loadMemory] parses the file anew and so produces a fresh object
      graph.  The interpreter state keeps these graphs in a heap indexed by
      handles; in-place mutation is an update of the graph a reference
      points into, and [saveMemory] serialises the graph it is handed.
    - A file that parses to a value that is no [WriterMemory] is outside
      the typed reading: [loadMemory] returns such a value unchecked, and
      what its callers do with it is not modelled.  A run that reaches that
      point ends in the outcome [Untyped], which no handler catches.
    - The clock and the random generator are an environment read through a
      counter.  The environment also says whether the identifier [require]
      is bound where the module runs: it is in a CommonJS module and it is
      not in an ES module.  File-system calls other than the ones on missing
      or unparsable files succeed. *)

From Stdlib Require Import ZArith List String Ascii Bool Lia DecimalString.
From stdpp Require Import base option list strings sorting gmap.
Import ListNotations.

Local Open Scope string_scope.
Local Open Scope list_scope.
Local Open Scope Z_scope.

(* ------------------------------------------------------------------ *)
(** ** JSON values *)

#[local] Unset Elimination Schemes.
Inductive json : Type :=
| JNull
| JBool (b : bool)
| JNum (n : Z)
| JStr (s : string)
| JArr (items : list json)
| JObj (props : list (string * json)).
#[local] Set Elimination Schemes.

Module Json.

(** Property lookup on a parsed object: the first binding of [k]. *)
Fixpoint get (k : string) (o : list (string * json)) : option json :=
  match o with
  | [] => None
  | (k', v) :: rest => if String.eqb k k' then Some v else get k rest
  end.

Definition as_str (j : json) : option string :=
  match j with JStr s => Some s | _ => None end.
Definition as_num (j : json) : option Z :=
  match j with JNum n => Some n | _ => None end.
Definition as_arr (j : json) : option (list json) :=
  match j with JArr l => Some l | _ => None end.
Definition as_obj (j : json) : option (list (string * json)) :=
  match j with JObj o => Some o | _ => None end.

(** Reading every element of an array at one type. *)
Fixpoint all {A} (f : json -> option A) (l : list json) : option (list A) :=
  match l with
  | [] => Some []
  | j :: rest =>
      match f j with
      | Some a =>
          match all f rest with Some r => Some (a :: r) | None => None end
      | None => None
      end
  end.

Definition arr_of {A} (f : json -> option A) (j : json) : option (list A) :=
  match as_arr j with Some l => all f l | None => None end.

(** A required property. *)
Definition req {A} (f : json -> option A) (k : string)
    (o : list (string * json)) : option A :=
  match get k o with Some j => f j | None => None end.

(** An optional property: absent reads as [None]. *)
Definition opt {A} (f : json -> option A) (k : string)
    (o : list (string * json)) : option (option A) :=
  match get k o with
  | Some j => match f j with Some a => Some (Some a) | None => None end
  | None => Some None
  end.

(** What [JSON.stringify] writes for a property: nothing when the value is
    [undefined]. *)
Definition prop (k : string) (v : json) : list (string * json) := [(k, v)].
Definition prop_opt {A} (f : A -> json) (k : string) (v : option A)
    : list (string * json) :=
  match v with Some a => [(k, f a)] | None => [] end.

Definition strs (l : list string) : json := JArr (map JStr l).
Definition as_strs : json -> option (list string) := arr_of as_str.

(** Objects used as dictionaries ([Record<string, T>]). *)
Definition dict {A} (f : A -> json) (m : list (string * A)) : json :=
  JObj (map (fun kv => (fst kv, f (snd kv))) m).
Fixpoint all_props {A} (f : json -> option A) (o : list (string * json))
    : option (list (string * A)) :=
  match o with
  | [] => Some []
  | (k, j) :: rest =>
      match f j with
      | Some a =>
          match all_props f rest with
          | Some r => Some ((k, a) :: r)
          | None => None
          end
      | None => None
      end
  end.
Definition as_dict {A} (f : json -> option A) (j : json)
    : option (list (string * A)) :=
  match as_obj j with Some o => all_props f o | None => None end.

End Json.

(* ------------------------------------------------------------------ *)
(** ** Document types (memory-manager.ts, section Types) *)

Inductive SpeechLevel := Banmal | Jondaetmal | Haeche | Honhap.

Inductive RelationshipType :=
| romantic | familial | friendship | antagonistic | professional | mentor
| complex.

Inductive CutType := dialogue | narration | action | internal.

Module SpeechLevelJson.
Definition to_string (l : SpeechLevel) : string :=
  match l with
  | Banmal => "반말" | Jondaetmal => "존댓말"
  | Haeche => "해체" | Honhap => "혼합"
  end.
Definition of_string (s : string) : option SpeechLevel :=
  if String.eqb s "반말" then Some Banmal
  else if String.eqb s "존댓말" then Some Jondaetmal
  else if String.eqb s "해체" then Some Haeche
  else if String.eqb s "혼합" then Some Honhap
  else None.
Definition toJSON (l : SpeechLevel) : json := JStr (to_string l).
Definition ofJSON (j : json) : option SpeechLevel :=
  match j with JStr s => of_string s | _ => None end.
End SpeechLevelJson.

Module RelationshipTypeJson.
Definition to_string (t : RelationshipType) : string :=
  match t with
  | romantic => "romantic" | familial => "familial"
  | friendship => "friendship" | antagonistic => "antagonistic"
  | professional => "professional" | mentor => "mentor"
  | complex => "complex"
  end.
Definition of_string (s : string) : option RelationshipType :=
  if String.eqb s "romantic" then Some romantic
  else if String.eqb s "familial" then Some familial
  else if String.eqb s "friendship" then Some friendship
  else if String.eqb s "antagonistic" then Some antagonistic
  else if String.eqb s "professional" then Some professional
  else if String.eqb s "mentor" then Some mentor
  else if String.eqb s "complex" then Some complex
  else None.
Definition toJSON (t : RelationshipType) : json := JStr (to_string t).
Definition ofJSON (j : json) : option RelationshipType :=
  match j with JStr s => of_string s | _ => None end.
End RelationshipTypeJson.

Module CutTypeJson.
Definition to_string (t : CutType) : string :=
  match t with
  | dialogue => "dialogue" | narration => "narration"
  | action => "action" | internal => "internal"
  end.
Definition of_string (s : string) : option CutType :=
  if String.eqb s "dialogue" then Some dialogue
  else if String.eqb s "narration" then Some narration
  else if String.eqb s "action" then Some action
  else if String.eqb s "internal" then Some internal
  else None.
Definition toJSON (t : CutType) : json := JStr (to_string t).
Definition ofJSON (j : json) : option CutType :=
  match j with JStr s => of_string s | _ => None end.
End CutTypeJson.

Import Json.

Module EmotionPoint.
Record t := mk {
  timestamp : string;
  sceneId : option string;
  emotion : string;
  trigger : string;
  intensity : Z
}.
Definition toJSON (e : t) : json :=
  JObj (prop "timestamp" (JStr (timestamp e))
        ++ prop_opt JStr "sceneId" (sceneId e)
        ++ prop "emotion" (JStr (emotion e))
        ++ prop "trigger" (JStr (trigger e))
        ++ prop "intensity" (JNum (intensity e))).
Definition ofJSON (j : json) : option t :=
  o ← as_obj j;
  a ← req as_str "timestamp" o;
  b ← opt as_str "sceneId" o;
  c ← req as_str "emotion" o;
  d ← req as_str "trigger" o;
  e ← req as_num "intensity" o;
  Some (mk a b c d e).
End EmotionPoint.

Module Character.
Record t := mk {
  id : string;
  name : string;
  aliases : list string;
  arc : string;
  tone : string;
  speechLevel : SpeechLevel;
  keywords : list string;
  attitude : string;
  timeline : list EmotionPoint.t;
  notes : string;
  created : string;
  updated : string;
  taboo : option (list string);
  emotional_baseline : option string;
  triggers : option (list string)
}.
Definition toJSON (c : t) : json :=
  JObj (prop "id" (JStr (id c))
        ++ prop "name" (JStr (name c))
        ++ prop "aliases" (strs (aliases c))
        ++ prop "arc" (JStr (arc c))
        ++ prop "tone" (JStr (tone c))
        ++ prop "speechLevel" (SpeechLevelJson.toJSON (speechLevel c))
        ++ prop "keywords" (strs (keywords c))
        ++ prop "attitude" (JStr (attitude c))
        ++ prop "timeline" (JArr (map EmotionPoint.toJSON (timeline c)))
        ++ prop "notes" (JStr (notes c))
        ++ prop "created" (JStr (created c))
        ++ prop "updated" (JStr (updated c))
        ++ prop_opt strs "taboo" (taboo c)
        ++ prop_opt JStr "emotional_baseline" (emotional_baseline c)
        ++ prop_opt strs "triggers" (triggers c)).
Definition ofJSON (j : json) : option t :=
  o ← as_obj j;
  a ← req as_str "id" o;
  b ← req as_str "name" o;
  c ← req as_strs "aliases" o;
  d ← req as_str "arc" o;
  e ← req as_str "tone" o;
  f ← req SpeechLevelJson.ofJSON "speechLevel" o;
  g ← req as_strs "keywords" o;
  h ← req as_str "attitude" o;
  i ← req (arr_of EmotionPoint.ofJSON) "timeline" o;
  k ← req as_str "notes" o;
  l ← req as_str "created" o;
  m ← req as_str "updated" o;
  n ← opt as_strs "taboo" o;
  p ← opt as_str "emotional_baseline" o;
  q ← opt as_strs "triggers" o;
  Some (mk a b c d e f g h i k l m n p q).
Definition set_aliases (v : list string) (c : t) : t :=
  mk (id c) (name c) v (arc c) (tone c) (speechLevel c) (keywords c)
     (attitude c) (timeline c) (notes c) (created c) (updated c) (taboo c)
     (emotional_baseline c) (triggers c).
Definition set_updated (v : string) (c : t) : t :=
  mk (id c) (name c) (aliases c) (arc c) (tone c) (speechLevel c)
     (keywords c) (attitude c) (timeline c) (notes c) (created c) v (taboo c)
     (emotional_baseline c) (triggers c).
End Character.

Module WorldRule.
Record t := mk { id : string; category : string; description : string }.
Definition toJSON (r : t) : json :=
  JObj (prop "id" (JStr (id r))
        ++ prop "category" (JStr (category r))
        ++ prop "description" (JStr (description r))).
Definition ofJSON (j : json) : option t :=
  o ← as_obj j;
  a ← req as_str "id" o;
  b ← req as_str "category" o;
  c ← req as_str "description" o;
  Some (mk a b c).
End WorldRule.

Module Location.
Record t := mk {
  id : string;
  name : string;
  description : string;
  atmosphere : string;
  connectedTo : list string
}.
Definition toJSON (l : t) : json :=
  JObj (prop "id" (JStr (id l))
        ++ prop "name" (JStr (name l))
        ++ prop "description" (JStr (description l))
        ++ prop "atmosphere" (JStr (atmosphere l))
        ++ prop "connectedTo" (strs (connectedTo l))).
Definition ofJSON (j : json) : option t :=
  o ← as_obj j;
  a ← req as_str "id" o;
  b ← req as_str "name" o;
  c ← req as_str "description" o;
  d ← req as_str "atmosphere" o;
  e ← req as_strs "connectedTo" o;
  Some (mk a b c d e).
End Location.

Module WorldMemory.
Record t := mk {
  name : string;
  era : string;
  atmosphere : string;
  rules : list WorldRule.t;
  locations : list Location.t;
  culturalNotes : list string;
  notes : string
}.
Definition toJSON (w : t) : json :=
  JObj (prop "name" (JStr (name w))
        ++ prop "era" (JStr (era w))
        ++ prop "atmosphere" (JStr (atmosphere w))
        ++ prop "rules" (JArr (map WorldRule.toJSON (rules w)))
        ++ prop "locations" (JArr (map Location.toJSON (locations w)))
        ++ prop "culturalNotes" (strs (culturalNotes w))
        ++ prop "notes" (JStr (notes w))).
Definition ofJSON (j : json) : option t :=
  o ← as_obj j;
  a ← req as_str "name" o;
  b ← req as_str "era" o;
  c ← req as_str "atmosphere" o;
  d ← req (arr_of WorldRule.ofJSON) "rules" o;
  e ← req (arr_of Location.ofJSON) "locations" o;
  f ← req as_strs "culturalNotes" o;
  g ← req as_str "notes" o;
  Some (mk a b c d e f g).
End WorldMemory.

Module RelationshipEvent.
Record t := mk {
  timestamp : string;
  sceneId : option string;
  change : string;
  catalyst : string
}.
Definition toJSON (e : t) : json :=
  JObj (prop "timestamp" (JStr (timestamp e))
        ++ prop_opt JStr "sceneId" (sceneId e)
        ++ prop "change" (JStr (change e))
        ++ prop "catalyst" (JStr (catalyst e))).
Definition ofJSON (j : json) : option t :=
  o ← as_obj j;
  a ← req as_str "timestamp" o;
  b ← opt as_str "sceneId" o;
  c ← req as_str "change" o;
  d ← req as_str "catalyst" o;
  Some (mk a b c d).
End RelationshipEvent.

Module Relationship.
Record t := mk {
  id : string;
  from : string;
  to : string;
  type : RelationshipType;
  dynamic : string;
  speechLevel : option SpeechLevel;
  evolution : list RelationshipEvent.t;
  notes : option string;
  created : string
}.
Definition toJSON (r : t) : json :=
  JObj (prop "id" (JStr (id r))
        ++ prop "from" (JStr (from r))
        ++ prop "to" (JStr (to r))
        ++ prop "type" (RelationshipTypeJson.toJSON (type r))
        ++ prop "dynamic" (JStr (dynamic r))
        ++ prop_opt SpeechLevelJson.toJSON "speechLevel" (speechLevel r)
        ++ prop "evolution" (JArr (map RelationshipEvent.toJSON (evolution r)))
        ++ prop_opt JStr "notes" (notes r)
        ++ prop "created" (JStr (created r))).
Definition ofJSON (j : json) : option t :=
  o ← as_obj j;
  a ← req as_str "id" o;
  b ← req as_str "from" o;
  c ← req as_str "to" o;
  d ← req RelationshipTypeJson.ofJSON "type" o;
  e ← req as_str "dynamic" o;
  f ← opt SpeechLevelJson.ofJSON "speechLevel" o;
  g ← req (arr_of RelationshipEvent.ofJSON) "evolution" o;
  h ← opt as_str "notes" o;
  i ← req as_str "created" o;
  Some (mk a b c d e f g h i).
Definition set_evolution (v : list RelationshipEvent.t) (r : t) : t :=
  mk (id r) (from r) (to r) (type r) (dynamic r) (speechLevel r) v (notes r)
     (created r).
End Relationship.

Module Cut.
Record t := mk {
  order : Z;
  type : CutType;
  content : string;
  character : option string;
  emotionTag : option string
}.
Definition toJSON (c : t) : json :=
  JObj (prop "order" (JNum (order c))
        ++ prop "type" (CutTypeJson.toJSON (type c))
        ++ prop "content" (JStr (content c))
        ++ prop_opt JStr "character" (character c)
        ++ prop_opt JStr "emotionTag" (emotionTag c)).
Definition ofJSON (j : json) : option t :=
  o ← as_obj j;
  a ← req as_num "order" o;
  b ← req CutTypeJson.ofJSON "type" o;
  c ← req as_str "content" o;
  d ← opt as_str "character" o;
  e ← opt as_str "emotionTag" o;
  Some (mk a b c d e).
Definition set_order (v : Z) (c : t) : t :=
  mk v (type c) (content c) (character c) (emotionTag c).
End Cut.

Module Scene.
Record t := mk {
  id : string;
  title : string;
  chapter : option string;
  order : Z;
  characters : list string;
  emotionTags : list string;
  cuts : list Cut.t;
  narrationTone : option string;
  notes : option string;
  created : string
}.
Definition toJSON (s : t) : json :=
  JObj (prop "id" (JStr (id s))
        ++ prop "title" (JStr (title s))
        ++ prop_opt JStr "chapter" (chapter s)
        ++ prop "order" (JNum (order s))
        ++ prop "characters" (strs (characters s))
        ++ prop "emotionTags" (strs (emotionTags s))
        ++ prop "cuts" (JArr (map Cut.toJSON (cuts s)))
        ++ prop_opt JStr "narrationTone" (narrationTone s)
        ++ prop_opt JStr "notes" (notes s)
        ++ prop "created" (JStr (created s))).
Definition ofJSON (j : json) : option t :=
  o ← as_obj j;
  a ← req as_str "id" o;
  b ← req as_str "title" o;
  c ← opt as_str "chapter" o;
  d ← req as_num "order" o;
  e ← req as_strs "characters" o;
  f ← req as_strs "emotionTags" o;
  g ← req (arr_of Cut.ofJSON) "cuts" o;
  h ← opt as_str "narrationTone" o;
  i ← opt as_str "notes" o;
  k ← req as_str "created" o;
  Some (mk a b c d e f g h i k).
Definition set_order (v : Z) (s : t) : t :=
  mk (id s) (title s) (chapter s) v (characters s) (emotionTags s) (cuts s)
     (narrationTone s) (notes s) (created s).
Definition set_cuts (v : list Cut.t) (s : t) : t :=
  mk (id s) (title s) (chapter s) (order s) (characters s) (emotionTags s) v
     (narrationTone s) (notes s) (created s).
Definition set_emotionTags (v : list string) (s : t) : t :=
  mk (id s) (title s) (chapter s) (order s) (characters s) v (cuts s)
     (narrationTone s) (notes s) (created s).
End Scene.

Module Theme.
Record t := mk {
  id : string;
  name : string;
  description : string;
  keywords : list string;
  relatedCharacters : list string;
  relatedScenes : list string
}.
Definition toJSON (x : t) : json :=
  JObj (prop "id" (JStr (id x))
        ++ prop "name" (JStr (name x))
        ++ prop "description" (JStr (description x))
        ++ prop "keywords" (strs (keywords x))
        ++ prop "relatedCharacters" (strs (relatedCharacters x))
        ++ prop "relatedScenes" (strs (relatedScenes x))).
Definition ofJSON (j : json) : option t :=
  o ← as_obj j;
  a ← req as_str "id" o;
  b ← req as_str "name" o;
  c ← req as_str "description" o;
  d ← req as_strs "keywords" o;
  e ← req as_strs "relatedCharacters" o;
  f ← req as_strs "relatedScenes" o;
  Some (mk a b c d e f).
End Theme.

Module SynopsisState.
Record t := mk {
  protagonistAttitude : string;
  coreRelationships : string;
  emotionalTheme : string;
  genreVsRealEmotion : string;
  endingAftertaste : string;
  lastGenerated : option string
}.
Definition toJSON (s : t) : json :=
  JObj (prop "protagonistAttitude" (JStr (protagonistAttitude s))
        ++ prop "coreRelationships" (JStr (coreRelationships s))
        ++ prop "emotionalTheme" (JStr (emotionalTheme s))
        ++ prop "genreVsRealEmotion" (JStr (genreVsRealEmotion s))
        ++ prop "endingAftertaste" (JStr (endingAftertaste s))
        ++ prop_opt JStr "lastGenerated" (lastGenerated s)).
Definition ofJSON (j : json) : option t :=
  o ← as_obj j;
  a ← req as_str "protagonistAttitude" o;
  b ← req as_str "coreRelationships" o;
  c ← req as_str "emotionalTheme" o;
  d ← req as_str "genreVsRealEmotion" o;
  e ← req as_str "endingAftertaste" o;
  f ← opt as_str "lastGenerated" o;
  Some (mk a b c d e f).
End SynopsisState.

Module ProjectMeta.
Record t := mk {
  name : string;
  genre : string;
  created : string;
  updated : string
}.
Definition toJSON (p : t) : json :=
  JObj (prop "name" (JStr (name p))
        ++ prop "genre" (JStr (genre p))
        ++ prop "created" (JStr (created p))
        ++ prop "updated" (JStr (updated p))).
Definition ofJSON (j : json) : option t :=
  o ← as_obj j;
  a ← req as_str "name" o;
  b ← req as_str "genre" o;
  c ← req as_str "created" o;
  d ← req as_str "updated" o;
  Some (mk a b c d).
Definition set_updated (v : string) (p : t) : t :=
  mk (name p) (genre p) (created p) v.
End ProjectMeta.

Module WriterMemory.
Record t := mk {
  version : string;
  project : ProjectMeta.t;
  characters : list (string * Character.t);
  world : WorldMemory.t;
  relationships : list Relationship.t;
  scenes : list Scene.t;
  themes : list Theme.t;
  synopsis : option SynopsisState.t
}.
Definition toJSON (m : t) : json :=
  JObj (prop "version" (JStr (version m))
        ++ prop "project" (ProjectMeta.toJSON (project m))
        ++ prop "characters" (dict Character.toJSON (characters m))
        ++ prop "world" (WorldMemory.toJSON (world m))
        ++ prop "relationships"
             (JArr (map Relationship.toJSON (relationships m)))
        ++ prop "scenes" (JArr (map Scene.toJSON (scenes m)))
        ++ prop "themes" (JArr (map Theme.toJSON (themes m)))
        ++ prop_opt SynopsisState.toJSON "synopsis" (synopsis m)).
Definition ofJSON (j : json) : option t :=
  o ← as_obj j;
  a ← req as_str "version" o;
  b ← req ProjectMeta.ofJSON "project" o;
  c ← req (as_dict Character.ofJSON) "characters" o;
  d ← req WorldMemory.ofJSON "world" o;
  e ← req (arr_of Relationship.ofJSON) "relationships" o;
  f ← req (arr_of Scene.ofJSON) "scenes" o;
  g ← req (arr_of Theme.ofJSON) "themes" o;
  h ← opt SynopsisState.ofJSON "synopsis" o;
  Some (mk a b c d e f g h).
Definition set_project (v : ProjectMeta.t) (m : t) : t :=
  mk (version m) v (characters m) (world m) (relationships m) (scenes m)
     (themes m) (synopsis m).
Definition set_characters (v : list (string * Character.t)) (m : t) : t :=
  mk (version m) (project m) v (world m) (relationships m) (scenes m)
     (themes m) (synopsis m).
Definition set_relationships (v : list Relationship.t) (m : t) : t :=
  mk (version m) (project m) (characters m) (world m) v (scenes m)
     (themes m) (synopsis m).
Definition set_scenes (v : list Scene.t) (m : t) : t :=
  mk (version m) (project m) (characters m) (world m) (relationships m) v
     (themes m) (synopsis m).
End WriterMemory.

(* ------------------------------------------------------------------ *)
(** ** The interpreter state and its monad *)

(** The content of a file: text that [JSON.parse] rejects, or the JSON value
    the text denotes. *)
Inductive file := Unparsable (raw : string) | Parsed (j : json).

(** What the environment answers at its k-th reading. *)
Record Env := mkEnv {
  isoTime : nat -> string;       (* [new Date().toISOString()] *)
  epochSeconds : nat -> Z;       (* [Math.floor(Date.now() / 1000)] *)
  randomBase36 : nat -> string;  (* [Math.random().toString(36)] *)
  require_defined : bool         (* is [require] bound in the module? *)
}.

Definition handle := nat.

Record World := mkWorld {
  memFile : option file;          (* .writer-memory/memory.json *)
  tmpFile : option file;          (* .writer-memory/memory.json.tmp *)
  backupDir : gmap string file;   (* .writer-memory/backups/, by file name *)
  heap : list WriterMemory.t;     (* object graphs made by [JSON.parse] *)
  ticks : nat;                    (* readings of the environment so far *)
  env : Env
}.

Definition with_memFile (v : option file) (w : World) : World :=
  mkWorld v (tmpFile w) (backupDir w) (heap w) (ticks w) (env w).
Definition with_tmpFile (v : option file) (w : World) : World :=
  mkWorld (memFile w) v (backupDir w) (heap w) (ticks w) (env w).
Definition with_backupDir (v : gmap string file) (w : World) : World :=
  mkWorld (memFile w) (tmpFile w) v (heap w) (ticks w) (env w).
Definition with_heap (v : list WriterMemory.t) (w : World) : World :=
  mkWorld (memFile w) (tmpFile w) (backupDir w) v (ticks w) (env w).
Definition with_ticks (v : nat) (w : World) : World :=
  mkWorld (memFile w) (tmpFile w) (backupDir w) (heap w) v (env w).

(** A computation returns a value or throws; the state survives a throw.
    [Untyped] ends a run that went on with a parsed value that is not a
    [WriterMemory]: the code has a behaviour there, the model has none. *)
Inductive outcome (A : Type) := Ret (a : A) | Throw | Untyped.
Arguments Ret {A} a.
Arguments Throw {A}.
Arguments Untyped {A}.

Definition M (A : Type) : Type := World -> outcome A * World.

Definition ret {A} (a : A) : M A := fun w => (Ret a, w).
Definition throw {A} : M A := fun w => (Throw, w).
Definition untyped {A} : M A := fun w => (Untyped, w).
Definition bind {A B} (m : M A) (k : A -> M B) : M B :=
  fun w =>
    match m w with
    | (Ret a, w') => k a w'
    | (Throw, w') => (Throw, w')
    | (Untyped, w') => (Untyped, w')
    end.
(** [try { body } catch { handler }] *)
Definition try_catch {A} (body handler : M A) : M A :=
  fun w =>
    match body w with
    | (Ret a, w') => (Ret a, w')
    | (Throw, w') => handler w'
    | (Untyped, w') => (Untyped, w')
    end.
Definition get_world : M World := fun w => (Ret w, w).

Notation "'let!' x ':=' m 'in' k" := (bind m (fun x => k))
  (at level 10, x name, m at level 100, k at level 200,
   format "'[v' 'let!'  x  ':='  m  'in' '/' k ']'").
Notation "'let!' ' p ':=' m 'in' k" :=
  (bind m (fun x => match x with p => k end))
  (at level 10, p strict pattern, m at level 100, k at level 200,
   format "'[v' 'let!'  ' p  ':='  m  'in' '/' k ']'").
Notation "'exec!' m 'in' k" := (bind m (fun _ => k))
  (at level 10, m at level 100, k at level 200,
   format "'[v' 'exec!'  m  'in' '/' k ']'").

(** *** The environment *)

Definition tick : M nat :=
  fun w => (Ret (ticks w), with_ticks (S (ticks w)) w).

Definition string_of_Z (z : Z) : string := NilZero.string_of_int (Z.to_int z).

(** *** The heap of parsed documents *)

Definition alloc (d : WriterMemory.t) : M handle :=
  fun w => (Ret (length (heap w)), with_heap (heap w ++ [d]) w).
Definition deref (h : handle) : M WriterMemory.t :=
  fun w =>
    match heap w !! h with
    | Some d => (Ret d, w)
    | None => (Throw, w)
    end.
Definition modify (h : handle) (f : WriterMemory.t -> WriterMemory.t)
    : M unit :=
  fun w =>
    match heap w !! h with
    | Some d => (Ret tt, with_heap (<[h := f d]> (heap w)) w)
    | None => (Throw, w)
    end.

(** *** The file system

    [mkdirSync(dir, { recursive: true })] succeeds and a missing directory
    lists as an empty one, so directories carry no state of their own. *)

Definition existsSync_memPath : M bool :=
  fun w => (Ret (bool_decide (is_Some (memFile w))), w).
Definition readFileSync_memPath : M file :=
  fun w =>
    match memFile w with
    | Some c => (Ret c, w)
    | None => (Throw, w)
    end.
Definition writeFileSync_tmpPath (c : file) : M unit :=
  fun w => (Ret tt, with_tmpFile (Some c) w).
Definition renameSync_tmpPath_memPath : M unit :=
  fun w =>
    match tmpFile w with
    | Some c => (Ret tt, with_memFile (Some c) (with_tmpFile None w))
    | None => (Throw, w)
    end.
Definition writeFileSync_backup (f : string) (c : file) : M unit :=
  fun w => (Ret tt, with_backupDir (<[f := c]> (backupDir w)) w).
Definition readdirSync_backDir : M (list string) :=
  fun w => (Ret (map fst (map_to_list (backupDir w))), w).
Definition unlinkSync_backup (f : string) : M unit :=
  fun w =>
    match backupDir w !! f with
    | Some _ => (Ret tt, with_backupDir (delete f (backupDir w)) w)
    | None => (Throw, w)
    end.

(** [require("fs")]: the module imports its file-system functions by name
    and [unlinkSync] is not one of them; [pruneBackups] reaches it through
    the identifier [require].  Where that identifier is not bound,
    evaluating it throws a [ReferenceError]. *)
Definition require_fs : M unit :=
  fun w => if require_defined (env w) then (Ret tt, w) else (Throw, w).

(** [JSON.parse(raw)] *)
Definition JSON_parse (c : file) : M json :=
  match c with
  | Parsed j => ret j
  | Unparsable _ => throw
  end.

(* ------------------------------------------------------------------ *)
(** ** memory-manager.ts *)

Definition MEMORY_DIR : string := ".writer-memory".
Definition MEMORY_FILE : string := "memory.json".
Definition BACKUP_DIR : string := "backups".
Definition MAX_BACKUPS : nat := 20.

Definition join (a b : string) : string := a +:+ "/" +:+ b.
Definition getMemoryPath : string := join MEMORY_DIR MEMORY_FILE.
Definition getBackupPath : string := join MEMORY_DIR BACKUP_DIR.

Definition generateId (prefix : string) : M string :=
  let! k := tick in
  let! w := get_world in
  let ts := epochSeconds (env w) k in
  let rand := substring 2 3 (randomBase36 (env w) k) in
  ret (prefix +:+ "_" +:+ string_of_Z ts +:+ "_" +:+ rand).

Definition toISOString : M string :=
  let! k := tick in
  let! w := get_world in
  ret (isoTime (env w) k).

Definition now : M string := toISOString.

(** [loadMemory]: [null] when the file is missing or does not parse.  What
    [JSON.parse] returns is handed on unchecked ([as WriterMemory]): a
    value that reads as a [WriterMemory] becomes a document of the heap, any
    other value ends the run in [Untyped]. *)
Definition loadMemory : M (option handle) :=
  try_catch
    (let! present := existsSync_memPath in
     if negb present then ret None
     else
       let! raw := readFileSync_memPath in
       let! parsed := JSON_parse raw in
       match WriterMemory.ofJSON parsed with
       | Some d => let! h := alloc d in ret (Some h)
       | None => untyped
       end)
    (ret None).

(** [f.startsWith("memory-") && f.endsWith(".json")] *)
Definition endsWith (s suffix : string) : bool :=
  (String.length suffix <=? String.length s)%nat
  && String.eqb
       (substring (String.length s - String.length suffix)
                  (String.length suffix) s)
       suffix.
Definition is_backup_name (f : string) : bool :=
  String.prefix "memory-" f && endsWith f ".json".

(** [while (files.length > MAX_BACKUPS) {
      const oldest = files.shift()!;
      require("fs").unlinkSync(join(backDir, oldest)); }] *)
Fixpoint prune_loop (files : list string) : M unit :=
  match files with
  | [] => ret tt
  | oldest :: rest =>
      if (MAX_BACKUPS <? length files)%nat then
        exec! require_fs in
        exec! unlinkSync_backup oldest in
        prune_loop rest
      else ret tt
  end.

(** [.sort()] on strings: ascending by code units. *)
Definition sort_strings : list string -> list string := merge_sort String.le.

Definition pruneBackups : M unit :=
  try_catch
    (let! names := readdirSync_backDir in
     let files := sort_strings (List.filter is_backup_name names) in
     prune_loop files)
    (ret tt).

(** [ts.replace(/[:.]/g, "-")] *)
Fixpoint replace_colon_dot (s : string) : string :=
  match s with
  | EmptyString => EmptyString
  | String c rest =>
      String (if (Ascii.eqb c ":" || Ascii.eqb c ".")%char then "-"%char
              else c)
             (replace_colon_dot rest)
  end.

Definition backup_name (iso : string) : string :=
  "memory-" +:+ replace_colon_dot iso +:+ ".json".

(** [createBackup]: the argument is only serialised, so it is taken as the
    JSON value it serialises to. *)
Definition createBackup (memory : json) : M string :=
  try_catch
    (let! iso := toISOString in
     let backupFile := backup_name iso in
     exec! writeFileSync_backup backupFile (Parsed memory) in
     exec! pruneBackups in
     ret (join getBackupPath backupFile))
    (ret EmptyString).

Definition set_project_updated (t : string) (d : WriterMemory.t)
    : WriterMemory.t :=
  WriterMemory.set_project
    (ProjectMeta.set_updated t (WriterMemory.project d)) d.

(** The block of [saveMemory] under "Backup existing file before
    overwriting": a failure in it is swallowed. *)
Definition backup_existing : M unit :=
  let! present := existsSync_memPath in
  if present then
    try_catch
      (let! existing := readFileSync_memPath in
       let! existingMemory := JSON_parse existing in
       exec! createBackup existingMemory in
       ret tt)
      (ret tt)
  else ret tt.

Definition saveMemory (memory : handle) : M bool :=
  try_catch
    (exec! backup_existing in
     let! t := now in
     exec! modify memory (set_project_updated t) in
     let! d := deref memory in
     let json := WriterMemory.toJSON d in
     exec! writeFileSync_tmpPath (Parsed json) in
     exec! renameSync_tmpPath_memPath in
     ret true)
    (ret false).

(** A double quote, for the messages that quote a name. *)
Definition dq : string := String (Ascii.ascii_of_nat 34) EmptyString.
Definition quoted (s : string) : string := dq +:+ s +:+ dq.

(** JavaScript truthiness of a string. *)
Definition truthy (s : string) : bool := negb (String.eqb s EmptyString).

(** [arr.includes(x)], [arr.findIndex(p)], [arr.indexOf(x)] *)
Definition includes (x : string) (l : list string) : bool :=
  existsb (String.eqb x) l.
Fixpoint findIndex {A} (p : A -> bool) (l : list A) : option nat :=
  match l with
  | [] => None
  | a :: rest => if p a then Some 0%nat else option_map S (findIndex p rest)
  end.
Definition indexOf (x : string) (l : list string) : option nat :=
  findIndex (String.eqb x) l.

(** *** Objects used as dictionaries *)

(** Own property lookup. *)
Fixpoint lookup_own {A} (k : string) (m : list (string * A)) : option A :=
  match m with
  | [] => None
  | (k', a) :: rest => if String.eqb k k' then Some a else lookup_own k rest
  end.

(** [obj[k] = v], also [map.set(k, v)]: an existing key keeps its place, a
    new key is enumerated last.  (JavaScript enumerates integer-like keys
    of an object first; the enumeration order of such keys is not told
    apart here.) *)
Fixpoint set_own {A} (k : string) (v : A) (m : list (string * A))
    : list (string * A) :=
  match m with
  | [] => [(k, v)]
  | (k', a) :: rest =>
      if String.eqb k k' then (k, v) :: rest else (k', a) :: set_own k v rest
  end.

(** In-place mutation of the object stored under [k]. *)
Fixpoint alter_own {A} (f : A -> A) (k : string) (m : list (string * A))
    : list (string * A) :=
  match m with
  | [] => []
  | (k', a) :: rest =>
      if String.eqb k k' then (k', f a) :: rest
      else (k', a) :: alter_own f k rest
  end.

(** The properties every object literal and every parsed object inherits
    from [Object.prototype]; each reads as a truthy value. *)
Definition object_prototype_names : list string :=
  [ "constructor"; "__defineGetter__"; "__defineSetter__"; "hasOwnProperty";
    "__lookupGetter__"; "__lookupSetter__"; "isPrototypeOf";
    "propertyIsEnumerable"; "toString"; "valueOf"; "__proto__";
    "toLocaleString" ].

Inductive property (A : Type) := Own (a : A) | Inherited | Absent.
Arguments Own {A} a.
Arguments Inherited {A}.
Arguments Absent {A}.

(** [obj[k]] *)
Definition get_property {A} (k : string) (m : list (string * A))
    : property A :=
  match lookup_own k m with
  | Some a => Own a
  | None => if includes k object_prototype_names then Inherited else Absent
  end.

(** [validateMemory] *)

Record ValidationResult := mkValidationResult {
  valid : bool;
  errors : list string;
  warnings : list string
}.

Definition has_scene_id (scenes : list Scene.t) (sid : string) : bool :=
  existsb (fun s => String.eqb (Scene.id s) sid) scenes.

Definition version_errors (m : WriterMemory.t) : list string :=
  if negb (String.eqb (WriterMemory.version m) "1.0") then
    [ "Unsupported version: " +:+ quoted (WriterMemory.version m)
      +:+ " (expected " +:+ quoted "1.0" +:+ ")" ]
  else [].

Definition project_errors (p : ProjectMeta.t) : list string :=
  (if negb (truthy (ProjectMeta.name p)) then ["Project name is empty"]
   else [])
  ++ (if negb (truthy (ProjectMeta.created p)) then
        ["Project created timestamp is missing"]
      else []).

Definition project_warnings (p : ProjectMeta.t) : list string :=
  if negb (truthy (ProjectMeta.genre p)) then ["Project genre is empty"]
  else [].

Definition character_errors (entry : string * Character.t) : list string :=
  let (id, char) := entry in
  (if negb (String.eqb (Character.id char) id) then
     [ "Character key " +:+ quoted id
       +:+ " does not match character.id " +:+ quoted (Character.id char) ]
   else [])
  ++ (if negb (truthy (Character.name char)) then
        [ "Character " +:+ quoted id +:+ " has no name" ]
      else []).

Definition emotion_point_warnings (scenes : list Scene.t) (char : Character.t)
    (ep : EmotionPoint.t) : list string :=
  (if (EmotionPoint.intensity ep <? 1) || (5 <? EmotionPoint.intensity ep)
   then
     [ "Character " +:+ quoted (Character.name char)
       +:+ " has emotion point with intensity "
       +:+ string_of_Z (EmotionPoint.intensity ep) +:+ " (expected 1-5)" ]
   else [])
  ++ match EmotionPoint.sceneId ep with
     | Some sid =>
         if truthy sid && negb (has_scene_id scenes sid) then
           [ "Character " +:+ quoted (Character.name char)
             +:+ " references non-existent scene " +:+ quoted sid
             +:+ " in timeline" ]
         else []
     | None => []
     end.

Definition character_warnings (scenes : list Scene.t)
    (entry : string * Character.t) : list string :=
  flat_map (emotion_point_warnings scenes (snd entry))
    (Character.timeline (snd entry)).

Definition relationship_errors (charIds : list string) (rel : Relationship.t)
    : list string :=
  (if negb (includes (Relationship.from rel) charIds) then
     [ "Relationship " +:+ quoted (Relationship.id rel)
       +:+ " references non-existent character "
       +:+ quoted (Relationship.from rel) ]
   else [])
  ++ (if negb (includes (Relationship.to rel) charIds) then
        [ "Relationship " +:+ quoted (Relationship.id rel)
          +:+ " references non-existent character "
          +:+ quoted (Relationship.to rel) ]
      else []).

Definition relationship_warnings (rel : Relationship.t) : list string :=
  if String.eqb (Relationship.from rel) (Relationship.to rel) then
    [ "Relationship " +:+ quoted (Relationship.id rel)
      +:+ " is self-referential (from === to === "
      +:+ quoted (Relationship.from rel) +:+ ")" ]
  else [].

(** The loop over the scenes: [seen] is the set [sceneIds] so far. *)
Fixpoint scene_errors (seen : list string) (scenes : list Scene.t)
    : list string :=
  match scenes with
  | [] => []
  | scene :: rest =>
      (if includes (Scene.id scene) seen then
         [ "Duplicate scene ID: " +:+ quoted (Scene.id scene) ]
       else [])
      ++ scene_errors (Scene.id scene :: seen) rest
  end.

Definition scene_warnings (charIds : list string) (scene : Scene.t)
    : list string :=
  flat_map
    (fun charId =>
       if negb (includes charId charIds) then
         [ "Scene " +:+ quoted (Scene.title scene)
           +:+ " references non-existent character " +:+ quoted charId ]
       else [])
    (Scene.characters scene)
  ++ (if (length (Scene.cuts scene) =? 0)%nat then
        [ "Scene " +:+ quoted (Scene.title scene) +:+ " has no cuts" ]
      else []).

Definition theme_warnings (charIds sceneIds : list string) (theme : Theme.t)
    : list string :=
  flat_map
    (fun charId =>
       if negb (includes charId charIds) then
         [ "Theme " +:+ quoted (Theme.name theme)
           +:+ " references non-existent character " +:+ quoted charId ]
       else [])
    (Theme.relatedCharacters theme)
  ++ flat_map
       (fun sid =>
          if negb (includes sid sceneIds) then
            [ "Theme " +:+ quoted (Theme.name theme)
              +:+ " references non-existent scene " +:+ quoted sid ]
          else [])
       (Theme.relatedScenes theme).

Definition validateMemory (memory : WriterMemory.t) : ValidationResult :=
  let charIds := map fst (WriterMemory.characters memory) in
  let sceneIds := map Scene.id (WriterMemory.scenes memory) in
  let errors :=
    version_errors memory
    ++ project_errors (WriterMemory.project memory)
    ++ flat_map character_errors (WriterMemory.characters memory)
    ++ flat_map (relationship_errors charIds)
         (WriterMemory.relationships memory)
    ++ scene_errors [] (WriterMemory.scenes memory) in
  let warnings :=
    project_warnings (WriterMemory.project memory)
    ++ flat_map (character_warnings (WriterMemory.scenes memory))
         (WriterMemory.characters memory)
    ++ flat_map relationship_warnings (WriterMemory.relationships memory)
    ++ flat_map (scene_warnings charIds) (WriterMemory.scenes memory)
    ++ flat_map (theme_warnings charIds sceneIds)
         (WriterMemory.themes memory) in
  mkValidationResult (length errors =? 0)%nat errors warnings.

(* ------------------------------------------------------------------ *)
(** ** The character module *)

(** What [findCharacter] returns: a character object of the document,
    referred to by the key it is stored under; a value inherited from
    [Object.prototype] (no character, but truthy); or [null]. *)
Inductive found_character :=
| FoundCharacter (key : string)
| FoundInherited
| NotFound.

Definition findCharacter (memory : WriterMemory.t) (nameOrAlias : string)
    : found_character :=
  match get_property nameOrAlias (WriterMemory.characters memory) with
  | Own _ => FoundCharacter nameOrAlias
  | Inherited => FoundInherited
  | Absent =>
      match
        List.find
          (fun entry => includes nameOrAlias (Character.aliases (snd entry)))
          (WriterMemory.characters memory)
      with
      | Some entry => FoundCharacter (fst entry)
      | None => NotFound
      end
  end.

(** Reading and mutating the character object stored under [key] in the
    document of handle [h]. *)
Definition read_character (h : handle) (key : string) : M Character.t :=
  let! d := deref h in
  match lookup_own key (WriterMemory.characters d) with
  | Some c => ret c
  | None => throw
  end.
Definition update_character (h : handle) (key : string)
    (f : Character.t -> Character.t) : M unit :=
  modify h
    (fun d =>
       WriterMemory.set_characters
         (alter_own f key (WriterMemory.characters d)) d).

Record CharacterOptions := mkCharacterOptions {
  opt_arc : option string;
  opt_tone : option string;
  opt_speechLevel : option SpeechLevel;
  opt_attitude : option string;
  opt_keywords : option (list string);
  opt_notes : option string
}.

(** [x || d] on an optional string: [undefined] and the empty string give
    [d]. *)
Definition or_string (x : option string) (d : string) : string :=
  match x with
  | Some s => if truthy s then s else d
  | None => d
  end.

Definition addCharacter (name : string) (options : option CharacterOptions)
    : M (option Character.t) :=
  let! memory := loadMemory in
  match memory with
  | None => ret None
  | Some h =>
      let! d := deref h in
      match get_property name (WriterMemory.characters d) with
      | Own _ | Inherited => ret None
      | Absent =>
          let! id := generateId "char" in
          let! created := now in
          let! updated := now in
          let character :=
            Character.mk id name []
              (or_string (options ≫= opt_arc) EmptyString)
              (or_string (options ≫= opt_tone) EmptyString)
              (default Banmal (options ≫= opt_speechLevel))
              (default [] (options ≫= opt_keywords))
              (or_string (options ≫= opt_attitude) EmptyString)
              []
              (or_string (options ≫= opt_notes) EmptyString)
              created updated None None None in
          exec! modify h
                  (fun d =>
                     WriterMemory.set_characters
                       (set_own name character (WriterMemory.characters d))
                       d) in
          let! _ := saveMemory h in
          ret (Some character)
      end
  end.

Definition addAlias (characterName alias : string) : M bool :=
  let! memory := loadMemory in
  match memory with
  | None => ret false
  | Some h =>
      let! d := deref h in
      match findCharacter d characterName with
      | NotFound => ret false
      | FoundInherited => throw
      | FoundCharacter key =>
          let! character := read_character h key in
          if negb (includes alias (Character.aliases character)) then
            exec! update_character h key
                    (fun c =>
                       Character.set_aliases (Character.aliases c ++ [alias])
                         c) in
            let! t := now in
            exec! update_character h key (Character.set_updated t) in
            let! _ := saveMemory h in
            ret true
          else ret true
      end
  end.

Definition removeAlias (characterName alias : string) : M bool :=
  let! memory := loadMemory in
  match memory with
  | None => ret false
  | Some h =>
      let! d := deref h in
      match findCharacter d characterName with
      | NotFound => ret false
      | FoundInherited => throw
      | FoundCharacter key =>
          let! character := read_character h key in
          match indexOf alias (Character.aliases character) with
          | Some idx =>
              exec! update_character h key
                      (fun c =>
                         Character.set_aliases
                           (delete idx (Character.aliases c)) c) in
              let! t := now in
              exec! update_character h key (Character.set_updated t) in
              let! _ := saveMemory h in
              ret true
          | None => ret false
          end
      end
  end.

(* ------------------------------------------------------------------ *)
(** ** The relationship module *)

(** The predicate of every lookup: the pair in either orientation. *)
Definition same_pair (char1Name char2Name : string) (r : Relationship.t)
    : bool :=
  (String.eqb (Relationship.from r) char1Name
   && String.eqb (Relationship.to r) char2Name)
  || (String.eqb (Relationship.from r) char2Name
      && String.eqb (Relationship.to r) char1Name).

(** A relationship object: the document it belongs to and its position in
    the array [relationships] of that document. *)
Definition RelationshipRef : Type := handle * nat.

Definition read_relationship (r : RelationshipRef) : M Relationship.t :=
  let! d := deref (fst r) in
  match WriterMemory.relationships d !! snd r with
  | Some x => ret x
  | None => throw
  end.
Definition update_relationship (r : RelationshipRef)
    (f : Relationship.t -> Relationship.t) : M unit :=
  modify (fst r)
    (fun d =>
       WriterMemory.set_relationships
         (alter f (snd r) (WriterMemory.relationships d)) d).

Definition getRelationship (char1Name char2Name : string)
    : M (option RelationshipRef) :=
  let! memory := loadMemory in
  match memory with
  | None => ret None
  | Some h =>
      let! d := deref h in
      ret (option_map (fun i => (h, i))
             (findIndex (same_pair char1Name char2Name)
                (WriterMemory.relationships d)))
  end.

Record RelationshipOptions := mkRelationshipOptions {
  opt_dynamic : option string;
  opt_rel_speechLevel : option SpeechLevel;
  opt_rel_notes : option string
}.

Definition addRelationship (char1Name char2Name : string)
    (type : RelationshipType) (options : option RelationshipOptions)
    : M (option Relationship.t) :=
  let! memory := loadMemory in
  match memory with
  | None => ret None
  | Some h =>
      let! d := deref h in
      match
        List.find (same_pair char1Name char2Name)
          (WriterMemory.relationships d)
      with
      | Some _ => ret None
      | None =>
          let! id := generateId "rel" in
          let! created := now in
          let relationship :=
            Relationship.mk id char1Name char2Name type
              (or_string (options ≫= opt_dynamic) "stable")
              (options ≫= opt_rel_speechLevel) []
              (options ≫= opt_rel_notes) created in
          exec! modify h
                  (fun d =>
                     WriterMemory.set_relationships
                       (WriterMemory.relationships d ++ [relationship]) d) in
          let! _ := saveMemory h in
          ret (Some relationship)
      end
  end.

(** [Partial<Omit<Relationship, 'id' | 'from' | 'to' | 'created'>>]: a
    property that is present overwrites; for the optional properties the
    value written may be [undefined]. *)
Record RelationshipUpdates := mkRelationshipUpdates {
  upd_type : option RelationshipType;
  upd_dynamic : option string;
  upd_speechLevel : option (option SpeechLevel);
  upd_evolution : option (list RelationshipEvent.t);
  upd_notes : option (option string)
}.

(** [Object.assign(relationship, updates)] *)
Definition assign_relationship (updates : RelationshipUpdates)
    (r : Relationship.t) : Relationship.t :=
  Relationship.mk (Relationship.id r) (Relationship.from r)
    (Relationship.to r)
    (default (Relationship.type r) (upd_type updates))
    (default (Relationship.dynamic r) (upd_dynamic updates))
    (default (Relationship.speechLevel r) (upd_speechLevel updates))
    (default (Relationship.evolution r) (upd_evolution updates))
    (default (Relationship.notes r) (upd_notes updates))
    (Relationship.created r).

Definition updateRelationship (char1Name char2Name : string)
    (updates : RelationshipUpdates) : M (option Relationship.t) :=
  let! memory := loadMemory in
  match memory with
  | None => ret None
  | Some h =>
      let! relationship := getRelationship char1Name char2Name in
      match relationship with
      | None => ret None
      | Some ref =>
          exec! update_relationship ref (assign_relationship updates) in
          let! _ := saveMemory h in
          let! r := read_relationship ref in
          ret (Some r)
      end
  end.

Definition addRelationshipEvent (char1Name char2Name change catalyst : string)
    (sceneId : option string) : M (option RelationshipEvent.t) :=
  let! relationship := getRelationship char1Name char2Name in
  match relationship with
  | None => ret None
  | Some ref =>
      let! timestamp := now in
      let event := RelationshipEvent.mk timestamp sceneId change catalyst in
      exec! update_relationship ref
              (fun r =>
                 Relationship.set_evolution
                   (Relationship.evolution r ++ [event]) r) in
      let! memory := loadMemory in
      match memory with
      | None => ret None
      | Some h =>
          let! _ := saveMemory h in
          ret (Some event)
      end
  end.

(* ------------------------------------------------------------------ *)
(** ** The scene module *)

(** [memory.scenes] and the like on the result of [loadMemory]: a
    [TypeError] when it is [null]. *)
Definition deref_nullable (memory : option handle)
    : M (handle * WriterMemory.t) :=
  match memory with
  | Some h => let! d := deref h in ret (h, d)
  | None => throw
  end.

(** [findSceneById]: the scene object, by its position in [scenes]. *)
Definition findSceneById (memory : WriterMemory.t) (id : string)
    : option nat :=
  findIndex (fun s => String.eqb (Scene.id s) id) (WriterMemory.scenes memory).

Definition update_scenes (h : handle)
    (f : list Scene.t -> list Scene.t) : M unit :=
  modify h (fun d => WriterMemory.set_scenes (f (WriterMemory.scenes d)) d).

(** [arr.forEach((x, idx) => { x.order = idx })] on an array whose elements
    are distinct objects. *)
Definition renumber_scenes (l : list Scene.t) : list Scene.t :=
  imap (fun idx s => Scene.set_order (Z.of_nat idx) s) l.
Definition renumber_cuts (l : list Cut.t) : list Cut.t :=
  imap (fun idx c => Cut.set_order (Z.of_nat idx) c) l.

(** The same loop on an array of references into a store of objects: every
    write goes to the object referred to, so an object listed twice is
    written twice.  An [undefined] element throws. *)
Fixpoint assign_order_refs {A} (set_order : Z -> A -> A)
    (refs : list (option nat)) (idx : nat) (store : list A)
    : option (list A) :=
  match refs with
  | [] => Some store
  | None :: _ => None
  | Some r :: rest =>
      assign_order_refs set_order rest (S idx)
        (alter (set_order (Z.of_nat idx)) r store)
  end.

(** The objects an array of references lists, as a serialisation sees
    them. *)
Fixpoint deref_all {A} (store : list A) (refs : list (option nat))
    : option (list A) :=
  match refs with
  | [] => Some []
  | r :: rest =>
      match r ≫= (fun i => store !! i), deref_all store rest with
      | Some a, Some l => Some (a :: l)
      | _, _ => None
      end
  end.

(** [reordered = refs; reordered.forEach((x, idx) => x.order = idx)] and
    the array's content afterwards. *)
Definition reorder_by_refs {A} (set_order : Z -> A -> A) (store : list A)
    (refs : list (option nat)) : M (list A) :=
  match assign_order_refs set_order refs 0 store with
  | Some store' =>
      match deref_all store' refs with
      | Some l => ret l
      | None => throw
      end
  | None => throw
  end.

Record SceneOptions := mkSceneOptions {
  opt_chapter : option string;
  opt_characters : option (list string);
  opt_emotionTags : option (list string);
  opt_narrationTone : option string;
  opt_scene_notes : option string
}.

Definition addScene (title : string) (options : option SceneOptions)
    : M (option Scene.t) :=
  try_catch
    (let! memory := loadMemory in
     let! id := generateId "scene" in
     let! '(h, d) := deref_nullable memory in
     let order := Z.of_nat (length (WriterMemory.scenes d)) in
     let! created := now in
     let newScene :=
       Scene.mk id title (options ≫= opt_chapter) order
         (default [] (options ≫= opt_characters))
         (default [] (options ≫= opt_emotionTags))
         []
         (Some (or_string (options ≫= opt_narrationTone) EmptyString))
         (Some (or_string (options ≫= opt_scene_notes) EmptyString))
         created in
     exec! update_scenes h (fun scenes => scenes ++ [newScene]) in
     let! _ := saveMemory h in
     ret (Some newScene))
    (ret None).

Definition removeScene (sceneId : string) : M bool :=
  try_catch
    (let! memory := loadMemory in
     let! '(h, d) := deref_nullable memory in
     match
       findIndex (fun s => String.eqb (Scene.id s) sceneId)
         (WriterMemory.scenes d)
     with
     | None => ret false
     | Some index =>
         exec! update_scenes h (delete index) in
         exec! update_scenes h renumber_scenes in
         let! _ := saveMemory h in
         ret true
     end)
    (ret false).

(** [new Map(entries)]: a later entry replaces an earlier one with the same
    key. *)
Definition Map_of_entries {V} (entries : list (string * V))
    : list (string * V) :=
  fold_left (fun m e => set_own (fst e) (snd e) m) entries [].

Definition reorderScenes (sceneIds : list string) : M bool :=
  try_catch
    (let! memory := loadMemory in
     let! '(h, d) := deref_nullable memory in
     let scenes := WriterMemory.scenes d in
     if negb (length sceneIds =? length scenes)%nat then ret false
     else
       let sceneMap :=
         Map_of_entries (imap (fun i s => (Scene.id s, i)) scenes) in
       if negb (forallb (fun id => bool_decide (is_Some (lookup_own id sceneMap)))
                  sceneIds)
       then ret false
       else
         let refs := map (fun id => lookup_own id sceneMap) sceneIds in
         let! reordered := reorder_by_refs Scene.set_order scenes refs in
         exec! update_scenes h (fun _ => reordered) in
         let! _ := saveMemory h in
         ret true)
    (ret false).

(** Reading and mutating the scene at position [i] of document [h]. *)
Definition update_scene (h : handle) (i : nat) (f : Scene.t -> Scene.t)
    : M unit :=
  update_scenes h (alter f i).
Definition read_scene (h : handle) (i : nat) : M Scene.t :=
  let! d := deref h in
  match WriterMemory.scenes d !! i with
  | Some s => ret s
  | None => throw
  end.

Record CutInput := mkCutInput {
  cut_type : CutType;
  cut_content : string;
  cut_character : option string;
  cut_emotionTag : option string
}.

Definition addCut (sceneId : string) (cut : CutInput) : M bool :=
  try_catch
    (let! memory := loadMemory in
     let! '(h, d) := deref_nullable memory in
     match findSceneById d sceneId with
     | None => ret false
     | Some i =>
         let! scene := read_scene h i in
         let newCut :=
           Cut.mk (Z.of_nat (length (Scene.cuts scene))) (cut_type cut)
             (cut_content cut) (cut_character cut) (cut_emotionTag cut) in
         exec! update_scene h i
                 (fun s => Scene.set_cuts (Scene.cuts s ++ [newCut]) s) in
         let! _ := saveMemory h in
         ret true
     end)
    (ret false).

Definition removeCut (sceneId : string) (cutOrder : Z) : M bool :=
  try_catch
    (let! memory := loadMemory in
     let! '(h, d) := deref_nullable memory in
     match findSceneById d sceneId with
     | None => ret false
     | Some i =>
         let! scene := read_scene h i in
         match
           findIndex (fun c => Z.eqb (Cut.order c) cutOrder) (Scene.cuts scene)
         with
         | None => ret false
         | Some index =>
             exec! update_scene h i
                     (fun s => Scene.set_cuts (delete index (Scene.cuts s)) s) in
             exec! update_scene h i
                     (fun s => Scene.set_cuts (renumber_cuts (Scene.cuts s)) s) in
             let! _ := saveMemory h in
             ret true
         end
     end)
    (ret false).

(** [[...newOrder].sort((a, b) => a - b)] *)
Definition sort_numbers : list Z -> list Z := merge_sort Z.le.

(** [for (i = 0; i < sorted.length; i++) if (sorted[i] !== i) return false] *)
Fixpoint is_index_range (i : nat) (sorted : list Z) : bool :=
  match sorted with
  | [] => true
  | x :: rest => Z.eqb x (Z.of_nat i) && is_index_range (S i) rest
  end.

(** [arr[oldIdx]] for a number: [undefined] outside the array. *)
Definition index_ref (oldIdx : Z) : option nat :=
  if oldIdx <? 0 then None else Some (Z.to_nat oldIdx).

Definition reorderCuts (sceneId : string) (newOrder : list Z) : M bool :=
  try_catch
    (let! memory := loadMemory in
     let! '(h, d) := deref_nullable memory in
     match findSceneById d sceneId with
     | None => ret false
     | Some i =>
         let! scene := read_scene h i in
         if negb (length newOrder =? length (Scene.cuts scene))%nat then
           ret false
         else
           let sortedOrder := sort_numbers newOrder in
           if negb (is_index_range 0 sortedOrder) then ret false
           else
             let! reorderedCuts :=
               reorder_by_refs Cut.set_order (Scene.cuts scene)
                 (map index_ref newOrder) in
             exec! update_scene h i (Scene.set_cuts reorderedCuts) in
             let! _ := saveMemory h in
             ret true
     end)
    (ret false).

Definition addEmotionTag (sceneId tag : string) : M bool :=
  try_catch
    (let! memory := loadMemory in
     let! '(h, d) := deref_nullable memory in
     match findSceneById d sceneId with
     | None => ret false
     | Some i =>
         let! scene := read_scene h i in
         if includes tag (Scene.emotionTags scene) then ret true
         else
           exec! update_scene h i
                   (fun s =>
                      Scene.set_emotionTags (Scene.emotionTags s ++ [tag]) s) in
           let! _ := saveMemory h in
           ret true
     end)
    (ret false).

Definition removeEmotionTag (sceneId tag : string) : M bool :=
  try_catch
    (let! memory := loadMemory in
     let! '(h, d) := deref_nullable memory in
     match findSceneById d sceneId with
     | None => ret false
     | Some i =>
         let! scene := read_scene h i in
         match indexOf tag (Scene.emotionTags scene) with
         | None => ret true
         | Some index =>
             exec! update_scene h i
                     (fun s =>
                        Scene.set_emotionTags
                          (delete index (Scene.emotionTags s)) s) in
             let! _ := saveMemory h in
             ret true
         end
     end)
    (ret false).

(* ------------------------------------------------------------------ *)
(** ** [detectSpeechLevel] (character module)

    A dialogue line is a sequence of UTF-16 code units, which is what the
    regular expressions of the source (no [u] flag) match on. *)

Module Speech.
Local Open Scope N_scope.

Definition text : Type := list N.

(** The class [[.!?]]. *)
Definition is_terminator (c : N) : bool :=
  N.eqb c 46 || N.eqb c 33 || N.eqb c 63.

(** [text.split(/[.!?]/)] *)
Fixpoint split (t : text) : list text :=
  match t with
  | [] => [[]]
  | c :: rest =>
      if is_terminator c then [] :: split rest
      else
        match split rest with
        | cur :: more => (c :: cur) :: more
        | [] => [[c]]
        end
  end.

(** White space and line terminators, as [String.prototype.trim] strips
    them. *)
Definition is_space (c : N) : bool :=
  (9 <=? c) && (c <=? 13) || N.eqb c 32 || N.eqb c 160 || N.eqb c 5760
  || (8192 <=? c) && (c <=? 8202) || N.eqb c 8232 || N.eqb c 8233
  || N.eqb c 8239 || N.eqb c 8287 || N.eqb c 12288 || N.eqb c 65279.

Fixpoint trimStart (t : text) : text :=
  match t with
  | [] => []
  | c :: rest => if is_space c then trimStart rest else t
  end.
Definition trim (t : text) : text := rev (trimStart (rev (trimStart t))).

Definition nonempty (t : text) : bool :=
  match t with [] => false | _ :: _ => true end.

Fixpoint text_eqb (a b : text) : bool :=
  match a, b with
  | [], [] => true
  | x :: a', y :: b' => N.eqb x y && text_eqb a' b'
  | _, _ => false
  end.

(** [/suffix$/.test(t)] *)
Definition ends_with (suffix t : text) : bool :=
  (length suffix <=? length t)%nat
  && text_eqb (skipn (length t - length suffix)%nat t) suffix.
(** [/c/.test(t)] for a single code unit. *)
Definition contains (c : N) (t : text) : bool := existsb (N.eqb c) t.

(** [/요$|습니다$|세요$|십시오$/] *)
Definition formal (t : text) : bool :=
  ends_with [0xC694] t || ends_with [0xC2B5; 0xB2C8; 0xB2E4] t
  || ends_with [0xC138; 0xC694] t || ends_with [0xC2ED; 0xC2DC; 0xC624] t.
(** [/야$|아$|어$|지$|는데$/] *)
Definition informal (t : text) : bool :=
  ends_with [0xC57C] t || ends_with [0xC544] t || ends_with [0xC5B4] t
  || ends_with [0xC9C0] t || ends_with [0xB294; 0xB370] t.
(** [/임$|음$|ㅋ|ㅎ$/] *)
Definition casual (t : text) : bool :=
  ends_with [0xC784] t || ends_with [0xC74C] t || contains 0x314B t
  || ends_with [0x314E] t.

Definition sentences (t : text) : list text :=
  List.filter (fun s => nonempty (trim s)) (split t).

Definition count (p : text -> bool) (ss : list text) : nat :=
  length (List.filter (fun s => p (trim s)) ss).

(** The final cascade of [detectSpeechLevel] on the three counters. *)
Definition decide_level (formalCnt informalCnt casualCnt : nat)
    : SpeechLevel :=
  if (informalCnt <? formalCnt)%nat && (casualCnt <? formalCnt)%nat
  then Jondaetmal
  else if (informalCnt <? casualCnt)%nat then Haeche
  else if (0 <? informalCnt)%nat then Banmal
  else Honhap.

Definition detectSpeechLevel (t : text) : SpeechLevel :=
  let ss := sentences t in
  decide_level (count formal ss) (count informal ss) (count casual ss).

End Speech.

(* ------------------------------------------------------------------ *)
(** ** A sample store, for the examples *)

Module Sample.

(** A clock that advances by one millisecond at every reading. *)
Definition clock (k : nat) : string :=
  "2024-01-24T09:00:00." +:+ string_of_Z (Z.of_nat (100 + k)) +:+ "Z".
(** The module loaded as CommonJS, and as an ES module. *)
Definition sample_env : Env :=
  mkEnv clock (fun k => 1706123456 + Z.of_nat k) (fun _ => "0.a3f9k2") true.
Definition esm_env : Env :=
  mkEnv clock (fun k => 1706123456 + Z.of_nat k) (fun _ => "0.a3f9k2") false.

Definition seoyeon : Character.t :=
  Character.mk "char_1706000000_k3x" "Seoyeon" ["Yeoni"] "resignation"
    "plain" Banmal ["still"] "restrained" [] EmptyString
    "2024-01-23T00:00:00.000Z" "2024-01-23T00:00:00.000Z" None None None.
Definition minjun : Character.t :=
  Character.mk "char_1706000001_p0q" "Minjun" [] EmptyString EmptyString
    Jondaetmal [] EmptyString [] EmptyString
    "2024-01-23T00:00:01.000Z" "2024-01-23T00:00:01.000Z" None None None.

Definition first_meeting : RelationshipEvent.t :=
  RelationshipEvent.mk "2024-01-23T00:10:00.000Z" None "first meeting"
    "rain".
Definition seoyeon_minjun : Relationship.t :=
  Relationship.mk "rel_1706000002_abc" "Seoyeon" "Minjun" romantic "stable"
    None [first_meeting] None "2024-01-23T00:00:02.000Z".

Definition cut (n : Z) (text : string) : Cut.t :=
  Cut.mk n dialogue text (Some "Seoyeon") None.
Definition scene_a : Scene.t :=
  Scene.mk "scene_a" "First meeting" None 0 ["Seoyeon"; "Minjun"]
    ["flutter"] [cut 0 "one"; cut 1 "two"; cut 2 "three"] (Some EmptyString)
    (Some EmptyString) "2024-01-23T00:00:03.000Z".
Definition scene_b : Scene.t :=
  Scene.mk "scene_b" "Parting" None 1 ["Seoyeon"] [] [] (Some EmptyString)
    (Some EmptyString) "2024-01-23T00:00:04.000Z".

Definition doc : WriterMemory.t :=
  WriterMemory.mk "1.0"
    (ProjectMeta.mk "Temperature of parting" "melodrama"
       "2024-01-23T00:00:00.000Z" "2024-01-23T00:00:04.000Z")
    [("Seoyeon", seoyeon); ("Minjun", minjun)]
    (WorldMemory.mk EmptyString EmptyString EmptyString [] [] [] EmptyString)
    [seoyeon_minjun] [scene_a; scene_b] []
    (Some (SynopsisState.mk EmptyString EmptyString EmptyString EmptyString
             EmptyString None)).

(** The same document before any synopsis was written. *)
Definition doc_without_synopsis : WriterMemory.t :=
  WriterMemory.mk (WriterMemory.version doc) (WriterMemory.project doc)
    (WriterMemory.characters doc) (WriterMemory.world doc)
    (WriterMemory.relationships doc) (WriterMemory.scenes doc)
    (WriterMemory.themes doc) None.

(** A fresh process in front of a store that holds [d]. *)
Definition world_of (d : WriterMemory.t) : World :=
  mkWorld (Some (Parsed (WriterMemory.toJSON d))) None ∅ [] 0 sample_env.
Definition world : World := world_of doc.

(** The same store, the module loaded as an ES module. *)
Definition esm_world : World :=
  mkWorld (Some (Parsed (WriterMemory.toJSON doc))) None ∅ [] 0 esm_env.

End Sample.

(* ------------------------------------------------------------------ *)
(** ** Scenarios *)

(** A process that holds the document [D] in memory saves it. *)
Definition save_document (D : WriterMemory.t) : M bool :=
  let! h := alloc D in
  saveMemory h.

(** One save after the other, of any documents. *)
Fixpoint save_all (Ds : list WriterMemory.t) : M unit :=
  match Ds with
  | [] => ret tt
  | D :: rest =>
      let! _ := save_document D in
      save_all rest
  end.

(* ------------------------------------------------------------------ *)
(** ** Vocabulary of the statements *)

(** The document the store holds, if it holds one: what the file reads as
    at the type [WriterMemory]. *)
Definition on_disk (w : World) : option WriterMemory.t :=
  match memFile w with
  | Some (Parsed j) => WriterMemory.ofJSON j
  | _ => None
  end.

(** A store that holds the document [D]. *)
Definition stored (w : World) (D : WriterMemory.t) : Prop :=
  on_disk w = Some D.

(** The world right after [loadMemory] has parsed [D]. *)
Definition loaded (w : World) (D : WriterMemory.t) : World :=
  with_heap (heap w ++ [D]) w.

(** Everything but the backup directory. *)
Definition same_but_backups (w w' : World) : Prop :=
  memFile w' = memFile w /\ tmpFile w' = tmpFile w /\ heap w' = heap w
  /\ ticks w' = ticks w /\ env w' = env w.

(** The id [generateId prefix] returns when the environment has been read
    [k] times. *)
Definition generated_id (prefix : string) (e : Env) (k : nat) : string :=
  prefix +:+ "_" +:+ string_of_Z (epochSeconds e k) +:+ "_"
  +:+ substring 2 3 (randomBase36 e k).

(** The error the validator reports for a character stored under a key that
    is not its id. *)
Definition key_mismatch_error (key : string) (c : Character.t) : string :=
  "Character key " +:+ quoted key +:+ " does not match character.id "
  +:+ quoted (Character.id c).

(** The list [0; 1; ...; m-1]. *)
Definition index_range (m : nat) : list Z := map Z.of_nat (seq 0 m).

(** The backup files of a directory: the names [pruneBackups] looks at. *)
Definition names_of (dir : gmap string file) : gset string :=
  filter (fun f => is_backup_name f = true) (dom dir).

Definition backup_names (w : World) : gset string :=
  names_of (backupDir w).

(** The listing [pruneBackups] sorts, and the directory it leaves. *)
Definition sorted_backups (dir : gmap string file) : list string :=
  sort_strings (List.filter is_backup_name (map fst (map_to_list dir))).

Definition prune_dir (dir : gmap string file) : gmap string file :=
  let files := sorted_backups dir in
  foldl (fun d f => delete f d) dir
    (take (length files - MAX_BACKUPS) files).

(** What [pruneBackups] makes of a directory: the pruned one where it can
    reach [unlinkSync], the same one where it cannot. *)
Definition after_pruning (e : Env) (dir : gmap string file)
    : gmap string file :=
  if require_defined e then prune_dir dir else dir.

(** The name of the backup made when the environment has been read [k]
    times. *)
Definition backup_name_at (e : Env) (k : nat) : string :=
  backup_name (isoTime e k).

(** The names of the backups that [n] saves make, the first reading of the
    clock being the [t0]-th: every save reads the clock twice. *)
Definition created_names (e : Env) (t0 n : nat) : list string :=
  map (fun i => backup_name_at e (t0 + 2 * i)) (seq 0 n).

(** The strict order of [.sort()] on names. *)
Definition name_lt (a b : string) : Prop := String.le a b /\ a <> b.

(** [R] is what remains of [All] when only the [k] greatest names are kept:
    it has [min (size All) k] names, and every name of [All] that is not
    kept is below every name that is. *)
Definition keeps_greatest (k : nat) (R All : gset string) : Prop :=
  R ⊆ All
  /\ size R = Nat.min (size All) k
  /\ forall kept dropped,
       kept ∈ R -> dropped ∈ All -> dropped ∉ R ->
       name_lt dropped kept.

(** The same, also allowing that nothing was pruned yet. *)
Definition keeps_greatest_or_all (k : nat) (R All : gset string) : Prop :=
  R = All \/ keeps_greatest k R All.


(** Dense order: the orders are [0 .. n-1], each once, in any sequence. *)
Definition dense (orders : list Z) : Prop :=
  orders ≡ₚ index_range (length orders).

(** At most one relationship for every unordered pair of names. *)
Fixpoint unique_pairs (l : list Relationship.t) : bool :=
  match l with
  | [] => true
  | r :: rest =>
      negb (existsb (same_pair (Relationship.from r) (Relationship.to r)) rest)
      && unique_pairs rest
  end.

(* ------------------------------------------------------------------ *)
(** * The other operations of the modules

    More of the four modules, and the synopsis state of the synopsis
    builder, on the same interpreter state:
    - [memory-manager.ts]: [initMemory], [findCharacterByName],
      [findCharacterByAlias], [truncate];
    - the character module: [removeCharacter], [resolveCharacter],
      [addEmotionPoint], [getEmotionTimeline], [getLatestEmotion],
      [getEmotionArc];
    - the relationship module: [removeRelationship], [listRelationships],
      [getCharacterConnections], [getRelationshipWeb];
    - the scene module: [updateScene], [getScene], [listScenes],
      [updateCut], [getScenesByEmotion], [getAllEmotionTags],
      [getSceneFlow];
    - the synopsis builder: [saveSynopsisState], [loadSynopsisState],
      [updateSynopsisElement].

    Not modelled are the functions whose result depends on machinery the
    state does not carry: the size of a file in bytes ([getMemoryStats]),
    Unicode case mapping ([searchMemory]), the local time zone
    ([formatKoreanDate]), locale-sensitive collation
    ([getRelationshipTimeline] and its callers), and properties written on
    built-in function objects ([updateCharacter] on a name inherited from
    [Object.prototype]). *)

(* ------------------------------------------------------------------ *)
(** ** memory-manager.ts: initialisation and queries *)

(** [Object.values(obj)] *)
Definition Object_values {A} (obj : list (string * A)) : list A :=
  map snd obj.

(** [delete obj[k]] *)
Definition delete_own {A} (k : string) (obj : list (string * A))
    : list (string * A) :=
  List.filter (fun entry => negb (String.eqb k (fst entry))) obj.

(** [initMemory]: the literal is one object; [saveMemory] stamps it and the
    caller receives it as stamped. *)
Definition initMemory (projectName genre : string) : M WriterMemory.t :=
  let! timestamp := now in
  let memory :=
    WriterMemory.mk "1.0"
      (ProjectMeta.mk projectName genre timestamp timestamp)
      []
      (WorldMemory.mk EmptyString EmptyString EmptyString [] [] []
         EmptyString)
      [] [] []
      (Some (SynopsisState.mk EmptyString EmptyString EmptyString
               EmptyString EmptyString None)) in
  let! h := alloc memory in
  let! _ := saveMemory h in
  deref h.

Definition findCharacterByName (memory : WriterMemory.t) (name : string)
    : option Character.t :=
  List.find (fun char => String.eqb (Character.name char) name)
    (Object_values (WriterMemory.characters memory)).

Definition findCharacterByAlias (memory : WriterMemory.t) (alias : string)
    : option Character.t :=
  List.find (fun char => includes alias (Character.aliases char))
    (Object_values (WriterMemory.characters memory)).

(** *** [truncate]

    A JavaScript string is a sequence of UTF-16 code units; [length] and
    [slice] count in these. *)

(** [text.slice(0, e)] *)
Definition slice_to (e : Z) (text : list N) : list N :=
  let len := Z.of_nat (length text) in
  let k := if e <? 0 then Z.max (len + e) 0 else Z.min e len in
  take (Z.to_nat k) text.

(** The horizontal ellipsis, U+2026. *)
Definition ellipsis : N := 8230%N.

Definition truncate (text : option (list N)) (maxLen : Z) : list N :=
  match text with
  | None => []
  | Some t =>
      if (length t =? 0)%nat then []
      else if Z.of_nat (length t) <=? maxLen then t
      else slice_to (maxLen - 1) t ++ [ellipsis]
  end.

(* ------------------------------------------------------------------ *)
(** ** The character module, continued *)

Definition set_timeline (v : list EmotionPoint.t) (c : Character.t)
    : Character.t :=
  Character.mk (Character.id c) (Character.name c) (Character.aliases c)
    (Character.arc c) (Character.tone c) (Character.speechLevel c)
    (Character.keywords c) (Character.attitude c) v (Character.notes c)
    (Character.created c) (Character.updated c) (Character.taboo c)
    (Character.emotional_baseline c) (Character.triggers c).

(** The [name] of the value a name inherited from [Object.prototype] reads
    as, used as a property key: the functions are named after their
    property, but for [constructor], which is [Object]; [__proto__] reads as
    the prototype object, which has no [name], and [undefined] is the key
    ["undefined"]. *)
Definition inherited_name (k : string) : string :=
  if String.eqb k "constructor" then "Object"
  else if String.eqb k "__proto__" then "undefined"
  else k.

Definition removeCharacter (name : string) : M bool :=
  let! memory := loadMemory in
  match memory with
  | None => ret false
  | Some h =>
      let! d := deref h in
      match findCharacter d name with
      | NotFound => ret false
      | FoundInherited =>
          exec! modify h
                  (fun d =>
                     WriterMemory.set_characters
                       (delete_own (inherited_name name)
                          (WriterMemory.characters d)) d) in
          let! _ := saveMemory h in
          ret true
      | FoundCharacter key =>
          let! character := read_character h key in
          exec! modify h
                  (fun d =>
                     WriterMemory.set_characters
                       (delete_own (Character.name character)
                          (WriterMemory.characters d)) d) in
          let! _ := saveMemory h in
          ret true
      end
  end.

(** What [resolveCharacter] returns: a character, a value inherited from
    [Object.prototype], or [null]. *)
Inductive resolved :=
| ResolvedCharacter (c : Character.t)
| ResolvedInherited
| ResolvedNull.

Definition resolveCharacter (nameOrAlias : string) : M resolved :=
  let! memory := loadMemory in
  match memory with
  | None => ret ResolvedNull
  | Some h =>
      let! d := deref h in
      match findCharacter d nameOrAlias with
      | NotFound => ret ResolvedNull
      | FoundInherited => ret ResolvedInherited
      | FoundCharacter key =>
          let! c := read_character h key in
          ret (ResolvedCharacter c)
      end
  end.

Record EmotionOptions := mkEmotionOptions {
  opt_sceneId : option string;
  opt_intensity : option Z
}.

(** [x || d] on an optional number: [undefined] and [0] give [d]. *)
Definition or_number (x : option Z) (d : Z) : Z :=
  match x with
  | Some n => if n =? 0 then d else n
  | None => d
  end.

Definition addEmotionPoint (characterName emotion trigger : string)
    (options : option EmotionOptions) : M bool :=
  let! memory := loadMemory in
  match memory with
  | None => ret false
  | Some h =>
      let! d := deref h in
      match findCharacter d characterName with
      | NotFound => ret false
      | FoundInherited =>
          (* the point is built, then [character.timeline] is [undefined] *)
          exec! now in
          throw
      | FoundCharacter key =>
          let! timestamp := now in
          let point :=
            EmotionPoint.mk timestamp (options ≫= opt_sceneId) emotion
              trigger (or_number (options ≫= opt_intensity) 3) in
          exec! update_character h key
                  (fun c => set_timeline (Character.timeline c ++ [point]) c) in
          let! t := now in
          exec! update_character h key (Character.set_updated t) in
          let! _ := saveMemory h in
          ret true
      end
  end.

(** [character?.timeline || []] *)
Definition getEmotionTimeline (characterName : string)
    : M (list EmotionPoint.t) :=
  let! character := resolveCharacter characterName in
  match character with
  | ResolvedCharacter c => ret (Character.timeline c)
  | ResolvedInherited | ResolvedNull => ret []
  end.

Definition getLatestEmotion (characterName : string)
    : M (option EmotionPoint.t) :=
  let! timeline := getEmotionTimeline characterName in
  ret (if (0 <? length timeline)%nat then
         timeline !! (length timeline - 1)%nat
       else None).

(** [arr.join(sep)] on strings *)
Fixpoint Array_join (sep : string) (arr : list string) : string :=
  match arr with
  | [] => EmptyString
  | x :: rest =>
      match rest with
      | [] => x
      | _ :: _ => x +:+ sep +:+ Array_join sep rest
      end
  end.

Definition getEmotionArc (characterName : string) : M string :=
  let! timeline := getEmotionTimeline characterName in
  if (length timeline =? 0)%nat then ret EmptyString
  else ret (Array_join " → " (map EmotionPoint.emotion timeline)).

(* ------------------------------------------------------------------ *)
(** ** The relationship module, continued *)

Definition removeRelationship (char1Name char2Name : string) : M bool :=
  let! memory := loadMemory in
  match memory with
  | None => ret false
  | Some h =>
      let! d := deref h in
      match
        findIndex (same_pair char1Name char2Name)
          (WriterMemory.relationships d)
      with
      | None => ret false
      | Some index =>
          exec! modify h
                  (fun d =>
                     WriterMemory.set_relationships
                       (delete index (WriterMemory.relationships d)) d) in
          let! _ := saveMemory h in
          ret true
      end
  end.

(** [listRelationships(characterName?)]: no name, or the empty one, lists
    everything. *)
Definition listRelationships (characterName : option string)
    : M (list Relationship.t) :=
  let! memory := loadMemory in
  match memory with
  | None => ret []
  | Some h =>
      let! d := deref h in
      match characterName with
      | Some name =>
          if truthy name then
            ret (List.filter
                   (fun r =>
                      String.eqb (Relationship.from r) name
                      || String.eqb (Relationship.to r) name)
                   (WriterMemory.relationships d))
          else ret (WriterMemory.relationships d)
      | None => ret (WriterMemory.relationships d)
      end
  end.

Inductive Direction := outgoing | incoming | mutual.

Module Connection.
Record t := mk {
  relationship : Relationship.t;
  direction : Direction;
  otherCharacter : string
}.
End Connection.

Definition getCharacterConnections (characterName : string)
    : M (list Connection.t) :=
  let! relationships := listRelationships (Some characterName) in
  ret (map
         (fun r =>
            let isFrom := String.eqb (Relationship.from r) characterName in
            Connection.mk r mutual
              (if isFrom then Relationship.to r else Relationship.from r))
         relationships).

Module Edge.
Record t := mk {
  from : string;
  to : string;
  type : RelationshipType
}.
End Edge.

Module RelationshipWeb.
Record t := mk {
  nodes : list string;
  edges : list Edge.t
}.
End RelationshipWeb.

(** [set.add(x)] on a [Set], which keeps the order of insertion. *)
Definition Set_add (x : string) (s : list string) : list string :=
  if includes x s then s else s ++ [x].

(** The body of the [forEach] of [getRelationshipWeb]. *)
Definition web_step (acc : list string * list Edge.t) (r : Relationship.t)
    : list string * list Edge.t :=
  (Set_add (Relationship.to r) (Set_add (Relationship.from r) (fst acc)),
   snd acc
   ++ [Edge.mk (Relationship.from r) (Relationship.to r)
         (Relationship.type r)]).

Definition getRelationshipWeb : M RelationshipWeb.t :=
  let! memory := loadMemory in
  match memory with
  | None => ret (RelationshipWeb.mk [] [])
  | Some h =>
      let! d := deref h in
      let acc := fold_left web_step (WriterMemory.relationships d) ([], []) in
      ret (RelationshipWeb.mk (fst acc) (snd acc))
  end.

(* ------------------------------------------------------------------ *)
(** ** The scene module, continued *)

(** [arr.sort((a, b) => key(a) - key(b))]: the sort is stable, so the result
    is the one of an insertion sort that puts an element in front of its
    equals to the right. *)
Fixpoint insert_by {A} (key : A -> Z) (x : A) (l : list A) : list A :=
  match l with
  | [] => [x]
  | y :: rest =>
      if key x <=? key y then x :: l else y :: insert_by key x rest
  end.
Definition sort_by {A} (key : A -> Z) (l : list A) : list A :=
  foldr (insert_by key) [] l.

(** [Partial<Scene>]: a property that is present overwrites; for the
    optional properties the value written may be [undefined].  (A required
    property given as [undefined] has no typed reading and is not
    covered.) *)
Module SceneUpdates.
Record t := mk {
  id : option string;
  title : option string;
  chapter : option (option string);
  order : option Z;
  characters : option (list string);
  emotionTags : option (list string);
  cuts : option (list Cut.t);
  narrationTone : option (option string);
  notes : option (option string);
  created : option string
}.
End SceneUpdates.

(** [Object.assign(scene, { ...updates, id: scene.id, created: scene.created })] *)
Definition assign_scene (updates : SceneUpdates.t) (scene : Scene.t)
    : Scene.t :=
  Scene.mk (Scene.id scene)
    (default (Scene.title scene) (SceneUpdates.title updates))
    (default (Scene.chapter scene) (SceneUpdates.chapter updates))
    (default (Scene.order scene) (SceneUpdates.order updates))
    (default (Scene.characters scene) (SceneUpdates.characters updates))
    (default (Scene.emotionTags scene) (SceneUpdates.emotionTags updates))
    (default (Scene.cuts scene) (SceneUpdates.cuts updates))
    (default (Scene.narrationTone scene) (SceneUpdates.narrationTone updates))
    (default (Scene.notes scene) (SceneUpdates.notes updates))
    (Scene.created scene).

Definition updateScene (sceneId : string) (updates : SceneUpdates.t)
    : M (option Scene.t) :=
  try_catch
    (let! memory := loadMemory in
     let! '(h, d) := deref_nullable memory in
     match findSceneById d sceneId with
     | None => ret None
     | Some i =>
         exec! update_scene h i (assign_scene updates) in
         let! _ := saveMemory h in
         let! scene := read_scene h i in
         ret (Some scene)
     end)
    (ret None).


Record ListOptions := mkListOptions {
  list_chapter : option string;
  list_character : option string;
  list_emotionTag : option string
}.

Module SceneSummary.
Record t := mk {
  id : string;
  title : string;
  chapter : option string;
  order : Z;
  characterCount : Z;
  cutCount : Z;
  emotionTags : list string
}.
End SceneSummary.

(** [if (options?.p) scenes = scenes.filter(pred)]: an absent or empty
    option filters nothing. *)
Definition filter_if {A} (option_value : option string)
    (pred : string -> A -> bool) (l : list A) : list A :=
  match option_value with
  | Some v => if truthy v then List.filter (pred v) l else l
  | None => l
  end.

Definition chapter_is (chapter : string) (s : Scene.t) : bool :=
  match Scene.chapter s with
  | Some c => String.eqb c chapter
  | None => false
  end.
Definition has_character (character : string) (s : Scene.t) : bool :=
  includes character (Scene.characters s).
Definition has_emotionTag (emotionTag : string) (s : Scene.t) : bool :=
  includes emotionTag (Scene.emotionTags s).

Definition summary_of (scene : Scene.t) : SceneSummary.t :=
  SceneSummary.mk (Scene.id scene) (Scene.title scene) (Scene.chapter scene)
    (Scene.order scene)
    (Z.of_nat (length (Scene.characters scene)))
    (Z.of_nat (length (Scene.cuts scene)))
    (Scene.emotionTags scene).

(** The filters of [listScenes], one after the other. *)
Definition list_filters (options : option ListOptions)
    (scenes : list Scene.t) : list Scene.t :=
  let scenes := filter_if (options ≫= list_chapter) chapter_is scenes in
  let scenes := filter_if (options ≫= list_character) has_character scenes in
  filter_if (options ≫= list_emotionTag) has_emotionTag scenes.

Definition listScenes (options : option ListOptions)
    : M (list SceneSummary.t) :=
  try_catch
    (let! memory := loadMemory in
     let! '(h, d) := deref_nullable memory in
     let scenes := list_filters options (WriterMemory.scenes d) in
     let scenes := sort_by Scene.order scenes in
     ret (map summary_of scenes))
    (ret []).

(** [Partial<Cut>], read like [Partial<Scene>]. *)
Module CutUpdates.
Record t := mk {
  order : option Z;
  type : option CutType;
  content : option string;
  character : option (option string);
  emotionTag : option (option string)
}.
End CutUpdates.

(** [Object.assign(cut, { ...updates, order: cut.order })] *)
Definition assign_cut (updates : CutUpdates.t) (cut : Cut.t) : Cut.t :=
  Cut.mk (Cut.order cut)
    (default (Cut.type cut) (CutUpdates.type updates))
    (default (Cut.content cut) (CutUpdates.content updates))
    (default (Cut.character cut) (CutUpdates.character updates))
    (default (Cut.emotionTag cut) (CutUpdates.emotionTag updates)).

Definition updateCut (sceneId : string) (cutOrder : Z)
    (updates : CutUpdates.t) : M bool :=
  try_catch
    (let! memory := loadMemory in
     let! '(h, d) := deref_nullable memory in
     match findSceneById d sceneId with
     | None => ret false
     | Some i =>
         let! scene := read_scene h i in
         match
           findIndex (fun c => Z.eqb (Cut.order c) cutOrder) (Scene.cuts scene)
         with
         | None => ret false
         | Some k =>
             exec! update_scene h i
                     (fun s =>
                        Scene.set_cuts
                          (alter (assign_cut updates) k (Scene.cuts s)) s) in
             let! _ := saveMemory h in
             ret true
         end
     end)
    (ret false).

Definition getScenesByEmotion (emotionTag : string) : M (list Scene.t) :=
  try_catch
    (let! memory := loadMemory in
     let! '(h, d) := deref_nullable memory in
     ret (sort_by Scene.order
            (List.filter (has_emotionTag emotionTag)
               (WriterMemory.scenes d))))
    (ret []).

Module TagCount.
Record t := mk {
  tag : string;
  count : Z
}.
End TagCount.

(** [tagCounts.set(tag, (tagCounts.get(tag) || 0) + 1)] *)
Definition count_tag (tagCounts : list (string * Z)) (tag : string)
    : list (string * Z) :=
  set_own tag (or_number (lookup_own tag tagCounts) 0 + 1) tagCounts.

(** The two nested [forEach] of [getAllEmotionTags]. *)
Definition count_tags (scenes : list Scene.t) : list (string * Z) :=
  fold_left
    (fun tagCounts scene =>
       fold_left count_tag (Scene.emotionTags scene) tagCounts)
    scenes [].

Definition getAllEmotionTags : M (list TagCount.t) :=
  try_catch
    (let! memory := loadMemory in
     let! '(h, d) := deref_nullable memory in
     let tagCounts := count_tags (WriterMemory.scenes d) in
     ret (sort_by (fun a => - TagCount.count a)
            (map (fun entry => TagCount.mk (fst entry) (snd entry))
               tagCounts)))
    (ret []).

Module SceneFlowEntry.
Record t := mk {
  order : Z;
  title : string;
  chapter : option string;
  primaryEmotion : string;
  characters : list string;
  cutCount : Z
}.
End SceneFlowEntry.

Definition flow_entry_of (scene : Scene.t) : SceneFlowEntry.t :=
  SceneFlowEntry.mk (Scene.order scene + 1) (Scene.title scene)
    (Scene.chapter scene)
    (or_string (head (Scene.emotionTags scene)) "감정 미설정")
    (Scene.characters scene)
    (Z.of_nat (length (Scene.cuts scene))).

(** [getSceneFlow]: the array of the loaded document is sorted in place,
    and the document is not saved. *)
Definition getSceneFlow : M (list SceneFlowEntry.t) :=
  try_catch
    (let! memory := loadMemory in
     let! '(h, d) := deref_nullable memory in
     exec! update_scenes h (sort_by Scene.order) in
     let! d := deref h in
     ret (map flow_entry_of (WriterMemory.scenes d)))
    (ret []).

(* ------------------------------------------------------------------ *)
(** ** The synopsis builder: the synopsis state *)

(** [memory.synopsis = v] *)
Definition set_synopsis (v : SynopsisState.t) (m : WriterMemory.t)
    : WriterMemory.t :=
  WriterMemory.mk (WriterMemory.version m) (WriterMemory.project m)
    (WriterMemory.characters m) (WriterMemory.world m)
    (WriterMemory.relationships m) (WriterMemory.scenes m)
    (WriterMemory.themes m) (Some v).

Definition set_lastGenerated (v : option string) (s : SynopsisState.t)
    : SynopsisState.t :=
  SynopsisState.mk (SynopsisState.protagonistAttitude s)
    (SynopsisState.coreRelationships s) (SynopsisState.emotionalTheme s)
    (SynopsisState.genreVsRealEmotion s) (SynopsisState.endingAftertaste s)
    v.

(** [memory.synopsis = { ...state, lastGenerated: now() }] *)
Definition saveSynopsisState (state : SynopsisState.t) : M bool :=
  let! memory := loadMemory in
  match memory with
  | None => ret false
  | Some h =>
      let! t := now in
      exec! modify h (set_synopsis (set_lastGenerated (Some t) state)) in
      saveMemory h
  end.

(** [memory?.synopsis || null]: an object is truthy, so the result is the
    synopsis when the document has one and [null] when it has none. *)
Definition loadSynopsisState : M (option SynopsisState.t) :=
  let! memory := loadMemory in
  match memory with
  | None => ret None
  | Some h =>
      let! d := deref h in
      ret (WriterMemory.synopsis d)
  end.

(** [keyof SynopsisState] *)
Inductive SynopsisKey :=
| protagonistAttitude | coreRelationships | emotionalTheme
| genreVsRealEmotion | endingAftertaste | lastGenerated.

(** [(memory.synopsis as any)[element] = value] *)
Definition set_element (element : SynopsisKey) (value : string)
    (s : SynopsisState.t) : SynopsisState.t :=
  match element with
  | protagonistAttitude =>
      SynopsisState.mk value (SynopsisState.coreRelationships s)
        (SynopsisState.emotionalTheme s) (SynopsisState.genreVsRealEmotion s)
        (SynopsisState.endingAftertaste s) (SynopsisState.lastGenerated s)
  | coreRelationships =>
      SynopsisState.mk (SynopsisState.protagonistAttitude s) value
        (SynopsisState.emotionalTheme s) (SynopsisState.genreVsRealEmotion s)
        (SynopsisState.endingAftertaste s) (SynopsisState.lastGenerated s)
  | emotionalTheme =>
      SynopsisState.mk (SynopsisState.protagonistAttitude s)
        (SynopsisState.coreRelationships s) value
        (SynopsisState.genreVsRealEmotion s)
        (SynopsisState.endingAftertaste s) (SynopsisState.lastGenerated s)
  | genreVsRealEmotion =>
      SynopsisState.mk (SynopsisState.protagonistAttitude s)
        (SynopsisState.coreRelationships s) (SynopsisState.emotionalTheme s)
        value (SynopsisState.endingAftertaste s)
        (SynopsisState.lastGenerated s)
  | endingAftertaste =>
      SynopsisState.mk (SynopsisState.protagonistAttitude s)
        (SynopsisState.coreRelationships s) (SynopsisState.emotionalTheme s)
        (SynopsisState.genreVsRealEmotion s) value
        (SynopsisState.lastGenerated s)
  | lastGenerated => set_lastGenerated (Some value) s
  end.

(** The object literal of [memory.synopsis || { ... }]. *)
Definition default_synopsis : SynopsisState.t :=
  SynopsisState.mk EmptyString EmptyString EmptyString EmptyString
    EmptyString None.

(** [memory.synopsis || d]: an object is truthy. *)
Definition or_synopsis (x : option SynopsisState.t) (d : SynopsisState.t)
    : SynopsisState.t :=
  match x with Some s => s | None => d end.

(** A write to a property of [memory.synopsis]; it throws a [TypeError]
    when there is no synopsis. *)
Definition update_synopsis (h : handle)
    (f : SynopsisState.t -> SynopsisState.t) : M unit :=
  let! d := deref h in
  match WriterMemory.synopsis d with
  | Some s => modify h (set_synopsis (f s))
  | None => throw
  end.

Definition updateSynopsisElement (element : SynopsisKey) (value : string)
    : M bool :=
  let! memory := loadMemory in
  match memory with
  | None => ret false
  | Some h =>
      let! d := deref h in
      exec! modify h
              (set_synopsis
                 (or_synopsis (WriterMemory.synopsis d) default_synopsis)) in
      exec! update_synopsis h (set_element element value) in
      let! t := now in
      exec! update_synopsis h (set_lastGenerated (Some t)) in
      saveMemory h
  end.

(* ------------------------------------------------------------------ *)
(** ** Vocabulary of the further statements *)

(** The conditions under which [validateMemory] reports no error. *)
Definition well_formed (m : WriterMemory.t) : Prop :=
  WriterMemory.version m = "1.0"
  /\ ProjectMeta.name (WriterMemory.project m) <> EmptyString
  /\ ProjectMeta.created (WriterMemory.project m) <> EmptyString
  /\ (forall key c,
        In (key, c) (WriterMemory.characters m) ->
        Character.id c = key /\ Character.name c <> EmptyString)
  /\ (forall r,
        In r (WriterMemory.relationships m) ->
        In (Relationship.from r) (map fst (WriterMemory.characters m))
        /\ In (Relationship.to r) (map fst (WriterMemory.characters m)))
  /\ List.NoDup (map Scene.id (WriterMemory.scenes m)).

(** Every character is stored under its name, as [addCharacter] stores
    it. *)
Definition keyed_by_name (m : WriterMemory.t) : Prop :=
  forall key c, In (key, c) (WriterMemory.characters m) ->
                Character.name c = key.

(** The error the validator reports for a relationship one end of which is
    no key of the character table. *)
Definition missing_character_error (r : Relationship.t) (name : string)
    : string :=
  "Relationship " +:+ quoted (Relationship.id r)
  +:+ " references non-existent character " +:+ quoted name.

(** An option of [listScenes] lets a scene pass: an absent or empty option
    lets every scene pass. *)
Definition passes (value : option string) (pred : string -> Scene.t -> bool)
    (s : Scene.t) : Prop :=
  forall v, value = Some v -> v <> EmptyString -> pred v s = true.

(** How often a string occurs in a list. *)
Definition occurrences (x : string) (l : list string) : nat :=
  length (List.filter (String.eqb x) l).

(** [synopsis[element]] *)
Definition element_of (element : SynopsisKey) (s : SynopsisState.t)
    : option string :=
  match element with
  | protagonistAttitude => Some (SynopsisState.protagonistAttitude s)
  | coreRelationships => Some (SynopsisState.coreRelationships s)
  | emotionalTheme => Some (SynopsisState.emotionalTheme s)
  | genreVsRealEmotion => Some (SynopsisState.genreVsRealEmotion s)
  | endingAftertaste => Some (SynopsisState.endingAftertaste s)
  | lastGenerated => SynopsisState.lastGenerated s
  end.

(** Nothing was written: the files and the documents in memory are the
    same. *)
Definition untouched (w w' : World) : Prop :=
  memFile w' = memFile w /\ tmpFile w' = tmpFile w
  /\ backupDir w' = backupDir w /\ heap w' = heap w.

(* ================================================================== *)
(** * Properties *)

(** ** Serialisation round trips *)

Lemma all_map {A} (enc : A -> json) (dec : json -> option A) (l : list A) :
  (forall a, dec (enc a) = Some a) ->
  Json.all dec (map enc l) = Some l.
Proof.
  intros Hrt. induction l as [|a l IH]; cbn; [reflexivity|].
  now rewrite Hrt, IH.
Qed.

Lemma arr_of_map {A} (enc : A -> json) (dec : json -> option A) (l : list A) :
  (forall a, dec (enc a) = Some a) ->
  arr_of dec (JArr (map enc l)) = Some l.
Proof. intros Hrt. unfold arr_of. cbn. now apply all_map. Qed.

Lemma as_strs_strs (l : list string) : as_strs (strs l) = Some l.
Proof. now apply arr_of_map. Qed.

Lemma as_dict_dict {A} (enc : A -> json) (dec : json -> option A)
    (m : list (string * A)) :
  (forall a, dec (enc a) = Some a) ->
  as_dict dec (dict enc m) = Some m.
Proof.
  intros Hrt. unfold as_dict, dict. cbn.
  induction m as [|[k a] m IH]; cbn; [reflexivity|].
  now rewrite Hrt, IH.
Qed.

Lemma SpeechLevel_roundtrip l :
  SpeechLevelJson.ofJSON (SpeechLevelJson.toJSON l) = Some l.
Proof. now destruct l. Qed.

Lemma RelationshipType_roundtrip t :
  RelationshipTypeJson.ofJSON (RelationshipTypeJson.toJSON t) = Some t.
Proof. now destruct t. Qed.

Lemma CutType_roundtrip t : CutTypeJson.ofJSON (CutTypeJson.toJSON t) = Some t.
Proof. now destruct t. Qed.

Lemma EmotionPoint_roundtrip e :
  EmotionPoint.ofJSON (EmotionPoint.toJSON e) = Some e.
Proof. destruct e as [? [?|] ? ? ?]; reflexivity. Qed.

Ltac roundtrip_step :=
  cbn -[as_strs strs arr_of as_dict dict
        SpeechLevelJson.ofJSON SpeechLevelJson.toJSON
        RelationshipTypeJson.ofJSON RelationshipTypeJson.toJSON
        CutTypeJson.ofJSON CutTypeJson.toJSON
        EmotionPoint.ofJSON EmotionPoint.toJSON
        Character.ofJSON Character.toJSON
        WorldRule.ofJSON WorldRule.toJSON
        Location.ofJSON Location.toJSON
        WorldMemory.ofJSON WorldMemory.toJSON
        RelationshipEvent.ofJSON RelationshipEvent.toJSON
        Relationship.ofJSON Relationship.toJSON
        Cut.ofJSON Cut.toJSON Scene.ofJSON Scene.toJSON
        Theme.ofJSON Theme.toJSON
        SynopsisState.ofJSON SynopsisState.toJSON
        ProjectMeta.ofJSON ProjectMeta.toJSON].

Lemma Character_roundtrip c : Character.ofJSON (Character.toJSON c) = Some c.
Proof.
  destruct c as [a b c d e f g h i k l m [n|] [p|] [q|]];
    unfold Character.ofJSON, Character.toJSON; roundtrip_step;
    rewrite ?as_strs_strs, ?SpeechLevel_roundtrip,
      ?(arr_of_map _ _ _ EmotionPoint_roundtrip);
    reflexivity.
Qed.

Lemma WorldRule_roundtrip r : WorldRule.ofJSON (WorldRule.toJSON r) = Some r.
Proof. now destruct r. Qed.

Lemma Location_roundtrip l : Location.ofJSON (Location.toJSON l) = Some l.
Proof.
  destruct l; unfold Location.ofJSON, Location.toJSON; roundtrip_step.
  now rewrite as_strs_strs.
Qed.

Lemma WorldMemory_roundtrip w :
  WorldMemory.ofJSON (WorldMemory.toJSON w) = Some w.
Proof.
  destruct w; unfold WorldMemory.ofJSON, WorldMemory.toJSON; roundtrip_step.
  now rewrite (arr_of_map _ _ _ WorldRule_roundtrip),
    (arr_of_map _ _ _ Location_roundtrip), as_strs_strs.
Qed.

Lemma RelationshipEvent_roundtrip e :
  RelationshipEvent.ofJSON (RelationshipEvent.toJSON e) = Some e.
Proof. destruct e as [? [?|] ? ?]; reflexivity. Qed.

Lemma Relationship_roundtrip r :
  Relationship.ofJSON (Relationship.toJSON r) = Some r.
Proof.
  destruct r as [a b c d e [f|] g [h|] i];
    unfold Relationship.ofJSON, Relationship.toJSON; roundtrip_step;
    rewrite ?RelationshipType_roundtrip, ?SpeechLevel_roundtrip,
      ?(arr_of_map _ _ _ RelationshipEvent_roundtrip);
    reflexivity.
Qed.

Lemma Cut_roundtrip c : Cut.ofJSON (Cut.toJSON c) = Some c.
Proof.
  destruct c as [a b c [d|] [e|]];
    unfold Cut.ofJSON, Cut.toJSON; roundtrip_step;
    rewrite ?CutType_roundtrip; reflexivity.
Qed.

Lemma Scene_roundtrip s : Scene.ofJSON (Scene.toJSON s) = Some s.
Proof.
  destruct s as [a b [c|] d e f g [h|] [i|] k];
    unfold Scene.ofJSON, Scene.toJSON; roundtrip_step;
    rewrite ?as_strs_strs, ?(arr_of_map _ _ _ Cut_roundtrip);
    reflexivity.
Qed.

Lemma Theme_roundtrip t : Theme.ofJSON (Theme.toJSON t) = Some t.
Proof.
  destruct t; unfold Theme.ofJSON, Theme.toJSON; roundtrip_step.
  now rewrite !as_strs_strs.
Qed.

Lemma SynopsisState_roundtrip s :
  SynopsisState.ofJSON (SynopsisState.toJSON s) = Some s.
Proof. destruct s as [? ? ? ? ? [?|]]; reflexivity. Qed.

Lemma ProjectMeta_roundtrip p :
  ProjectMeta.ofJSON (ProjectMeta.toJSON p) = Some p.
Proof. now destruct p. Qed.

Lemma WriterMemory_roundtrip m :
  WriterMemory.ofJSON (WriterMemory.toJSON m) = Some m.
Proof.
  destruct m; unfold WriterMemory.ofJSON, WriterMemory.toJSON; roundtrip_step.
  rewrite ProjectMeta_roundtrip; roundtrip_step.
  rewrite (as_dict_dict _ _ _ Character_roundtrip); roundtrip_step.
  rewrite WorldMemory_roundtrip; roundtrip_step.
  rewrite (arr_of_map _ _ _ Relationship_roundtrip); roundtrip_step.
  rewrite (arr_of_map _ _ _ Scene_roundtrip); roundtrip_step.
  rewrite (arr_of_map _ _ _ Theme_roundtrip); roundtrip_step.
  destruct synopsis as [s|]; roundtrip_step; [|reflexivity].
  now rewrite SynopsisState_roundtrip.
Qed.

(** ** The persistence layer *)

Lemma same_but_backups_refl w : same_but_backups w w.
Proof. now repeat split. Qed.

Lemma same_but_backups_trans w1 w2 w3 :
  same_but_backups w1 w2 -> same_but_backups w2 w3 -> same_but_backups w1 w3.
Proof. unfold same_but_backups. intuition congruence. Qed.

Lemma prune_loop_frame files w :
  fst (prune_loop files w) <> Untyped
  /\ same_but_backups w (snd (prune_loop files w)).
Proof.
  revert w. induction files as [|f rest IH]; intros w; cbn -[Nat.ltb].
  - split; [discriminate|apply same_but_backups_refl].
  - destruct (MAX_BACKUPS <? S (length rest))%nat;
      [|split; [discriminate|apply same_but_backups_refl]].
    unfold bind, require_fs, unlinkSync_backup.
    destruct (require_defined (env w));
      [|split; [discriminate|apply same_but_backups_refl]].
    destruct (backupDir w !! f); cbn;
      [|split; [discriminate|apply same_but_backups_refl]].
    split; [apply IH|].
    eapply same_but_backups_trans; [|apply IH]. now repeat split.
Qed.

Lemma pruneBackups_returns w :
  exists w', pruneBackups w = (Ret tt, w') /\ same_but_backups w w'.
Proof.
  unfold pruneBackups, try_catch, bind, readdirSync_backDir.
  set (files := sort_strings _).
  destruct (prune_loop_frame files w) as [Hu Hf].
  destruct (prune_loop files w) as [[[]| |] w']; cbn in Hu, Hf; eauto.
  contradiction.
Qed.

Lemma createBackup_returns j w :
  exists p w',
    createBackup j w = (Ret p, w')
    /\ memFile w' = memFile w /\ tmpFile w' = tmpFile w
    /\ heap w' = heap w /\ env w' = env w /\ ticks w' = S (ticks w).
Proof.
  unfold createBackup, try_catch, toISOString, tick, get_world,
    writeFileSync_backup, bind. cbn.
  set (w1 := with_backupDir _ _).
  destruct (pruneBackups_returns w1) as (w2 & -> & (H1 & H2 & H3 & H4 & H5)).
  cbn. do 2 eexists. split; [reflexivity|].
  subst w1; cbn in *. now repeat split.
Qed.

Lemma backup_existing_returns w :
  exists wb,
    backup_existing w = (Ret tt, wb)
    /\ memFile wb = memFile w /\ tmpFile wb = tmpFile w
    /\ heap wb = heap w /\ env wb = env w.
Proof.
  unfold backup_existing, existsSync_memPath, try_catch, readFileSync_memPath,
    bind.
  destruct (memFile w) as [[raw|j]|] eqn:Hm; cbn.
  - rewrite Hm. cbn. exists w. now repeat split.
  - rewrite Hm. cbn.
    destruct (createBackup_returns j w) as (p & w' & -> & ? & ? & ? & ? & ?).
    cbn. exists w'. repeat split; congruence.
  - exists w. now repeat split.
Qed.

(** What [saveMemory] leaves behind: the document of the handle, with
    [project.updated] set to the reading of the clock, in memory and on disk. *)
Lemma saveMemory_spec w h D :
  heap w !! h = Some D ->
  exists wb,
    backup_existing w = (Ret tt, wb)
    /\ let D' := set_project_updated (isoTime (env w) (ticks wb)) D in
       saveMemory h w
       = (Ret true,
          mkWorld (Some (Parsed (WriterMemory.toJSON D'))) None
            (backupDir wb) (<[h := D']> (heap w)) (S (ticks wb)) (env w)).
Proof.
  intros Hh.
  destruct (backup_existing_returns w) as (wb & Hb & Hm & Ht & Hheap & Henv).
  exists wb. split; [exact Hb|]. cbn zeta.
  unfold saveMemory, try_catch, bind at 1. rewrite Hb.
  unfold now, toISOString, bind, tick, get_world, modify, deref.
  destruct wb as [mf tf bd hp tk ev]. cbn in Hm, Ht, Hheap, Henv. subst.
  cbn. rewrite Hh. cbn.
  rewrite list_lookup_insert_eq by (apply lookup_lt_Some in Hh; exact Hh).
  reflexivity.
Qed.

Lemma stored_toJSON w D :
  memFile w = Some (Parsed (WriterMemory.toJSON D)) -> stored w D.
Proof.
  intros H. unfold stored, on_disk. rewrite H. apply WriterMemory_roundtrip.
Qed.

Lemma loadMemory_stored w D :
  stored w D ->
  loadMemory w
  = (Ret (Some (length (heap w))), with_heap (heap w ++ [D]) w).
Proof.
  unfold stored, on_disk. intros Hd.
  destruct (memFile w) as [[raw|j]|] eqn:Hm; try discriminate.
  unfold loadMemory, try_catch, bind, existsSync_memPath,
    readFileSync_memPath.
  rewrite Hm. cbn -[WriterMemory.ofJSON]. rewrite Hm.
  cbn -[WriterMemory.ofJSON]. now rewrite Hd.
Qed.

Lemma loadMemory_missing w :
  memFile w = None -> loadMemory w = (Ret None, w).
Proof.
  intros Hm. unfold loadMemory, try_catch, bind, existsSync_memPath.
  now rewrite Hm.
Qed.

(** ** Round trip of the store (C1) *)

(** The clock has been read once more after the backup block exactly when
    the file was there and parsed: the name of the backup took that
    reading. *)
Lemma backup_existing_ticks w wb :
  backup_existing w = (Ret tt, wb) ->
  ticks wb
  = match memFile w with
    | Some (Parsed _) => S (ticks w)
    | _ => ticks w
    end.
Proof.
  unfold backup_existing, existsSync_memPath, try_catch, readFileSync_memPath,
    bind.
  destruct (memFile w) as [[raw|j]|] eqn:Hm; cbn.
  - rewrite Hm. cbn. now intros [= <-].
  - rewrite Hm. cbn.
    destruct (createBackup_returns j w) as (p & w' & -> & ? & ? & ? & ? & ?).
    cbn. now intros [= <-].
  - now intros [= <-].
Qed.

(** C1. After [saveMemory] has written a document, [loadMemory] returns a
    document equal to the saved one in every field: it is the document [D]
    that was handed to [saveMemory] with [project.updated] replaced by the
    time of the save, and it is also what the saving process now holds in
    memory.  The time of the save is the reading of the clock that
    [saveMemory] takes for the stamp: the first one of the call, or the
    second one when the call has made a backup, whose name took the first.
    Of the project, the name, the genre and the creation stamp are as they
    were, and [updated] is that reading. *)
Theorem saveMemory_loadMemory_roundtrip (w : World) (h : handle)
    (D : WriterMemory.t) :
  heap w !! h = Some D ->
  exists (w1 : World) (t : string),
    saveMemory h w = (Ret true, w1)
    /\ heap w1 !! h = Some (set_project_updated t D)
    /\ loadMemory w1
       = (Ret (Some (length (heap w1))),
          with_heap (heap w1 ++ [set_project_updated t D]) w1)
    /\ WriterMemory.version (set_project_updated t D) = WriterMemory.version D
    /\ WriterMemory.characters (set_project_updated t D)
       = WriterMemory.characters D
    /\ WriterMemory.world (set_project_updated t D) = WriterMemory.world D
    /\ WriterMemory.relationships (set_project_updated t D)
       = WriterMemory.relationships D
    /\ WriterMemory.scenes (set_project_updated t D) = WriterMemory.scenes D
    /\ WriterMemory.themes (set_project_updated t D) = WriterMemory.themes D
    /\ WriterMemory.synopsis (set_project_updated t D)
       = WriterMemory.synopsis D
    /\ WriterMemory.project (set_project_updated t D)
       = ProjectMeta.set_updated t (WriterMemory.project D)
    /\ t = isoTime (env w)
             (match memFile w with
              | Some (Parsed _) => S (ticks w)
              | _ => ticks w
              end)
    /\ ProjectMeta.updated (WriterMemory.project (set_project_updated t D))
       = t
    /\ ProjectMeta.name (WriterMemory.project (set_project_updated t D))
       = ProjectMeta.name (WriterMemory.project D)
    /\ ProjectMeta.genre (WriterMemory.project (set_project_updated t D))
       = ProjectMeta.genre (WriterMemory.project D)
    /\ ProjectMeta.created (WriterMemory.project (set_project_updated t D))
       = ProjectMeta.created (WriterMemory.project D)
    /\ on_disk w1 = Some (set_project_updated t D).
Proof.
  intros Hh.
  destruct (saveMemory_spec w h D Hh) as (wb & Hb & Hs). cbn zeta in Hs.
  eexists _, _. split; [exact Hs|]. cbn [heap].
  split.
  { apply list_lookup_insert_eq. now apply lookup_lt_Some in Hh. }
  split.
  { apply loadMemory_stored. now apply stored_toJSON. }
  do 8 (split; [reflexivity|]).
  split.
  { now rewrite (backup_existing_ticks w wb Hb). }
  do 4 (split; [reflexivity|]).
  now apply stored_toJSON.
Qed.

(** A process that holds the sample document saves it over the sample
    store: the store parses, so the first reading of the clock names the
    backup and the second one is the stamp. *)
Lemma saveMemory_loadMemory_roundtrip_witness :
  heap (loaded Sample.world Sample.doc) !! 0%nat = Some Sample.doc
  /\ exists (w1 : World) (t : string),
       saveMemory 0%nat (loaded Sample.world Sample.doc) = (Ret true, w1)
       /\ heap w1 !! 0%nat = Some (set_project_updated t Sample.doc)
       /\ loadMemory w1
          = (Ret (Some (length (heap w1))),
             with_heap (heap w1 ++ [set_project_updated t Sample.doc]) w1)
       /\ t = Sample.clock 1
       /\ ProjectMeta.updated
            (WriterMemory.project (set_project_updated t Sample.doc))
          = Sample.clock 1
       /\ on_disk w1 = Some (set_project_updated t Sample.doc).
Proof.
  split; [reflexivity|].
  destruct (saveMemory_loadMemory_roundtrip
              (loaded Sample.world Sample.doc) 0%nat Sample.doc eq_refl)
    as (w1 & t & H1 & H2 & H3 & _ & _ & _ & _ & _ & _ & _ & _ & Ht & Hu & _
        & _ & _ & Hd).
  exists w1, t. repeat split; assumption.
Defined.

(** ** Lists, dictionaries and searches *)

Lemma lookup_snoc_new {A} (l : list A) (x : A) :
  (l ++ [x]) !! length l = Some x.
Proof. now rewrite list_lookup_middle. Qed.

Lemma insert_snoc_new {A} (l : list A) (x y : A) :
  <[length l := y]> (l ++ [x]) = l ++ [y].
Proof.
  rewrite insert_app_r_alt by lia. now rewrite Nat.sub_diag.
Qed.

Lemma lookup_two_old {A} (l : list A) (x y : A) :
  ((l ++ [x]) ++ [y]) !! length l = Some x.
Proof.
  rewrite lookup_app_l by (rewrite length_app; cbn; lia).
  apply lookup_snoc_new.
Qed.

Lemma lookup_two_new {A} (l : list A) (x x' y : A) :
  ((l ++ [x]) ++ [y]) !! length (l ++ [x']) = Some y.
Proof.
  replace (length (l ++ [x'])) with (length (l ++ [x]))
    by (rewrite !length_app; reflexivity).
  apply lookup_snoc_new.
Qed.

Lemma insert_two_old {A} (l : list A) (x x' y : A) :
  <[length l := x']> ((l ++ [x]) ++ [y]) = (l ++ [x']) ++ [y].
Proof.
  rewrite insert_app_l by (rewrite length_app; cbn; lia).
  now rewrite insert_snoc_new.
Qed.

Lemma alter_as_insert {A} (f : A -> A) (i : nat) (l : list A) (x : A) :
  l !! i = Some x -> alter f i l = <[i := f x]> l.
Proof.
  revert i. induction l as [|a l IH]; intros [|i] H; cbn in *;
    try discriminate.
  - now injection H as ->.
  - f_equal. now apply IH.
Qed.

Lemma alter_insert_same {A} (f : A -> A) (i : nat) (x : A) (l : list A) :
  alter f i (<[i := x]> l) = <[i := f x]> l.
Proof.
  revert i. induction l as [|a l IH]; intros [|i]; cbn; try reflexivity.
  f_equal. apply IH.
Qed.

Lemma lookup_insert_scene (l : list Scene.t) i s s' :
  l !! i = Some s -> <[i := s']> l !! i = Some s'.
Proof. intros H. apply list_lookup_insert_eq. now apply lookup_lt_Some in H. Qed.

Lemma lookup_own_In {A} (k : string) (a : A) (m : list (string * A)) :
  In (k, a) m -> exists a', lookup_own k m = Some a'.
Proof.
  induction m as [|[k' a'] m IH]; [intros []|].
  cbn. destruct (String.eqb k k') eqn:E; [eauto|].
  intros [[= -> ->]|Hin]; [now rewrite String.eqb_refl in E|auto].
Qed.

Lemma lookup_own_set_own {A} (k : string) (v : A) (m : list (string * A)) :
  lookup_own k (set_own k v m) = Some v.
Proof.
  induction m as [|[k' a] m IH]; cbn.
  - now rewrite String.eqb_refl.
  - destruct (String.eqb k k') eqn:E; cbn; rewrite ?String.eqb_refl, ?E; auto.
Qed.

Lemma In_set_own {A} (k : string) (v : A) (m : list (string * A)) :
  In (k, v) (set_own k v m).
Proof.
  induction m as [|[k' a] m IH]; cbn; [auto|].
  destruct (String.eqb k k'); cbn; auto.
Qed.

Lemma lookup_own_set_own_cases {A} (k k' : string) (v : A)
    (m : list (string * A)) :
  lookup_own k (set_own k' v m)
  = if String.eqb k k' then Some v else lookup_own k m.
Proof.
  induction m as [|[k0 a] m IH]; cbn.
  - reflexivity.
  - destruct (String.eqb k' k0) eqn:E; cbn.
    + apply String.eqb_eq in E as ->. now destruct (String.eqb k k0).
    + destruct (String.eqb k k0) eqn:E0.
      * apply String.eqb_eq in E0 as ->.
        now rewrite String.eqb_sym, E.
      * exact IH.
Qed.

Lemma lookup_own_fold_set_own {A} (k : string) (v : A)
    (es : list (string * A)) :
  forall m0,
    lookup_own k (fold_left (fun m e => set_own (fst e) (snd e) m) es m0)
    = Some v ->
    In (k, v) es \/ lookup_own k m0 = Some v.
Proof.
  induction es as [|[k' v'] es IH]; intros m0; cbn; [auto|].
  intros H. apply IH in H as [H|H]; [auto|].
  rewrite lookup_own_set_own_cases in H.
  destruct (String.eqb k k') eqn:E; [|auto].
  apply String.eqb_eq in E as ->. injection H as ->. auto.
Qed.

Lemma indexOf_absent x l : includes x l = false -> indexOf x l = None.
Proof.
  unfold includes, indexOf. induction l as [|a l IH]; cbn; [reflexivity|].
  destruct (String.eqb x a); cbn; [discriminate|].
  intros H. now rewrite IH.
Qed.

Lemma findIndex_ext {A} (p q : A -> bool) l :
  (forall a, p a = q a) -> findIndex p l = findIndex q l.
Proof.
  intros H. induction l as [|a l IH]; cbn; [reflexivity|].
  now rewrite H, IH.
Qed.

Lemma find_ext {A} (p q : A -> bool) l :
  (forall a, p a = q a) -> List.find p l = List.find q l.
Proof.
  intros H. induction l as [|a l IH]; cbn; [reflexivity|].
  now rewrite H, IH.
Qed.

Lemma findIndex_find {A} (p : A -> bool) l i :
  findIndex p l = Some i ->
  exists a, l !! i = Some a /\ List.find p l = Some a /\ p a = true.
Proof.
  revert i. induction l as [|x l IH]; cbn; [discriminate|].
  intros i. destruct (p x) eqn:Hp.
  - intros [= <-]. eauto.
  - destruct (findIndex p l) as [j|]; [|discriminate].
    intros [= <-]. destruct (IH j eq_refl) as (a & ? & ? & ?). eauto.
Qed.

Lemma find_findIndex {A} (p : A -> bool) l a :
  List.find p l = Some a ->
  exists i, findIndex p l = Some i /\ l !! i = Some a.
Proof.
  induction l as [|x l IH]; cbn; [discriminate|].
  destruct (p x) eqn:Hp.
  - intros [= <-]. exists 0%nat. eauto.
  - intros H. destruct (IH H) as (i & -> & ?). exists (S i). eauto.
Qed.

Lemma find_none_findIndex {A} (p : A -> bool) l :
  List.find p l = None -> findIndex p l = None.
Proof.
  induction l as [|x l IH]; cbn; [reflexivity|].
  destruct (p x); [discriminate|]. intros H. now rewrite IH.
Qed.

Lemma find_none_existsb {A} (p : A -> bool) l :
  List.find p l = None -> existsb p l = false.
Proof.
  induction l as [|a l IH]; cbn; [reflexivity|].
  destruct (p a); [discriminate|]. exact IH.
Qed.

Lemma find_app_none {A} (p : A -> bool) l1 l2 :
  List.find p l1 = None -> List.find p (l1 ++ l2) = List.find p l2.
Proof.
  induction l1 as [|a l IH]; cbn; [reflexivity|].
  destruct (p a); [discriminate|]. exact IH.
Qed.

(** ** Stepping through an operation *)

Lemma deref_loaded w D :
  deref (length (heap w)) (loaded w D) = (Ret D, loaded w D).
Proof. unfold deref, loaded. cbn. now rewrite lookup_snoc_new. Qed.

Lemma modify_loaded w D f :
  modify (length (heap w)) f (loaded w D) = (Ret tt, loaded w (f D)).
Proof.
  unfold modify, loaded. cbn. rewrite lookup_snoc_new.
  unfold with_heap. cbn. now rewrite insert_snoc_new.
Qed.

Lemma loadMemory_loaded w D :
  stored w D -> loadMemory w = (Ret (Some (length (heap w))), loaded w D).
Proof. apply loadMemory_stored. Qed.

Lemma stored_loaded w D D' : stored w D -> stored (loaded w D') D.
Proof. exact (fun H => H). Qed.

Lemma deref_nullable_loaded w D :
  deref_nullable (Some (length (heap w))) (loaded w D)
  = (Ret (length (heap w), D), loaded w D).
Proof. unfold deref_nullable, bind. now rewrite deref_loaded. Qed.

Lemma read_character_loaded w D key c :
  lookup_own key (WriterMemory.characters D) = Some c ->
  read_character (length (heap w)) key (loaded w D) = (Ret c, loaded w D).
Proof.
  intros Hc. unfold read_character, bind. rewrite deref_loaded. now rewrite Hc.
Qed.

Lemma read_scene_loaded w D i s :
  WriterMemory.scenes D !! i = Some s ->
  read_scene (length (heap w)) i (loaded w D) = (Ret s, loaded w D).
Proof.
  intros Hs. unfold read_scene, bind. rewrite deref_loaded. now rewrite Hs.
Qed.

Lemma update_scene_loaded w D i f :
  update_scene (length (heap w)) i f (loaded w D)
  = (Ret tt,
     loaded w (WriterMemory.set_scenes (alter f i (WriterMemory.scenes D)) D)).
Proof. unfold update_scene, update_scenes. now rewrite modify_loaded. Qed.

Lemma findCharacter_own D name key :
  findCharacter D name = FoundCharacter key ->
  exists c, lookup_own key (WriterMemory.characters D) = Some c.
Proof.
  unfold findCharacter, get_property.
  destruct (lookup_own name (WriterMemory.characters D)) as [c|] eqn:Hl.
  - intros [= <-]. eauto.
  - destruct (includes name object_prototype_names); [discriminate|].
    destruct (List.find _ _) as [[k c]|] eqn:Hf; [|discriminate].
    intros [= <-]. cbn.
    apply find_some in Hf as [Hin _]. eapply lookup_own_In, Hin.
Qed.

(** The steps of an operation on the document it has just loaded: [h] is
    the handle [loadMemory] returned. *)
Lemma deref_nullable_at h w D :
  h = length (heap w) ->
  deref_nullable (Some h) (loaded w D) = (Ret (h, D), loaded w D).
Proof. intros ->. apply deref_nullable_loaded. Qed.

Lemma update_scenes_at h w D f :
  h = length (heap w) ->
  update_scenes h f (loaded w D)
  = (Ret tt, loaded w (WriterMemory.set_scenes (f (WriterMemory.scenes D)) D)).
Proof. intros ->. unfold update_scenes. now rewrite modify_loaded. Qed.

Lemma update_scene_at h w D i f :
  h = length (heap w) ->
  update_scene h i f (loaded w D)
  = (Ret tt,
     loaded w (WriterMemory.set_scenes (alter f i (WriterMemory.scenes D)) D)).
Proof. intros ->. apply update_scene_loaded. Qed.

Lemma read_scene_at h w D i s :
  h = length (heap w) ->
  WriterMemory.scenes D !! i = Some s ->
  read_scene h i (loaded w D) = (Ret s, loaded w D).
Proof. intros ->. apply read_scene_loaded. Qed.

(** What a save at the end of an operation leaves on disk. *)
Lemma saveMemory_at h w D :
  h = length (heap w) ->
  exists w' t,
    saveMemory h (loaded w D) = (Ret true, w')
    /\ on_disk w' = Some (set_project_updated t D).
Proof.
  intros ->.
  destruct (saveMemory_spec (loaded w D) (length (heap w)) D)
    as (wb & Hb & Hs).
  { apply lookup_snoc_new. }
  cbn zeta in Hs. rewrite Hs. do 2 eexists. split; [reflexivity|].
  apply stored_toJSON. reflexivity.
Qed.

Lemma now_spec w :
  now w = (Ret (isoTime (env w) (ticks w)), with_ticks (S (ticks w)) w).
Proof. reflexivity. Qed.

Lemma generateId_spec prefix w :
  generateId prefix w
  = (Ret (generated_id prefix (env w) (ticks w)), with_ticks (S (ticks w)) w).
Proof. reflexivity. Qed.

Lemma with_ticks_loaded k w D :
  with_ticks k (loaded w D) = loaded (with_ticks k w) D.
Proof. reflexivity. Qed.

(** ** Aliases and emotion tags (C6) *)

(** The three no-ops that report success.  For a stored character that has
    the alias [x_in], and a stored scene that has the emotion tag [t_in] and
    not the tag [t_out]: adding [x_in] again and adding [t_in] again return
    [true] and write nothing (the store is untouched, the document in memory
    is the one loaded); removing the absent tag [t_out] returns [true] and
    writes nothing. *)
Lemma alias_and_tag_noops (w : World) (D : WriterMemory.t)
    (characterName key : string) (c : Character.t) (x_in : string)
    (sceneId : string) (i : nat) (s : Scene.t) (t_in t_out : string) :
  stored w D ->
  findCharacter D characterName = FoundCharacter key ->
  lookup_own key (WriterMemory.characters D) = Some c ->
  includes x_in (Character.aliases c) = true ->
  findSceneById D sceneId = Some i ->
  WriterMemory.scenes D !! i = Some s ->
  includes t_in (Scene.emotionTags s) = true ->
  includes t_out (Scene.emotionTags s) = false ->
  addAlias characterName x_in w = (Ret true, loaded w D)
  /\ addEmotionTag sceneId t_in w = (Ret true, loaded w D)
  /\ removeEmotionTag sceneId t_out w = (Ret true, loaded w D).
Proof.
  intros Hst Hfind Hc Hxin Hscene Hs Htin Htout.
  repeat split.
  - unfold addAlias, bind at 1. rewrite (loadMemory_loaded _ _ Hst).
    unfold bind at 1. rewrite deref_loaded. rewrite Hfind.
    unfold bind at 1. rewrite (read_character_loaded _ _ _ _ Hc).
    now rewrite Hxin.
  - unfold addEmotionTag, try_catch, bind at 1.
    rewrite (loadMemory_loaded _ _ Hst).
    unfold bind at 1. rewrite deref_nullable_loaded. rewrite Hscene.
    unfold bind at 1. rewrite (read_scene_loaded _ _ _ _ Hs).
    now rewrite Htin.
  - unfold removeEmotionTag, try_catch, bind at 1.
    rewrite (loadMemory_loaded _ _ Hst).
    unfold bind at 1. rewrite deref_nullable_loaded. rewrite Hscene.
    unfold bind at 1. rewrite (read_scene_loaded _ _ _ _ Hs).
    now rewrite (indexOf_absent _ _ Htout).
Qed.

(** The fourth no-op does not: for a stored character that does not have
    the alias [x_out], [removeAlias] writes nothing and returns [false]. *)
Lemma removeAlias_absent (w : World) (D : WriterMemory.t)
    (characterName key : string) (c : Character.t) (x_out : string) :
  stored w D ->
  findCharacter D characterName = FoundCharacter key ->
  lookup_own key (WriterMemory.characters D) = Some c ->
  includes x_out (Character.aliases c) = false ->
  removeAlias characterName x_out w = (Ret false, loaded w D).
Proof.
  intros Hst Hfind Hc Hxout.
  unfold removeAlias, bind at 1. rewrite (loadMemory_loaded _ _ Hst).
  unfold bind at 1. rewrite deref_loaded. rewrite Hfind.
  unfold bind at 1. rewrite (read_character_loaded _ _ _ _ Hc).
  now rewrite (indexOf_absent _ _ Hxout).
Qed.

(** C6 on the sample store.  "Seoyeon" has the alias "Yeoni" and not
    "Nobody"; scene_a has the tag "flutter" and not "dread".  Removing the
    alias "Nobody" changes nothing, as the claim says, but reports [false]
    where the claim says success.  The three sibling no-ops report [true]
    there: adding "Yeoni" again, adding "flutter" again, and removing the
    absent tag "dread". *)
Theorem removeAlias_absent_reports_false :
  includes "Nobody" (Character.aliases Sample.seoyeon) = false
  /\ fst (removeAlias "Seoyeon" "Nobody" Sample.world) = Ret false
  /\ on_disk (snd (removeAlias "Seoyeon" "Nobody" Sample.world))
     = Some Sample.doc
  /\ addAlias "Seoyeon" "Yeoni" Sample.world
     = (Ret true, loaded Sample.world Sample.doc)
  /\ addEmotionTag "scene_a" "flutter" Sample.world
     = (Ret true, loaded Sample.world Sample.doc)
  /\ removeEmotionTag "scene_a" "dread" Sample.world
     = (Ret true, loaded Sample.world Sample.doc).
Proof.
  split; [reflexivity|].
  rewrite (removeAlias_absent Sample.world Sample.doc "Seoyeon" "Seoyeon"
             Sample.seoyeon "Nobody" eq_refl eq_refl eq_refl eq_refl).
  split; [reflexivity|]. split; [reflexivity|].
  apply (alias_and_tag_noops Sample.world Sample.doc "Seoyeon" "Seoyeon"
           Sample.seoyeon "Yeoni" "scene_a" 0%nat Sample.scene_a
           "flutter" "dread"); reflexivity.
Qed.

(** ** Speech level detection (C8) *)

Lemma decide_level_honhap f i c :
  Speech.decide_level f i c = Honhap <-> f = 0%nat /\ i = 0%nat /\ c = 0%nat.
Proof.
  unfold Speech.decide_level.
  destruct (i <? f)%nat eqn:E1, (c <? f)%nat eqn:E2, (i <? c)%nat eqn:E3,
    (0 <? i)%nat eqn:E4; cbn;
    rewrite ?Nat.ltb_lt, ?Nat.ltb_ge in *;
    (split; [try discriminate; intros _; lia | try (intros; lia); auto]).
Qed.

(** C8, as the code has it.  With [f], [i], [c] the numbers of sentences
    of the line that match the formal, informal and casual patterns:
    - a bucket whose count is strictly above both others is returned;
    - the mixed bucket is returned exactly when no sentence matches any
      pattern;
    - when the formal count is not strictly above both others, the casual
      bucket is returned if its count is above the informal one, and else
      the informal bucket if its count is positive: a tie between the
      leading buckets is never reported as mixed. *)
Theorem detectSpeechLevel_cascade (t : Speech.text) :
  let ss := Speech.sentences t in
  let f := Speech.count Speech.formal ss in
  let i := Speech.count Speech.informal ss in
  let c := Speech.count Speech.casual ss in
  ((i < f)%nat /\ (c < f)%nat -> Speech.detectSpeechLevel t = Jondaetmal)
  /\ ((f < c)%nat /\ (i < c)%nat -> Speech.detectSpeechLevel t = Haeche)
  /\ ((f < i)%nat /\ (c < i)%nat -> Speech.detectSpeechLevel t = Banmal)
  /\ (Speech.detectSpeechLevel t = Honhap
      <-> f = 0%nat /\ i = 0%nat /\ c = 0%nat)
  /\ (~ ((i < f)%nat /\ (c < f)%nat) -> (i < c)%nat ->
      Speech.detectSpeechLevel t = Haeche)
  /\ (~ ((i < f)%nat /\ (c < f)%nat) -> ~ (i < c)%nat -> (0 < i)%nat ->
      Speech.detectSpeechLevel t = Banmal).
Proof.
  intros ss f i c. unfold Speech.detectSpeechLevel. fold ss. fold f i c.
  generalize f i c. clear. intros f i c.
  refine (conj _ (conj _ (conj _ (conj _ (conj _ _))))).
  - intros [H1 H2]. unfold Speech.decide_level.
    apply Nat.ltb_lt in H1, H2. now rewrite H1, H2.
  - intros [H1 H2]. unfold Speech.decide_level.
    assert ((c <? f)%nat = false) as -> by (apply Nat.ltb_ge; lia).
    rewrite andb_false_r. apply Nat.ltb_lt in H2. now rewrite H2.
  - intros [H1 H2]. unfold Speech.decide_level.
    assert ((i <? f)%nat = false) as -> by (apply Nat.ltb_ge; lia).
    assert ((i <? c)%nat = false) as -> by (apply Nat.ltb_ge; lia).
    assert ((0 <? i)%nat = true) as -> by (apply Nat.ltb_lt; lia).
    reflexivity.
  - apply decide_level_honhap.
  - intros Hn H. unfold Speech.decide_level.
    assert ((i <? f)%nat && (c <? f)%nat = false) as ->.
    { apply andb_false_iff.
      destruct (Nat.ltb_spec i f), (Nat.ltb_spec c f); auto; tauto. }
    apply Nat.ltb_lt in H. now rewrite H.
  - intros Hn H1 H2. unfold Speech.decide_level.
    assert ((i <? f)%nat && (c <? f)%nat = false) as ->.
    { apply andb_false_iff.
      destruct (Nat.ltb_spec i f), (Nat.ltb_spec c f); auto; tauto. }
    assert ((i <? c)%nat = false) as -> by (apply Nat.ltb_ge; lia).
    assert ((0 <? i)%nat = true) as -> by (apply Nat.ltb_lt; lia).
    reflexivity.
Qed.

(** C8 as the specification states it fails on a tie.  The line
    "가요. 가야" has one sentence that ends like formal speech and one that
    ends like informal speech, none that is casual: the two leading
    buckets tie, and the answer is the informal bucket, not the mixed
    one. *)
Lemma detectSpeechLevel_tie_is_not_mixed :
  let line := [0xAC00; 0xC694; 46; 32; 0xAC00; 0xC57C]%N in
  let ss := Speech.sentences line in
  Speech.count Speech.formal ss = 1%nat
  /\ Speech.count Speech.informal ss = 1%nat
  /\ Speech.count Speech.casual ss = 0%nat
  /\ Speech.detectSpeechLevel line = Banmal
  /\ Speech.detectSpeechLevel line <> Honhap.
Proof. cbv zeta. repeat split; try reflexivity. discriminate. Qed.

(** ** Relationships: the unordered pair (C5) *)

Lemma getRelationship_stored w D a b :
  stored w D ->
  getRelationship a b w
  = (Ret (option_map (fun i => (length (heap w), i))
            (findIndex (same_pair a b) (WriterMemory.relationships D))),
     loaded w D).
Proof.
  intros Hst. unfold getRelationship, bind at 1.
  rewrite (loadMemory_loaded _ _ Hst). unfold bind. now rewrite deref_loaded.
Qed.

Lemma same_pair_sym a b r : same_pair a b r = same_pair b a r.
Proof. unfold same_pair. apply orb_comm. Qed.

(** With a relationship stored for the pair, [addRelationship] returns
    [null] before it writes anything. *)
Lemma addRelationship_existing w D a b r type options :
  stored w D ->
  List.find (same_pair a b) (WriterMemory.relationships D) = Some r ->
  addRelationship a b type options w = (Ret None, loaded w D).
Proof.
  intros Hst Hfind.
  unfold addRelationship, bind at 1. rewrite (loadMemory_loaded _ _ Hst).
  unfold bind. rewrite deref_loaded. now rewrite Hfind.
Qed.

(** C5. When the store holds a relationship [r] for the pair [a], [b] in
    either orientation (it is the first such relationship of the list, at
    position [i]): [addRelationship] returns [null] for both orders of the
    names and writes nothing, so the list stays as it is; and
    [getRelationship] finds the same object, the one at position [i] with
    content [r], for both orders. *)
Theorem relationship_pair_is_unordered (w : World) (D : WriterMemory.t)
    (a b : string) (r : Relationship.t) (type : RelationshipType)
    (options : option RelationshipOptions) :
  stored w D ->
  List.find (same_pair a b) (WriterMemory.relationships D) = Some r ->
  addRelationship a b type options w = (Ret None, loaded w D)
  /\ addRelationship b a type options w = (Ret None, loaded w D)
  /\ on_disk (loaded w D) = Some D
  /\ exists i : nat,
       WriterMemory.relationships D !! i = Some r
       /\ getRelationship a b w = (Ret (Some (length (heap w), i)), loaded w D)
       /\ getRelationship b a w = (Ret (Some (length (heap w), i)), loaded w D).
Proof.
  intros Hst Hfind.
  assert (Hfind' : List.find (same_pair b a) (WriterMemory.relationships D)
                   = Some r).
  { rewrite <- Hfind. apply find_ext. intros x. apply same_pair_sym. }
  split; [|split; [|split]].
  - now apply (addRelationship_existing w D a b r).
  - now apply (addRelationship_existing w D b a r).
  - exact Hst.
  - destruct (find_findIndex _ _ _ Hfind) as (i & Hi & Hr).
    exists i. split; [exact Hr|]. split.
    + rewrite (getRelationship_stored _ _ _ _ Hst). now rewrite Hi.
    + rewrite (getRelationship_stored _ _ _ _ Hst).
      rewrite (findIndex_ext (same_pair b a) (same_pair a b)), Hi;
        [reflexivity|].
      intros x. apply same_pair_sym.
Qed.

Lemma relationship_pair_is_unordered_witness :
  addRelationship "Seoyeon" "Minjun" friendship None Sample.world
  = (Ret None, loaded Sample.world Sample.doc)
  /\ addRelationship "Minjun" "Seoyeon" friendship None Sample.world
     = (Ret None, loaded Sample.world Sample.doc)
  /\ on_disk (loaded Sample.world Sample.doc) = Some Sample.doc
  /\ exists i : nat,
       WriterMemory.relationships Sample.doc !! i = Some Sample.seoyeon_minjun
       /\ getRelationship "Seoyeon" "Minjun" Sample.world
          = (Ret (Some (length (heap Sample.world), i)),
             loaded Sample.world Sample.doc)
       /\ getRelationship "Minjun" "Seoyeon" Sample.world
          = (Ret (Some (length (heap Sample.world), i)),
             loaded Sample.world Sample.doc).
Proof.
  apply (relationship_pair_is_unordered Sample.world Sample.doc
           "Seoyeon" "Minjun" Sample.seoyeon_minjun friendship None);
    reflexivity.
Defined.

(** *** The pair invariant *)

(** [addRelationship] for a pair that has no relationship yet. *)
Lemma addRelationship_new w D a b type options :
  stored w D ->
  List.find (same_pair a b) (WriterMemory.relationships D) = None ->
  let r :=
    Relationship.mk (generated_id "rel" (env w) (ticks w)) a b type
      (or_string (options ≫= opt_dynamic) "stable")
      (options ≫= opt_rel_speechLevel) [] (options ≫= opt_rel_notes)
      (isoTime (env w) (S (ticks w))) in
  exists w' t,
    addRelationship a b type options w = (Ret (Some r), w')
    /\ on_disk w'
       = Some (set_project_updated t
                 (WriterMemory.set_relationships
                    (WriterMemory.relationships D ++ [r]) D)).
Proof.
  intros Hst Hfind r.
  unfold addRelationship, bind at 1. rewrite (loadMemory_loaded _ _ Hst).
  unfold bind at 1. rewrite deref_loaded, Hfind.
  unfold bind at 1. rewrite generateId_spec.
  unfold bind at 1. rewrite now_spec.
  cbn [env ticks with_ticks loaded with_heap heap]. fold r.
  unfold bind at 1.
  change (with_ticks _ (with_ticks _ (loaded w D)))
    with (loaded (with_ticks (S (S (ticks w))) w) D).
  replace (length (heap w))
    with (length (heap (with_ticks (S (S (ticks w))) w))) by reflexivity.
  rewrite modify_loaded.
  unfold bind at 1.
  match goal with
  | |- context [saveMemory ?h (loaded ?w2 ?D1)] =>
      destruct (saveMemory_at h w2 D1 eq_refl) as (w' & t & Hsave & Hdisk)
  end.
  rewrite Hsave. cbn. do 2 eexists. split; [reflexivity|]. exact Hdisk.
Qed.

Lemma same_pair_swap (x r : Relationship.t) :
  same_pair (Relationship.from x) (Relationship.to x) r
  = same_pair (Relationship.from r) (Relationship.to r) x.
Proof.
  unfold same_pair.
  now rewrite (String.eqb_sym (Relationship.from r) (Relationship.from x)),
    (String.eqb_sym (Relationship.to r) (Relationship.to x)),
    (String.eqb_sym (Relationship.from r) (Relationship.to x)),
    (String.eqb_sym (Relationship.to r) (Relationship.from x)),
    (andb_comm (String.eqb (Relationship.to x) (Relationship.from r))).
Qed.

Lemma unique_pairs_snoc l r :
  unique_pairs l = true ->
  List.find (same_pair (Relationship.from r) (Relationship.to r)) l = None ->
  unique_pairs (l ++ [r]) = true.
Proof.
  induction l as [|x l IH]; cbn; [reflexivity|].
  rewrite andb_true_iff, negb_true_iff. intros [Hx Hl].
  destruct (same_pair (Relationship.from r) (Relationship.to r) x) eqn:Hrx;
    [discriminate|].
  intros Hfind. rewrite IH by assumption.
  rewrite existsb_app, Hx. cbn. now rewrite same_pair_swap, Hrx.
Qed.

(** Whatever [addRelationship] answers, a store with at most one
    relationship per unordered pair stays so. *)
Lemma addRelationship_keeps_pairs_unique w D a b type options :
  stored w D ->
  unique_pairs (WriterMemory.relationships D) = true ->
  exists D',
    on_disk (snd (addRelationship a b type options w)) = Some D'
    /\ unique_pairs (WriterMemory.relationships D') = true.
Proof.
  intros Hst Hu.
  destruct (List.find (same_pair a b) (WriterMemory.relationships D))
    as [r|] eqn:Hfind.
  - rewrite (addRelationship_existing w D a b r type options Hst Hfind).
    exists D. split; [exact Hst|exact Hu].
  - destruct (addRelationship_new w D a b type options Hst Hfind)
      as (w' & t & -> & Hdisk).
    eexists. split; [exact Hdisk|]. cbn.
    apply unique_pairs_snoc; [exact Hu|exact Hfind].
Qed.

(** [addRelationship(a, b)] on a pair without relationship succeeds, and
    [addRelationship(b, a)] right after it returns [null]. *)
Lemma addRelationship_then_reversed_fails w D a b type options type' options' :
  stored w D ->
  List.find (same_pair a b) (WriterMemory.relationships D) = None ->
  exists r w1,
    addRelationship a b type options w = (Ret (Some r), w1)
    /\ fst (addRelationship b a type' options' w1) = Ret None.
Proof.
  intros Hst Hfind.
  destruct (addRelationship_new w D a b type options Hst Hfind)
    as (w1 & t & Hrun & Hdisk).
  eexists _, w1. split; [exact Hrun|].
  unfold addRelationship, bind at 1.
  rewrite (loadMemory_loaded w1 _ Hdisk).
  unfold bind at 1. rewrite deref_loaded.
  cbn [WriterMemory.relationships set_project_updated
         WriterMemory.set_project WriterMemory.set_relationships].
  rewrite find_app_none.
  2:{ rewrite (find_ext (same_pair b a) (same_pair a b))
        by (intros x; apply same_pair_sym).
      exact Hfind. }
  cbn [List.find].
  unfold same_pair at 1. cbn [Relationship.from Relationship.to].
  now rewrite !String.eqb_refl, orb_true_r.
Qed.

(** *** Updates through [getRelationship] are lost (C2, C3)

    [getRelationship] calls [loadMemory] itself, so the object it returns
    belongs to a second copy of the document.  [updateRelationship] and
    [addRelationshipEvent] mutate that object and then save another copy. *)

(** What [updateRelationship] does to a stored relationship: the caller
    gets the merged relationship, and the store gets the document as it was
    loaded, with nothing but [project.updated] changed. *)
Lemma updateRelationship_spec w D a b i r updates :
  stored w D ->
  findIndex (same_pair a b) (WriterMemory.relationships D) = Some i ->
  WriterMemory.relationships D !! i = Some r ->
  exists w' t,
    updateRelationship a b updates w
    = (Ret (Some (assign_relationship updates r)), w')
    /\ on_disk w' = Some (set_project_updated t D).
Proof.
  intros Hst Hi Hr.
  unfold updateRelationship, bind at 1. rewrite (loadMemory_loaded _ _ Hst).
  unfold bind at 1.
  rewrite (getRelationship_stored _ _ _ _ (stored_loaded _ _ D Hst)), Hi.
  cbn [option_map]. unfold bind at 1.
  unfold update_relationship. cbn [fst snd].
  rewrite modify_loaded.
  set (D2 := WriterMemory.set_relationships _ D).
  unfold bind at 1.
  destruct (saveMemory_spec (loaded (loaded w D) D2) (length (heap w)) D)
    as (wb & Hb & Hs).
  { cbn. apply lookup_two_old. }
  cbn zeta in Hs. rewrite Hs. clear Hs.
  unfold bind, read_relationship, deref. cbn [fst snd heap loaded with_heap].
  rewrite insert_two_old. unfold bind. cbn [heap].
  rewrite lookup_two_new.
  subst D2. cbn [WriterMemory.relationships WriterMemory.set_relationships].
  rewrite list_lookup_alter_eq, Hr. cbn.
  do 2 eexists. split; [reflexivity|].
  apply stored_toJSON. reflexivity.
Qed.

(** Likewise for [addRelationshipEvent]: the caller gets the new event, the
    store gets the document unchanged but for [project.updated]. *)
Lemma addRelationshipEvent_spec w D a b i change catalyst sceneId :
  stored w D ->
  findIndex (same_pair a b) (WriterMemory.relationships D) = Some i ->
  exists w' t,
    addRelationshipEvent a b change catalyst sceneId w
    = (Ret (Some (RelationshipEvent.mk (isoTime (env w) (ticks w)) sceneId
                    change catalyst)), w')
    /\ on_disk w' = Some (set_project_updated t D).
Proof.
  intros Hst Hi.
  unfold addRelationshipEvent, bind at 1.
  rewrite (getRelationship_stored _ _ _ _ Hst), Hi. cbn [option_map].
  unfold bind at 1, now, toISOString, bind at 1, tick. cbn [fst snd].
  unfold bind at 1, get_world. cbn [ret].
  unfold ret at 1.
  set (w1 := with_ticks _ _).
  unfold bind at 1, update_relationship. cbn [fst snd].
  assert (Hw1 : w1 = loaded (with_ticks (S (ticks w)) w) D) by reflexivity.
  rewrite Hw1.
  replace (length (heap w)) with (length (heap (with_ticks (S (ticks w)) w)))
    by reflexivity.
  rewrite modify_loaded.
  set (D1 := WriterMemory.set_relationships _ D).
  unfold bind at 1.
  rewrite (loadMemory_loaded _ D) by exact Hst.
  unfold bind at 1.
  destruct (saveMemory_spec
              (loaded (loaded (with_ticks (S (ticks w)) w) D1) D)
              (length (heap (loaded (with_ticks (S (ticks w)) w) D1))) D)
    as (wb & Hb & Hs).
  { apply lookup_snoc_new. }
  cbn zeta in Hs. rewrite Hs. clear Hs.
  do 2 eexists. split; [reflexivity|].
  apply stored_toJSON. reflexivity.
Qed.

(** C2 on the sample store.  [updateRelationship] is asked to change the
    type of the relationship of Seoyeon and Minjun from romantic to complex.
    It returns the merged relationship, of type complex; the document on
    disk still holds the relationship as it was, of type romantic. *)
Theorem updateRelationship_update_is_not_persisted :
  let updates := mkRelationshipUpdates (Some complex) None None None None in
  let run := updateRelationship "Seoyeon" "Minjun" updates Sample.world in
  fst run = Ret (Some (assign_relationship updates Sample.seoyeon_minjun))
  /\ Relationship.type (assign_relationship updates Sample.seoyeon_minjun)
     = complex
  /\ option_map WriterMemory.relationships (on_disk (snd run))
     = Some [Sample.seoyeon_minjun]
  /\ Relationship.type Sample.seoyeon_minjun = romantic.
Proof. cbv zeta. repeat split; vm_compute; reflexivity. Qed.

(** C3 on the sample store.  [addRelationshipEvent] returns the new event;
    the relationship on disk keeps the timeline it had, without the
    event. *)
Theorem addRelationshipEvent_event_is_not_persisted :
  let run :=
    addRelationshipEvent "Seoyeon" "Minjun" "quarrel" "letter" None
      Sample.world in
  fst run
  = Ret (Some (RelationshipEvent.mk (Sample.clock 0) None "quarrel" "letter"))
  /\ option_map WriterMemory.relationships (on_disk (snd run))
     = Some [Sample.seoyeon_minjun]
  /\ Relationship.evolution Sample.seoyeon_minjun = [Sample.first_meeting].
Proof. cbv zeta. repeat split; vm_compute; reflexivity. Qed.

(** ** Characters created by [addCharacter] and the validator (C10) *)

(** Any document that holds, under some key, a character whose id is not
    that key fails validation. *)
Lemma validateMemory_key_mismatch D key c :
  In (key, c) (WriterMemory.characters D) ->
  Character.id c <> key ->
  In (key_mismatch_error key c) (errors (validateMemory D))
  /\ valid (validateMemory D) = false.
Proof.
  intros Hin Hne.
  assert (Herr : In (key_mismatch_error key c) (errors (validateMemory D))).
  { unfold validateMemory. cbn [errors].
    apply in_or_app. right. apply in_or_app. right. apply in_or_app. left.
    apply in_flat_map. exists (key, c). split; [exact Hin|].
    cbn [character_errors]. apply in_or_app. left.
    apply String.eqb_neq in Hne. rewrite Hne. cbn. now left. }
  split; [exact Herr|].
  unfold validateMemory in *. cbn [errors valid] in *.
  destruct (_ ++ _) as [|e es]; [destruct Herr|reflexivity].
Qed.

(** [addCharacter] on a name that is no property of the character map. *)
Lemma addCharacter_absent w D n options :
  stored w D ->
  get_property n (WriterMemory.characters D) = Absent ->
  let c :=
    Character.mk (generated_id "char" (env w) (ticks w)) n []
      (or_string (options ≫= opt_arc) EmptyString)
      (or_string (options ≫= opt_tone) EmptyString)
      (default Banmal (options ≫= opt_speechLevel))
      (default [] (options ≫= opt_keywords))
      (or_string (options ≫= opt_attitude) EmptyString)
      []
      (or_string (options ≫= opt_notes) EmptyString)
      (isoTime (env w) (S (ticks w))) (isoTime (env w) (S (S (ticks w))))
      None None None in
  exists w' t,
    addCharacter n options w = (Ret (Some c), w')
    /\ on_disk w'
       = Some (set_project_updated t
                 (WriterMemory.set_characters
                    (set_own n c (WriterMemory.characters D)) D)).
Proof.
  intros Hst Hget c.
  unfold addCharacter, bind at 1. rewrite (loadMemory_loaded _ _ Hst).
  unfold bind at 1. rewrite deref_loaded, Hget.
  unfold bind at 1. rewrite generateId_spec.
  unfold bind at 1. rewrite now_spec.
  unfold bind at 1. rewrite now_spec.
  cbn [env ticks with_ticks loaded with_heap heap].
  fold c.
  unfold bind at 1.
  change (with_ticks _ (with_ticks _ (with_ticks _ (loaded w D))))
    with (loaded (with_ticks (S (S (S (ticks w)))) w) D).
  replace (length (heap w))
    with (length (heap (with_ticks (S (S (S (ticks w)))) w))) by reflexivity.
  rewrite modify_loaded.
  set (D1 := WriterMemory.set_characters _ D).
  unfold bind at 1.
  destruct (saveMemory_spec (loaded (with_ticks (S (S (S (ticks w)))) w) D1)
              (length (heap (with_ticks (S (S (S (ticks w)))) w))) D1)
    as (wb & Hb & Hs).
  { apply lookup_snoc_new. }
  cbn zeta in Hs. rewrite Hs. clear Hs.
  do 2 eexists. split; [reflexivity|].
  apply stored_toJSON. reflexivity.
Qed.

(** C10. A successful [addCharacter n] on a stored document: the name was
    not a property of the character map; the new character has the name [n]
    and the freshly generated id, and the document on disk holds it under
    the key [n]; and when that id differs from [n], [validateMemory] on
    that document reports the key mismatch and returns [valid = false], as
    it does on every document that holds the character under that key. *)
Theorem addCharacter_breaks_validation (w : World) (D : WriterMemory.t)
    (n : string) (options : option CharacterOptions) (c : Character.t)
    (w' : World) :
  stored w D ->
  addCharacter n options w = (Ret (Some c), w') ->
  Character.id c <> n ->
  get_property n (WriterMemory.characters D) = Absent
  /\ Character.id c = generated_id "char" (env w) (ticks w)
  /\ Character.name c = n
  /\ (exists D',
        on_disk w' = Some D'
        /\ lookup_own n (WriterMemory.characters D') = Some c
        /\ In (key_mismatch_error n c) (errors (validateMemory D'))
        /\ valid (validateMemory D') = false)
  /\ (forall D'',
        In (n, c) (WriterMemory.characters D'') ->
        valid (validateMemory D'') = false).
Proof.
  intros Hst Hadd Hne.
  destruct (get_property n (WriterMemory.characters D)) eqn:Hget.
  - exfalso. revert Hadd. unfold addCharacter, bind at 1.
    rewrite (loadMemory_loaded _ _ Hst).
    unfold bind at 1. rewrite deref_loaded, Hget. discriminate.
  - exfalso. revert Hadd. unfold addCharacter, bind at 1.
    rewrite (loadMemory_loaded _ _ Hst).
    unfold bind at 1. rewrite deref_loaded, Hget. discriminate.
  - destruct (addCharacter_absent w D n options Hst Hget)
      as (w1 & t & Hrun & Hdisk).
    rewrite Hrun in Hadd. injection Hadd as Hc Hw. subst w1.
    split; [reflexivity|].
    split; [now rewrite <- Hc|].
    split; [now rewrite <- Hc|].
    split.
    + eexists. split; [exact Hdisk|].
      cbn [set_project_updated WriterMemory.set_project
             WriterMemory.characters WriterMemory.set_characters].
      rewrite Hc. split; [apply lookup_own_set_own|].
      apply validateMemory_key_mismatch; [|exact Hne].
      apply In_set_own.
    + intros D'' Hin. now apply (validateMemory_key_mismatch D'' n c).
Qed.

(** "Jisu" is added to the sample store. *)
Lemma addCharacter_breaks_validation_witness :
  let c :=
    Character.mk "char_1706123456_a3f" "Jisu" [] EmptyString EmptyString
      Banmal [] EmptyString [] EmptyString (Sample.clock 1) (Sample.clock 2)
      None None None in
  let w' := snd (addCharacter "Jisu" None Sample.world) in
  get_property "Jisu" (WriterMemory.characters Sample.doc) = Absent
  /\ Character.id c = generated_id "char" (env Sample.world)
                        (ticks Sample.world)
  /\ Character.name c = "Jisu"
  /\ (exists D',
        on_disk w' = Some D'
        /\ lookup_own "Jisu" (WriterMemory.characters D') = Some c
        /\ In (key_mismatch_error "Jisu" c) (errors (validateMemory D'))
        /\ valid (validateMemory D') = false)
  /\ (forall D'',
        In ("Jisu", c) (WriterMemory.characters D'') ->
        valid (validateMemory D'') = false).
Proof.
  cbv zeta.
  set (c := Character.mk "char_1706123456_a3f" "Jisu" _ _ _ _ _ _ _ _ _ _ _ _
              _).
  assert (Hrun : fst (addCharacter "Jisu" None Sample.world) = Ret (Some c))
    by (vm_compute; reflexivity).
  apply (addCharacter_breaks_validation Sample.world Sample.doc "Jisu" None c
           (snd (addCharacter "Jisu" None Sample.world))).
  - reflexivity.
  - rewrite <- Hrun. apply surjective_pairing.
  - discriminate.
Defined.

(** ** Reordering by references *)

Section ReorderByRefs.
Context {A : Type} (set_order : Z -> A -> A).

(** Writing through distinct references that are all in range: the object
    at the k-th reference gets the order [idx + k], every other object is
    left alone. *)
Lemma assign_order_refs_distinct (js : list nat) :
  forall (idx : nat) (store : list A),
    NoDup js ->
    (forall j, In j js -> (j < length store)%nat) ->
    exists store',
      assign_order_refs set_order (map Some js) idx store = Some store'
      /\ length store' = length store
      /\ (forall k j, js !! k = Some j ->
            store' !! j = set_order (Z.of_nat (idx + k)) <$> store !! j)
      /\ (forall j, ~ In j js -> store' !! j = store !! j).
Proof.
  induction js as [|j0 js IH]; intros idx store Hnd Hin; cbn.
  - exists store. repeat split; auto. intros k j. now rewrite lookup_nil.
  - apply NoDup_cons in Hnd as [Hj0 Hnd].
    destruct (IH (S idx) (alter (set_order (Z.of_nat idx)) j0 store) Hnd)
      as (store' & Hrun & Hlen & Hk & Hout).
    { intros j Hj. rewrite length_alter. apply Hin. now right. }
    exists store'. split; [exact Hrun|].
    split; [now rewrite Hlen, length_alter|].
    split.
    + intros [|k] j Hj; cbn in Hj.
      * injection Hj as <-.
        rewrite Hout by (now rewrite <- list_elem_of_In).
        rewrite list_lookup_alter_eq. now rewrite Nat.add_0_r.
      * rewrite (Hk k j Hj).
        rewrite list_lookup_alter_ne.
        -- now replace (S idx + k)%nat with (idx + S k)%nat by lia.
        -- intros ->. apply Hj0. apply list_elem_of_lookup. eauto.
    + intros j Hj. rewrite Hout by (intros H; apply Hj; now right).
      apply list_lookup_alter_ne. intros ->. apply Hj. now left.
Qed.

Lemma deref_all_lookup (store : list A) (js : list nat) :
  (forall j, In j js -> (j < length store)%nat) ->
  exists l,
    deref_all store (map Some js) = Some l
    /\ length l = length js
    /\ (forall k j, js !! k = Some j -> l !! k = store !! j).
Proof.
  induction js as [|j0 js IH]; intros Hin; cbn.
  - exists []. repeat split. intros k j. now rewrite lookup_nil.
  - destruct IH as (l & -> & Hlen & Hl).
    { intros j Hj. apply Hin. now right. }
    destruct (lookup_lt_is_Some_2 store j0) as [a Ha].
    { apply Hin. now left. }
    rewrite Ha. exists (a :: l). split; [reflexivity|].
    split; [cbn; now rewrite Hlen|].
    intros [|k] j Hj; cbn in *.
    + now injection Hj as <-.
    + now apply Hl.
Qed.

(** [reorder_by_refs] on a list of distinct references in range: position
    [k] of the result holds the object the k-th reference points to, with
    its order set to [k]. *)
Lemma reorder_by_refs_distinct (store : list A) (js : list nat) (w : World) :
  NoDup js ->
  (forall j, In j js -> (j < length store)%nat) ->
  exists l,
    reorder_by_refs set_order store (map Some js) w = (Ret l, w)
    /\ length l = length js
    /\ (forall k j, js !! k = Some j ->
          l !! k = set_order (Z.of_nat k) <$> store !! j).
Proof.
  intros Hnd Hin. unfold reorder_by_refs.
  destruct (assign_order_refs_distinct js 0 store Hnd Hin)
    as (store' & -> & Hlen & Hk & _).
  destruct (deref_all_lookup store' js) as (l & -> & Hl & Hlk).
  { intros j Hj. rewrite Hlen. now apply Hin. }
  exists l. split; [reflexivity|]. split; [exact Hl|].
  intros k j Hj. rewrite (Hlk k j Hj). now rewrite (Hk k j Hj).
Qed.

End ReorderByRefs.

(** ** Dense orders and the permutation check *)

Lemma index_range_S m : index_range (S m) = index_range m ++ [Z.of_nat m].
Proof. unfold index_range. now rewrite seq_S, map_app. Qed.

Lemma dense_snoc (orders : list Z) :
  dense orders -> dense (orders ++ [Z.of_nat (length orders)]).
Proof.
  unfold dense. intros H. rewrite length_app. cbn [length].
  rewrite Nat.add_1_r, index_range_S. now rewrite <- H.
Qed.

Lemma index_range_lookup m k :
  (k < m)%nat -> index_range m !! k = Some (Z.of_nat k).
Proof.
  intros Hk. unfold index_range.
  rewrite list_lookup_fmap, lookup_seq_lt by exact Hk. reflexivity.
Qed.

(** A list whose k-th order is [k] has the orders [0 .. n-1]. *)
Lemma orders_by_position {A} (order : A -> Z) (l : list A) :
  (forall k a, l !! k = Some a -> order a = Z.of_nat k) ->
  map order l = index_range (length l).
Proof.
  intros H. apply list_eq. intros k.
  rewrite list_lookup_fmap.
  destruct (l !! k) as [a|] eqn:Hk; cbn.
  - rewrite index_range_lookup by (now apply lookup_lt_Some in Hk).
    now rewrite (H k a Hk).
  - symmetry. apply lookup_ge_None. unfold index_range.
    rewrite length_map, length_seq. now apply lookup_ge_None in Hk.
Qed.

Lemma dense_index_range m : dense (index_range m).
Proof.
  unfold dense, index_range. now rewrite length_map, length_seq.
Qed.

Lemma renumber_scenes_orders (l : list Scene.t) :
  map Scene.order (renumber_scenes l) = index_range (length l).
Proof.
  rewrite <- (length_imap (fun idx s => Scene.set_order (Z.of_nat idx) s) l).
  apply orders_by_position. intros k a. unfold renumber_scenes.
  rewrite list_lookup_imap. destruct (l !! k); cbn; [|discriminate].
  now intros [= <-].
Qed.

Lemma renumber_cuts_orders (l : list Cut.t) :
  map Cut.order (renumber_cuts l) = index_range (length l).
Proof.
  rewrite <- (length_imap (fun idx c => Cut.set_order (Z.of_nat idx) c) l).
  apply orders_by_position. intros k a. unfold renumber_cuts.
  rewrite list_lookup_imap. destruct (l !! k); cbn; [|discriminate].
  now intros [= <-].
Qed.

Lemma is_index_range_from i l :
  is_index_range i l = true <-> l = map Z.of_nat (seq i (length l)).
Proof.
  revert i. induction l as [|x l IH]; intros i; cbn; [tauto|].
  rewrite andb_true_iff, Z.eqb_eq, IH. split.
  - intros [-> <-]. reflexivity.
  - intros [= -> H]. split; [reflexivity|]. exact H.
Qed.

Lemma is_index_range_spec l :
  is_index_range 0 l = true <-> l = index_range (length l).
Proof. apply is_index_range_from. Qed.

Lemma sort_numbers_length l : length (sort_numbers l) = length l.
Proof. unfold sort_numbers. now rewrite merge_sort_Permutation. Qed.

(** A list that sorts to [0 .. m-1] lists distinct indices below [m]. *)
Lemma sorted_index_range_refs (newOrder : list Z) (m : nat) :
  sort_numbers newOrder = index_range m ->
  map index_ref newOrder = map Some (map Z.to_nat newOrder)
  /\ NoDup (map Z.to_nat newOrder)
  /\ (forall j, In j (map Z.to_nat newOrder) -> (j < m)%nat)
  /\ (forall z, In z newOrder -> 0 <= z < Z.of_nat m).
Proof.
  intros Hs.
  assert (Hp : newOrder ≡ₚ index_range m).
  { rewrite <- Hs. unfold sort_numbers. now rewrite merge_sort_Permutation. }
  assert (Hrange : forall z, In z newOrder -> 0 <= z < Z.of_nat m).
  { intros z Hz. apply list_elem_of_In in Hz. rewrite Hp in Hz.
    apply list_elem_of_In, in_map_iff in Hz as (k & <- & Hk).
    apply in_seq in Hk. lia. }
  split; [|split; [|split]].
  - rewrite map_map. apply map_ext_in. intros z Hz.
    unfold index_ref. destruct (Z.ltb_spec z 0); [|reflexivity].
    apply Hrange in Hz. lia.
  - rewrite Hp. unfold index_range. rewrite map_map.
    erewrite map_ext; [|intros k; apply Nat2Z.id]. rewrite map_id.
    apply NoDup_ListNoDup, seq_NoDup.
  - intros j Hj. apply in_map_iff in Hj as (z & <- & Hz).
    apply Hrange in Hz. lia.
  - exact Hrange.
Qed.

(** ** [reorderCuts] (C9) *)

Lemma reorderCuts_prefix w D sceneId i s newOrder :
  stored w D ->
  findSceneById D sceneId = Some i ->
  WriterMemory.scenes D !! i = Some s ->
  reorderCuts sceneId newOrder w
  = try_catch
      (if negb (length newOrder =? length (Scene.cuts s))%nat then ret false
       else if negb (is_index_range 0 (sort_numbers newOrder)) then ret false
       else
         let! reorderedCuts :=
           reorder_by_refs Cut.set_order (Scene.cuts s)
             (map index_ref newOrder) in
         exec! update_scene (length (heap w)) i
                 (Scene.set_cuts reorderedCuts) in
         let! _ := saveMemory (length (heap w)) in
         ret true)
      (ret false) (loaded w D).
Proof.
  intros Hst Hfind Hs. unfold reorderCuts, try_catch, bind at 1.
  rewrite (loadMemory_loaded _ _ Hst). unfold bind at 1.
  rewrite deref_nullable_loaded. rewrite Hfind.
  unfold bind at 1. rewrite (read_scene_loaded _ _ _ _ Hs). reflexivity.
Qed.

(** A list of the wrong length, or one that does not sort to [0 .. m-1],
    is refused before anything is touched. *)
Lemma reorderCuts_refused w D sceneId i s newOrder :
  stored w D ->
  findSceneById D sceneId = Some i ->
  WriterMemory.scenes D !! i = Some s ->
  length newOrder <> length (Scene.cuts s)
  \/ sort_numbers newOrder <> index_range (length (Scene.cuts s)) ->
  reorderCuts sceneId newOrder w = (Ret false, loaded w D).
Proof.
  intros Hst Hfind Hs Hbad.
  rewrite (reorderCuts_prefix w D sceneId i s newOrder Hst Hfind Hs).
  unfold try_catch.
  destruct (Nat.eqb_spec (length newOrder) (length (Scene.cuts s)))
    as [Hlen|Hlen]; [|reflexivity].
  cbn [negb].
  destruct (is_index_range 0 (sort_numbers newOrder)) eqn:Hrange;
    [|reflexivity].
  exfalso. apply is_index_range_spec in Hrange.
  rewrite sort_numbers_length, Hlen in Hrange.
  destruct Hbad as [Hbad|Hbad]; contradiction.
Qed.

(** A permutation of [0 .. m-1] is applied: position [k] gets the former
    cut at position [newOrder[k]], with the order [k]. *)
Lemma reorderCuts_applied w D sceneId i s newOrder :
  stored w D ->
  findSceneById D sceneId = Some i ->
  WriterMemory.scenes D !! i = Some s ->
  length newOrder = length (Scene.cuts s) ->
  sort_numbers newOrder = index_range (length (Scene.cuts s)) ->
  exists (w' : World) (t : string) (cuts' : list Cut.t),
    reorderCuts sceneId newOrder w = (Ret true, w')
    /\ on_disk w'
       = Some (set_project_updated t
                 (WriterMemory.set_scenes
                    (<[i := Scene.set_cuts cuts' s]>
                       (WriterMemory.scenes D)) D))
    /\ length cuts' = length (Scene.cuts s)
    /\ forall (k : nat) (z : Z),
         newOrder !! k = Some z ->
         exists old : Cut.t,
           Scene.cuts s !! Z.to_nat z = Some old
           /\ cuts' !! k = Some (Cut.set_order (Z.of_nat k) old).
Proof.
  intros Hst Hfind Hs Hlen Hsorted.
  rewrite (reorderCuts_prefix w D sceneId i s newOrder Hst Hfind Hs).
  unfold try_catch.
  rewrite Hlen, Nat.eqb_refl. cbn [negb].
  assert (is_index_range 0 (sort_numbers newOrder) = true) as ->.
  { apply is_index_range_spec. now rewrite sort_numbers_length, Hlen. }
  cbn [negb].
  destruct (sorted_index_range_refs newOrder _ Hsorted)
    as (Hrefs & Hnd & Hin & Hrange).
  destruct (reorder_by_refs_distinct Cut.set_order (Scene.cuts s)
              (map Z.to_nat newOrder) (loaded w D) Hnd Hin)
    as (cuts' & Hrun & Hlen' & Hk).
  unfold bind at 1. rewrite Hrefs, Hrun.
  unfold bind at 1. rewrite update_scene_loaded.
  set (D1 := WriterMemory.set_scenes _ D).
  unfold bind at 1.
  destruct (saveMemory_spec (loaded w D1) (length (heap w)) D1)
    as (wb & Hb & Hsave).
  { apply lookup_snoc_new. }
  cbn zeta in Hsave. rewrite Hsave. clear Hsave.
  eexists _, _, cuts'. split; [reflexivity|].
  split.
  { apply stored_toJSON. cbn [memFile]. subst D1.
    rewrite (alter_as_insert _ _ _ s Hs). reflexivity. }
  split; [now rewrite Hlen', length_map|].
  intros k z Hz.
  assert (Hz' : In z newOrder)
    by (apply list_elem_of_In, list_elem_of_lookup; eauto).
  apply Hrange in Hz'.
  destruct (lookup_lt_is_Some_2 (Scene.cuts s) (Z.to_nat z)) as [old Hold].
  { lia. }
  exists old. split; [exact Hold|].
  rewrite (Hk k (Z.to_nat z)); [now rewrite Hold|].
  now rewrite list_lookup_fmap, Hz.
Qed.

(** C9. For a stored scene with the cuts [cuts s] and any list of integers
    [newOrder]:
    - when the lengths differ, or [newOrder] sorted is not [0 .. m-1],
      [reorderCuts] returns [false], the document in memory is the one
      loaded and nothing is written;
    - otherwise it returns [true], and the document on disk is the loaded
      one with [project.updated] refreshed and the cuts of that scene
      replaced by a list of the same length whose k-th cut is the former
      cut at position [newOrder[k]] with its order set to [k]: its [order]
      field is [k] and its type, content, character and emotion tag are
      those of the former cut.  The orders of the new list are
      [0 .. m-1] in sequence, the scene keeps its id and every other scene
      is as it was. *)
Theorem reorderCuts_spec (w : World) (D : WriterMemory.t) (sceneId : string)
    (i : nat) (s : Scene.t) (newOrder : list Z) :
  stored w D ->
  findSceneById D sceneId = Some i ->
  WriterMemory.scenes D !! i = Some s ->
  let m := length (Scene.cuts s) in
  (length newOrder <> m \/ sort_numbers newOrder <> index_range m ->
   reorderCuts sceneId newOrder w = (Ret false, loaded w D)
   /\ on_disk (loaded w D) = Some D)
  /\ (length newOrder = m /\ sort_numbers newOrder = index_range m ->
      exists (w' : World) (t : string) (cuts' : list Cut.t),
        reorderCuts sceneId newOrder w = (Ret true, w')
        /\ on_disk w'
           = Some (set_project_updated t
                     (WriterMemory.set_scenes
                        (<[i := Scene.set_cuts cuts' s]>
                           (WriterMemory.scenes D)) D))
        /\ length cuts' = m
        /\ (forall (k : nat) (z : Z),
              newOrder !! k = Some z ->
              exists old : Cut.t,
                Scene.cuts s !! Z.to_nat z = Some old
                /\ cuts' !! k = Some (Cut.set_order (Z.of_nat k) old))
        /\ (forall (k : nat) (z : Z),
              newOrder !! k = Some z ->
              exists old new : Cut.t,
                Scene.cuts s !! Z.to_nat z = Some old
                /\ cuts' !! k = Some new
                /\ Cut.order new = Z.of_nat k
                /\ Cut.type new = Cut.type old
                /\ Cut.content new = Cut.content old
                /\ Cut.character new = Cut.character old
                /\ Cut.emotionTag new = Cut.emotionTag old)
        /\ map Cut.order cuts' = index_range m
        /\ exists (D' : WriterMemory.t) (s' : Scene.t),
             on_disk w' = Some D'
             /\ WriterMemory.scenes D' !! i = Some s'
             /\ Scene.cuts s' = cuts'
             /\ Scene.id s' = Scene.id s
             /\ (forall j : nat,
                   j <> i ->
                   WriterMemory.scenes D' !! j = WriterMemory.scenes D !! j)).
Proof.
  intros Hst Hfind Hs m. split.
  - intros Hbad. split; [|exact Hst].
    now apply (reorderCuts_refused w D sceneId i s).
  - intros [Hlen Hsorted].
    destruct (reorderCuts_applied w D sceneId i s newOrder Hst Hfind Hs Hlen
                Hsorted) as (w' & t & cuts' & Hrun & Hdisk & Hlen' & Hk).
    exists w', t, cuts'.
    split; [exact Hrun|]. split; [exact Hdisk|]. split; [exact Hlen'|].
    split; [exact Hk|]. split; [|split].
    + intros k z Hz. destruct (Hk k z Hz) as (old & Hold & Hnew).
      exists old, (Cut.set_order (Z.of_nat k) old).
      now repeat split.
    + fold m in Hlen'. rewrite <- Hlen'.
      apply orders_by_position. intros k a Ha.
      destruct (lookup_lt_is_Some_2 newOrder k) as [z Hz].
      { apply lookup_lt_Some in Ha. lia. }
      destruct (Hk k z Hz) as (old & _ & Hnew).
      rewrite Hnew in Ha. now injection Ha as <-.
    + do 2 eexists. split; [exact Hdisk|].
      cbn [set_project_updated WriterMemory.set_project
             WriterMemory.set_scenes WriterMemory.scenes].
      split.
      { apply list_lookup_insert_eq. now apply lookup_lt_Some in Hs. }
      split; [reflexivity|]. split; [reflexivity|].
      intros j Hj. now apply list_lookup_insert_ne.
Qed.

(** The sample scene: [0; 0; 1] is refused, [2; 0; 1] is applied, and the
    cuts then carry the orders 0, 1, 2. *)
Lemma reorderCuts_spec_witness :
  (reorderCuts "scene_a" [0; 0; 1] Sample.world
   = (Ret false, loaded Sample.world Sample.doc)
   /\ on_disk (loaded Sample.world Sample.doc) = Some Sample.doc)
  /\ exists (w' : World) (cuts' : list Cut.t),
       reorderCuts "scene_a" [2; 0; 1] Sample.world = (Ret true, w')
       /\ length cuts' = 3%nat
       /\ map Cut.order cuts' = [0; 1; 2]
       /\ exists (D' : WriterMemory.t) (s' : Scene.t),
            on_disk w' = Some D'
            /\ WriterMemory.scenes D' !! 0%nat = Some s'
            /\ Scene.cuts s' = cuts'.
Proof.
  split.
  - apply (reorderCuts_spec Sample.world Sample.doc "scene_a" 0%nat
             Sample.scene_a [0; 0; 1] eq_refl eq_refl eq_refl).
    right. vm_compute. discriminate.
  - destruct (reorderCuts_spec Sample.world Sample.doc "scene_a" 0%nat
                Sample.scene_a [2; 0; 1] eq_refl eq_refl eq_refl)
      as [_ Happlied].
    destruct (Happlied (conj eq_refl eq_refl))
      as (w' & t & cuts' & Hrun & _ & Hlen & _ & _ & Horders & D' & s'
          & Hdisk & Hscene & Hcuts & _).
    exists w', cuts'. split; [exact Hrun|]. split; [exact Hlen|].
    split; [exact Horders|]. exists D', s'. now repeat split.
Defined.

(** ** Dense order of scenes and cuts (C4) *)

(** C4 on the sample store.  The two scenes have the orders 0 and 1.
    [reorderScenes] is given the id of the first scene twice: the length is
    right and every id exists, so the call is accepted.  Both positions of
    the new array then refer to the same scene object, the loop writes its
    order twice, and the document on disk holds that scene twice with the
    order 1: the orders are no longer 0 and 1. *)
Theorem reorderScenes_duplicate_ids_break_dense_order :
  let run := reorderScenes ["scene_a"; "scene_a"] Sample.world in
  map Scene.order (WriterMemory.scenes Sample.doc) = [0; 1]
  /\ fst run = Ret true
  /\ option_map (fun d => map Scene.id (WriterMemory.scenes d))
       (on_disk (snd run))
     = Some ["scene_a"; "scene_a"]
  /\ option_map (fun d => map Scene.order (WriterMemory.scenes d))
       (on_disk (snd run))
     = Some [1; 1].
Proof. cbv zeta. repeat split; vm_compute; reflexivity. Qed.

(** *** What keeps the order dense

    The other operations of C4, and [reorderScenes] itself when the ids it
    is given are pairwise distinct, do keep the orders dense. *)

(** [addScene] on a stored document appends a scene whose order is the
    number of scenes there were. *)
Lemma addScene_spec w D title options :
  stored w D ->
  exists w' t newScene,
    addScene title options w = (Ret (Some newScene), w')
    /\ Scene.order newScene = Z.of_nat (length (WriterMemory.scenes D))
    /\ on_disk w'
       = Some (set_project_updated t
                 (WriterMemory.set_scenes
                    (WriterMemory.scenes D ++ [newScene]) D)).
Proof.
  intros Hst. unfold addScene, try_catch, bind at 1.
  rewrite (loadMemory_loaded _ _ Hst).
  unfold bind at 1. rewrite generateId_spec.
  unfold bind at 1. rewrite with_ticks_loaded.
  rewrite deref_nullable_at by reflexivity.
  unfold bind at 1. rewrite now_spec.
  unfold bind at 1. rewrite with_ticks_loaded.
  rewrite update_scenes_at by reflexivity.
  unfold bind at 1.
  match goal with
  | |- context [saveMemory ?h (loaded ?w2 ?D1)] =>
      destruct (saveMemory_at h w2 D1 eq_refl) as (w' & t & Hs & Hdisk)
  end.
  rewrite Hs. cbn. do 3 eexists. split; [reflexivity|].
  split; [reflexivity|]. exact Hdisk.
Qed.

Lemma addScene_keeps_dense w D title options :
  stored w D ->
  dense (map Scene.order (WriterMemory.scenes D)) ->
  exists D',
    on_disk (snd (addScene title options w)) = Some D'
    /\ dense (map Scene.order (WriterMemory.scenes D')).
Proof.
  intros Hst Hd.
  destruct (addScene_spec w D title options Hst)
    as (w' & t & s & -> & Horder & Hdisk).
  eexists. split; [exact Hdisk|]. cbn.
  rewrite map_app. cbn. rewrite Horder.
  rewrite <- (length_map Scene.order). now apply dense_snoc.
Qed.

(** [removeScene]: an unknown id changes nothing; a known one leaves the
    remaining scenes with the orders [0 .. n-2] in their sequence. *)
Lemma removeScene_spec w D sceneId :
  stored w D ->
  match
    findIndex (fun s => String.eqb (Scene.id s) sceneId) (WriterMemory.scenes D)
  with
  | None => removeScene sceneId w = (Ret false, loaded w D)
  | Some index =>
      exists w' t,
        removeScene sceneId w = (Ret true, w')
        /\ on_disk w'
           = Some (set_project_updated t
                     (WriterMemory.set_scenes
                        (renumber_scenes
                           (delete index (WriterMemory.scenes D))) D))
  end.
Proof.
  intros Hst.
  assert (Hprefix :
    removeScene sceneId w
    = try_catch
        (match
           findIndex (fun s => String.eqb (Scene.id s) sceneId)
             (WriterMemory.scenes D)
         with
         | None => ret false
         | Some index =>
             exec! update_scenes (length (heap w)) (delete index) in
             exec! update_scenes (length (heap w)) renumber_scenes in
             let! _ := saveMemory (length (heap w)) in
             ret true
         end)
        (ret false) (loaded w D)).
  { unfold removeScene, try_catch, bind at 1.
    rewrite (loadMemory_loaded _ _ Hst).
    unfold bind at 1. now rewrite deref_nullable_loaded. }
  rewrite Hprefix. clear Hprefix.
  destruct (findIndex _ _) as [index|]; [|reflexivity].
  unfold try_catch, bind at 1. rewrite update_scenes_at by reflexivity.
  unfold bind at 1. rewrite update_scenes_at by reflexivity.
  unfold bind at 1.
  match goal with
  | |- context [saveMemory ?h (loaded ?w2 ?D1)] =>
      destruct (saveMemory_at h w2 D1 eq_refl) as (w' & t & Hs & Hdisk)
  end.
  rewrite Hs. cbn. do 2 eexists. split; [reflexivity|]. exact Hdisk.
Qed.

Lemma removeScene_keeps_dense w D sceneId :
  stored w D ->
  dense (map Scene.order (WriterMemory.scenes D)) ->
  exists D',
    on_disk (snd (removeScene sceneId w)) = Some D'
    /\ dense (map Scene.order (WriterMemory.scenes D')).
Proof.
  intros Hst Hd. pose proof (removeScene_spec w D sceneId Hst) as H.
  destruct (findIndex _ _) as [index|].
  - destruct H as (w' & t & -> & Hdisk). eexists. split; [exact Hdisk|].
    cbn. rewrite renumber_scenes_orders. apply dense_index_range.
  - rewrite H. exists D. split; [exact Hst|exact Hd].
Qed.

(** The index the scene map gives for an id is the position of a scene with
    that id. *)
Lemma sceneMap_lookup (scenes : list Scene.t) (id : string) (j : nat) :
  lookup_own id (Map_of_entries (imap (fun i s => (Scene.id s, i)) scenes))
  = Some j ->
  exists s, scenes !! j = Some s /\ Scene.id s = id.
Proof.
  intros H. apply lookup_own_fold_set_own in H as [H|H]; [|discriminate].
  apply list_elem_of_In, elem_of_lookup_imap in H as (i & s & [= -> ->] & Hs).
  eauto.
Qed.

Lemma refs_of_ids (scenes : list Scene.t) (sceneIds : list string) :
  let sceneMap :=
    Map_of_entries (imap (fun i s => (Scene.id s, i)) scenes) in
  forallb (fun id => bool_decide (is_Some (lookup_own id sceneMap))) sceneIds
  = true ->
  exists js,
    map (fun id => lookup_own id sceneMap) sceneIds = map Some js
    /\ Forall2 (fun id j => exists s, scenes !! j = Some s /\ Scene.id s = id)
         sceneIds js.
Proof.
  intros sceneMap. induction sceneIds as [|id ids IH]; cbn.
  - exists []. split; [reflexivity|constructor].
  - rewrite andb_true_iff. intros [Hid Hids].
    destruct (IH Hids) as (js & Hmap & Hall).
    apply bool_decide_eq_true in Hid as [j Hj].
    exists (j :: js). split; [cbn; now rewrite Hj, Hmap|].
    constructor; [|exact Hall]. now apply sceneMap_lookup.
Qed.

Lemma refs_of_distinct_ids (scenes : list Scene.t) (sceneIds : list string)
    (js : list nat) :
  Forall2 (fun id j => exists s, scenes !! j = Some s /\ Scene.id s = id)
    sceneIds js ->
  NoDup sceneIds ->
  NoDup js /\ (forall j, In j js -> (j < length scenes)%nat).
Proof.
  induction 1 as [|id j ids js (s & Hs & Hid) Hall IH]; intros Hnd.
  - split; [constructor|intros j []].
  - apply NoDup_cons in Hnd as [Hnotin Hnd].
    destruct (IH Hnd) as [Hjs Hrange]. split.
    + apply NoDup_cons. split; [|exact Hjs].
      intros Hj. apply Hnotin.
      apply list_elem_of_lookup in Hj as [k Hk].
      destruct (Forall2_lookup_r _ _ _ _ _ Hall Hk)
        as (id' & Hid' & s' & Hs' & Hsid).
      rewrite Hs in Hs'. injection Hs' as <-.
      apply list_elem_of_lookup. exists k. congruence.
    + intros j' [<-|Hj'].
      * now apply lookup_lt_Some in Hs.
      * now apply Hrange.
Qed.

(** [reorderScenes] on pairwise distinct ids: either the call is refused
    and nothing changes, or the scenes on disk are listed in the order of
    the ids given, with the orders [0 .. n-1] in that sequence. *)
Lemma reorderScenes_distinct_spec w D sceneIds :
  stored w D ->
  NoDup sceneIds ->
  reorderScenes sceneIds w = (Ret false, loaded w D)
  \/ exists w' t scenes',
       reorderScenes sceneIds w = (Ret true, w')
       /\ on_disk w'
          = Some (set_project_updated t (WriterMemory.set_scenes scenes' D))
       /\ map Scene.id scenes' = sceneIds
       /\ map Scene.order scenes' = index_range (length scenes').
Proof.
  intros Hst Hnd.
  set (sceneMap :=
         Map_of_entries
           (imap (fun i s => (Scene.id s, i)) (WriterMemory.scenes D))).
  assert (Hprefix :
    reorderScenes sceneIds w
    = try_catch
        (if negb (length sceneIds =? length (WriterMemory.scenes D))%nat
         then ret false
         else if negb (forallb
                         (fun id =>
                            bool_decide (is_Some (lookup_own id sceneMap)))
                         sceneIds)
         then ret false
         else
           let! reordered :=
             reorder_by_refs Scene.set_order (WriterMemory.scenes D)
               (map (fun id => lookup_own id sceneMap) sceneIds) in
           exec! update_scenes (length (heap w)) (fun _ => reordered) in
           let! _ := saveMemory (length (heap w)) in
           ret true)
        (ret false) (loaded w D)).
  { unfold reorderScenes, try_catch, bind at 1.
    rewrite (loadMemory_loaded _ _ Hst).
    unfold bind at 1. now rewrite deref_nullable_loaded. }
  rewrite Hprefix. clear Hprefix. unfold try_catch.
  destruct (negb (length sceneIds =? length (WriterMemory.scenes D))%nat);
    [now left|].
  destruct (forallb _ sceneIds) eqn:Hall; cbn [negb]; [|now left].
  right.
  destruct (refs_of_ids (WriterMemory.scenes D) sceneIds Hall)
    as (js & Hrefs & Hrel).
  fold sceneMap in Hrefs. rewrite Hrefs.
  destruct (refs_of_distinct_ids _ _ _ Hrel Hnd) as [Hjs Hrange].
  destruct (reorder_by_refs_distinct Scene.set_order (WriterMemory.scenes D)
              js (loaded w D) Hjs Hrange)
    as (scenes' & Hrun & Hlen & Hk).
  unfold bind at 1. rewrite Hrun.
  unfold bind at 1. rewrite update_scenes_at by reflexivity.
  unfold bind at 1.
  match goal with
  | |- context [saveMemory ?h (loaded ?w2 ?D1)] =>
      destruct (saveMemory_at h w2 D1 eq_refl) as (w' & t & Hsave & Hdisk)
  end.
  rewrite Hsave. cbn. exists w', t, scenes'.
  split; [reflexivity|]. split; [exact Hdisk|]. split.
  - apply list_eq. intros k. rewrite list_lookup_fmap.
    destruct (sceneIds !! k) as [id|] eqn:Hid.
    + destruct (Forall2_lookup_l _ _ _ _ _ Hrel Hid)
        as (j & Hj & s & Hs & Hsid).
      rewrite (Hk k j Hj), Hs. cbn. now rewrite Hsid.
    + apply lookup_ge_None in Hid.
      rewrite lookup_ge_None_2; [reflexivity|].
      rewrite Hlen, <- (Forall2_length _ _ _ Hrel). exact Hid.
  - apply orders_by_position. intros k a Ha.
    destruct (lookup_lt_is_Some_2 js k) as [j Hj].
    { rewrite <- Hlen. now apply lookup_lt_Some in Ha. }
    rewrite (Hk k j Hj) in Ha.
    destruct (WriterMemory.scenes D !! j); cbn in Ha; [|discriminate].
    now injection Ha as <-.
Qed.

Lemma reorderScenes_distinct_keeps_dense w D sceneIds :
  stored w D ->
  NoDup sceneIds ->
  dense (map Scene.order (WriterMemory.scenes D)) ->
  exists D',
    on_disk (snd (reorderScenes sceneIds w)) = Some D'
    /\ dense (map Scene.order (WriterMemory.scenes D')).
Proof.
  intros Hst Hnd Hd.
  destruct (reorderScenes_distinct_spec w D sceneIds Hst Hnd)
    as [->|(w' & t & scenes' & -> & Hdisk & _ & Horders)].
  - exists D. split; [exact Hst|exact Hd].
  - eexists. split; [exact Hdisk|]. cbn. rewrite Horders.
    apply dense_index_range.
Qed.

(** [addCut] and [removeCut] on a stored scene. *)
Lemma addCut_spec w D sceneId i s cut :
  stored w D ->
  findSceneById D sceneId = Some i ->
  WriterMemory.scenes D !! i = Some s ->
  exists w' t,
    addCut sceneId cut w = (Ret true, w')
    /\ on_disk w'
       = Some (set_project_updated t
                 (WriterMemory.set_scenes
                    (<[i := Scene.set_cuts
                              (Scene.cuts s
                               ++ [Cut.mk (Z.of_nat (length (Scene.cuts s)))
                                     (cut_type cut) (cut_content cut)
                                     (cut_character cut)
                                     (cut_emotionTag cut)]) s]>
                       (WriterMemory.scenes D)) D)).
Proof.
  intros Hst Hfind Hs. unfold addCut, try_catch, bind at 1.
  rewrite (loadMemory_loaded _ _ Hst).
  unfold bind at 1. rewrite deref_nullable_loaded, Hfind.
  unfold bind at 1. rewrite (read_scene_loaded _ _ _ _ Hs).
  unfold bind at 1. rewrite update_scene_at by reflexivity.
  unfold bind at 1.
  match goal with
  | |- context [saveMemory ?h (loaded ?w2 ?D1)] =>
      destruct (saveMemory_at h w2 D1 eq_refl) as (w' & t & Hsave & Hdisk)
  end.
  rewrite Hsave. cbn. do 2 eexists. split; [reflexivity|].
  rewrite Hdisk. now rewrite (alter_as_insert _ _ _ s Hs).
Qed.

Lemma removeCut_spec w D sceneId i s cutOrder :
  stored w D ->
  findSceneById D sceneId = Some i ->
  WriterMemory.scenes D !! i = Some s ->
  match findIndex (fun c => Z.eqb (Cut.order c) cutOrder) (Scene.cuts s) with
  | None => removeCut sceneId cutOrder w = (Ret false, loaded w D)
  | Some index =>
      exists w' t,
        removeCut sceneId cutOrder w = (Ret true, w')
        /\ on_disk w'
           = Some (set_project_updated t
                     (WriterMemory.set_scenes
                        (<[i := Scene.set_cuts
                                  (renumber_cuts (delete index (Scene.cuts s)))
                                  s]>
                           (WriterMemory.scenes D)) D))
  end.
Proof.
  intros Hst Hfind Hs.
  assert (Hprefix :
    removeCut sceneId cutOrder w
    = try_catch
        (match
           findIndex (fun c => Z.eqb (Cut.order c) cutOrder) (Scene.cuts s)
         with
         | None => ret false
         | Some index =>
             exec! update_scene (length (heap w)) i
                     (fun s => Scene.set_cuts (delete index (Scene.cuts s)) s) in
             exec! update_scene (length (heap w)) i
                     (fun s => Scene.set_cuts (renumber_cuts (Scene.cuts s)) s) in
             let! _ := saveMemory (length (heap w)) in
             ret true
         end)
        (ret false) (loaded w D)).
  { unfold removeCut, try_catch, bind at 1.
    rewrite (loadMemory_loaded _ _ Hst).
    unfold bind at 1. rewrite deref_nullable_loaded, Hfind.
    unfold bind at 1. now rewrite (read_scene_loaded _ _ _ _ Hs). }
  rewrite Hprefix. clear Hprefix.
  destruct (findIndex _ _) as [index|]; [|reflexivity].
  unfold try_catch, bind at 1. rewrite update_scene_at by reflexivity.
  unfold bind at 1. rewrite update_scene_at by reflexivity.
  unfold bind at 1.
  match goal with
  | |- context [saveMemory ?h (loaded ?w2 ?D1)] =>
      destruct (saveMemory_at h w2 D1 eq_refl) as (w' & t & Hsave & Hdisk)
  end.
  rewrite Hsave. cbn. do 2 eexists. split; [reflexivity|].
  rewrite Hdisk. cbn [WriterMemory.scenes WriterMemory.set_scenes].
  rewrite (alter_as_insert _ _ _ s Hs), alter_insert_same. reflexivity.
Qed.

(** The cuts of the affected scene stay dense under [addCut] and
    [removeCut]. *)
Lemma addCut_keeps_dense w D sceneId i s cut :
  stored w D ->
  findSceneById D sceneId = Some i ->
  WriterMemory.scenes D !! i = Some s ->
  dense (map Cut.order (Scene.cuts s)) ->
  exists D' s',
    on_disk (snd (addCut sceneId cut w)) = Some D'
    /\ WriterMemory.scenes D' !! i = Some s'
    /\ dense (map Cut.order (Scene.cuts s')).
Proof.
  intros Hst Hfind Hs Hd.
  destruct (addCut_spec w D sceneId i s cut Hst Hfind Hs)
    as (w' & t & -> & Hdisk).
  do 2 eexists. split; [exact Hdisk|]. cbn.
  split; [apply (lookup_insert_scene _ _ s), Hs|].
  cbn. rewrite map_app. cbn.
  rewrite <- (length_map Cut.order). now apply dense_snoc.
Qed.

Lemma removeCut_keeps_dense w D sceneId i s cutOrder :
  stored w D ->
  findSceneById D sceneId = Some i ->
  WriterMemory.scenes D !! i = Some s ->
  dense (map Cut.order (Scene.cuts s)) ->
  exists D' s',
    on_disk (snd (removeCut sceneId cutOrder w)) = Some D'
    /\ WriterMemory.scenes D' !! i = Some s'
    /\ dense (map Cut.order (Scene.cuts s')).
Proof.
  intros Hst Hfind Hs Hd.
  pose proof (removeCut_spec w D sceneId i s cutOrder Hst Hfind Hs) as H.
  destruct (findIndex _ _) as [index|].
  - destruct H as (w' & t & -> & Hdisk).
    do 2 eexists. split; [exact Hdisk|]. cbn.
    split; [apply (lookup_insert_scene _ _ s), Hs|].
    cbn. rewrite renumber_cuts_orders. apply dense_index_range.
  - rewrite H. exists D, s. repeat split; assumption.
Qed.

(** After a successful [reorderCuts] the cuts of the scene have the orders
    [0 .. m-1] in their sequence. *)
Lemma reorderCuts_keeps_dense w D sceneId i s newOrder :
  stored w D ->
  findSceneById D sceneId = Some i ->
  WriterMemory.scenes D !! i = Some s ->
  dense (map Cut.order (Scene.cuts s)) ->
  exists D' s',
    on_disk (snd (reorderCuts sceneId newOrder w)) = Some D'
    /\ WriterMemory.scenes D' !! i = Some s'
    /\ dense (map Cut.order (Scene.cuts s')).
Proof.
  intros Hst Hfind Hs Hd.
  destruct (decide (length newOrder = length (Scene.cuts s)
                    /\ sort_numbers newOrder
                       = index_range (length (Scene.cuts s))))
    as [[Hlen Hsorted]|Hno].
  - destruct (reorderCuts_applied w D sceneId i s newOrder Hst Hfind Hs
                Hlen Hsorted)
      as (w' & t & cuts' & -> & Hdisk & Hlen' & Hk).
    do 2 eexists. split; [exact Hdisk|]. cbn.
    split; [apply (lookup_insert_scene _ _ s), Hs|].
    cbn. rewrite (orders_by_position Cut.order cuts');
      [apply dense_index_range|].
    intros k c Hc.
    destruct (lookup_lt_is_Some_2 newOrder k) as [z Hz].
    { rewrite Hlen, <- Hlen'. now apply lookup_lt_Some in Hc. }
    destruct (Hk k z Hz) as (old & _ & Hc'). rewrite Hc in Hc'.
    now injection Hc' as ->.
  - rewrite (reorderCuts_refused w D sceneId i s newOrder Hst Hfind Hs).
    + exists D, s. repeat split; assumption.
    + destruct (decide (length newOrder = length (Scene.cuts s)));
        [right|left]; tauto.
Qed.

(** ** Backup retention (C7) *)

#[local] Set Warnings "-clear-no-such-hyp".

(** One more name arrives and the greatest [k] of what was kept and the
    new name are kept: the result is the greatest [k] of everything. *)
Lemma keeps_greatest_step (k : nat) (R All R' : gset string) (x : string) :
  keeps_greatest_or_all k R All ->
  keeps_greatest k R' (R ∪ {[x]}) ->
  keeps_greatest k R' (All ∪ {[x]}).
Proof.
  intros [->|(Hsub & Hsize & Hord)] H'; [exact H'|].
  destruct H' as (Hsub' & Hsize' & Hord').
  destruct (decide (size All <= k)%nat) as [Hsmall|Hbig].
  { (* nothing was dropped before *)
    assert (R = All) as ->; [|exact (conj Hsub' (conj Hsize' Hord'))].
    apply set_subseteq_size_eq; [exact Hsub|]. lia. }
  assert (HR : size R = k) by lia.
  assert (HsizeRx : (k <= size (R ∪ {[x]}))%nat).
  { rewrite <- HR. apply subseteq_size. set_solver. }
  assert (HsizeAx : (k <= size (All ∪ {[x]}))%nat).
  { etrans; [exact HsizeRx|]. apply subseteq_size. set_solver. }
  split; [set_solver|]. split; [lia|].
  intros kept dropped Hkept Hdropped Hnot.
  destruct (decide (dropped ∈ R ∪ {[x]})) as [Hin|Hout];
    [now apply Hord'|].
  assert (HdAll : dropped ∈ All) by set_solver.
  assert (HdR : dropped ∉ R) by set_solver.
  assert (Hkept' : kept ∈ R ∪ {[x]}) by (apply Hsub', Hkept).
  destruct (decide (kept ∈ R)) as [HkR|HkR]; [now apply Hord|].
  assert (kept = x) as -> by set_solver.
  (* [x] is kept and is new, so some name [m] of [R] made room for it *)
  assert (Hex : exists m, m ∈ R /\ m ∉ R').
  { assert (Hx : x ∉ R) by exact HkR.
    assert (HsRx : size (R ∪ {[x]}) = S k).
    { rewrite size_union by set_solver. rewrite size_singleton. lia. }
    assert (Hpos : (0 < size ((R ∪ {[x]}) ∖ R'))%nat).
    { rewrite size_difference by exact Hsub'. lia. }
    apply size_pos_elem_of in Hpos as [m Hm].
    exists m. set_solver. }
  destruct Hex as (m & HmR & HmR').
  destruct (Hord' x m Hkept ltac:(set_solver) HmR') as [Hmx Hne].
  destruct (Hord m dropped HmR HdAll HdR) as [Hdm Hne'].
  split.
  - etrans; eassumption.
  - intros ->. apply Hne'. now apply (anti_symm String.le).
Qed.

Lemma with_backupDir_same w : with_backupDir (backupDir w) w = w.
Proof. now destruct w. Qed.

(** Where [require] is bound, the loop unlinks the first names of the
    listing until [MAX_BACKUPS] are left. *)
Lemma prune_loop_spec files :
  forall w,
    require_defined (env w) = true ->
    NoDup files ->
    (forall f, f ∈ files -> is_Some (backupDir w !! f)) ->
    prune_loop files w
    = (Ret tt,
       with_backupDir
         (foldl (fun d f => delete f d) (backupDir w)
            (take (length files - MAX_BACKUPS) files)) w).
Proof.
  induction files as [|f rest IH]; intros w Hreq Hnd Hin.
  - cbn. now rewrite with_backupDir_same.
  - cbn [prune_loop].
    destruct (Nat.ltb_spec MAX_BACKUPS (length (f :: rest))) as [Hlt|Hge].
    + apply NoDup_cons in Hnd as [Hf Hnd].
      unfold bind, require_fs, unlinkSync_backup. rewrite Hreq.
      destruct (Hin f) as [c Hc]; [left|]. rewrite Hc.
      rewrite IH; [|exact Hreq|exact Hnd|].
      * cbn [length] in *.
        replace (S (length rest) - MAX_BACKUPS)%nat
          with (S (length rest - MAX_BACKUPS)) by lia.
        reflexivity.
      * intros g Hg. cbn. rewrite lookup_delete_ne; [|set_solver].
        apply Hin. now right.
    + replace (length (f :: rest) - MAX_BACKUPS)%nat with 0%nat by lia.
      cbn. now rewrite with_backupDir_same.
Qed.

(** Where [require] is not bound, the first turn of the loop throws before
    anything is unlinked. *)
Lemma prune_loop_without_require files w :
  require_defined (env w) = false ->
  prune_loop files w
  = (if (MAX_BACKUPS <? length files)%nat then Throw else Ret tt, w).
Proof.
  intros Hreq. destruct files as [|f rest]; [reflexivity|].
  cbn [prune_loop].
  destruct (MAX_BACKUPS <? length (f :: rest))%nat; [|reflexivity].
  unfold bind, require_fs. now rewrite Hreq.
Qed.

(** The handler of [pruneBackups] swallows that error: the directory is as
    it was, however many backups it holds. *)
Lemma pruneBackups_without_require w :
  require_defined (env w) = false -> pruneBackups w = (Ret tt, w).
Proof.
  intros Hreq. unfold pruneBackups, try_catch, bind, readdirSync_backDir.
  rewrite (prune_loop_without_require _ _ Hreq).
  now destruct (MAX_BACKUPS <? _)%nat.
Qed.

Lemma elem_of_names_of dir f :
  f ∈ names_of dir <-> is_backup_name f = true /\ is_Some (dir !! f).
Proof. unfold names_of. now rewrite elem_of_filter, elem_of_dom. Qed.

Lemma sorted_backups_elem dir f :
  f ∈ sorted_backups dir <-> f ∈ names_of dir.
Proof.
  rewrite elem_of_names_of.
  unfold sorted_backups, sort_strings.
  rewrite merge_sort_Permutation, list_elem_of_In, filter_In.
  rewrite <- list_elem_of_In, list_elem_of_fmap. split.
  - intros [([k c] & -> & Hkc) Hname]. split; [exact Hname|].
    apply elem_of_map_to_list in Hkc. eauto.
  - intros [Hname [c Hc]]. split; [|exact Hname].
    exists (f, c). split; [reflexivity|]. now apply elem_of_map_to_list.
Qed.

Lemma sorted_backups_NoDup dir : NoDup (sorted_backups dir).
Proof.
  unfold sorted_backups, sort_strings. rewrite merge_sort_Permutation.
  apply NoDup_ListNoDup, List.NoDup_filter, NoDup_ListNoDup.
  apply NoDup_fst_map_to_list.
Qed.

Lemma sorted_backups_sorted dir : StronglySorted String.le (sorted_backups dir).
Proof. apply StronglySorted_merge_sort; apply _. Qed.

Lemma pruneBackups_spec w :
  pruneBackups w
  = (Ret tt, with_backupDir (after_pruning (env w) (backupDir w)) w).
Proof.
  unfold after_pruning. destruct (require_defined (env w)) eqn:Hreq.
  - unfold pruneBackups, try_catch, bind, readdirSync_backDir.
    fold (sorted_backups (backupDir w)).
    rewrite prune_loop_spec;
      [reflexivity|exact Hreq|apply sorted_backups_NoDup|].
    intros f Hf. apply sorted_backups_elem, elem_of_names_of in Hf.
    apply Hf.
  - rewrite with_backupDir_same. now apply pruneBackups_without_require.
Qed.

Lemma dom_delete_all (fs : list string) :
  forall dir : gmap string file,
    dom (foldl (fun d f => delete f d) dir fs) = dom dir ∖ list_to_set fs.
Proof.
  induction fs as [|f fs IH]; intros dir; cbn.
  - set_solver.
  - rewrite IH, dom_delete_L. set_solver.
Qed.

(** Pruning keeps the [MAX_BACKUPS] greatest backup names. *)
Lemma prune_dir_keeps_greatest dir :
  keeps_greatest MAX_BACKUPS (names_of (prune_dir dir)) (names_of dir).
Proof.
  pose proof (sorted_backups_NoDup dir) as Hnd.
  pose proof (sorted_backups_sorted dir) as Hsorted.
  pose proof (sorted_backups_elem dir) as Helem.
  set (files := sorted_backups dir) in *.
  set (n := (length files - MAX_BACKUPS)%nat).
  assert (Hsplit : files = take n files ++ drop n files)
    by (now rewrite take_drop).
  assert (Hnames : names_of (prune_dir dir) = list_to_set (drop n files)).
  { apply set_eq. intros f.
    rewrite elem_of_names_of, <- elem_of_dom. unfold prune_dir.
    fold files. fold n.
    rewrite dom_delete_all, elem_of_difference, !elem_of_list_to_set,
      elem_of_dom.
    rewrite Hsplit in Hnd. apply NoDup_app in Hnd as (_ & Hdisj & _).
    split.
    - intros (Hname & Hdom & Hnot).
      assert (Hf : f ∈ files) by (apply Helem, elem_of_names_of; auto).
      rewrite Hsplit in Hf. apply elem_of_app in Hf as [Hf|Hf]; tauto.
    - intros Hf.
      assert (Hf' : f ∈ files) by (rewrite Hsplit; set_solver).
      apply Helem, elem_of_names_of in Hf' as [Hname Hdom].
      repeat split; auto. intros Ht. exact (Hdisj f Ht Hf). }
  assert (Hall : names_of dir = list_to_set files).
  { apply set_eq. intros f. rewrite elem_of_list_to_set. symmetry.
    apply Helem. }
  rewrite Hnames, Hall. split; [|split].
  - intros f. rewrite !elem_of_list_to_set. rewrite Hsplit at 2. set_solver.
  - rewrite !size_list_to_set; [|exact Hnd|].
    + rewrite length_drop. subst n. lia.
    + rewrite Hsplit in Hnd. now apply NoDup_app in Hnd as (_ & _ & Hnd).
  - intros kept dropped. rewrite !elem_of_list_to_set.
    intros Hkept Hdropped Hnot.
    assert (Hd : dropped ∈ take n files).
    { rewrite Hsplit in Hdropped.
      apply elem_of_app in Hdropped as [Hd|Hd]; tauto. }
    split.
    + rewrite Hsplit in Hsorted.
      exact (StronglySorted_app_1_elem_of _ _ _ _ _ Hsorted Hd Hkept).
    + intros ->. contradiction.
Qed.

Lemma append_nil (s : string) : EmptyString +:+ s = s.
Proof. reflexivity. Qed.

Lemma append_cons (c : ascii) (a s : string) :
  String c a +:+ s = String c (a +:+ s).
Proof. reflexivity. Qed.

Lemma substring_all (s : string) : substring 0 (String.length s) s = s.
Proof. induction s as [|c s IH]; cbn; [reflexivity|]. now rewrite IH. Qed.

Lemma substring_drop_prefix (a s : string) :
  substring (String.length a) (String.length s) (a +:+ s) = s.
Proof.
  induction a as [|c a IH].
  - rewrite append_nil. apply substring_all.
  - rewrite append_cons. cbn [String.length substring]. exact IH.
Qed.

Lemma length_append (a s : string) :
  String.length (a +:+ s) = (String.length a + String.length s)%nat.
Proof.
  induction a as [|c a IH]; [reflexivity|].
  rewrite append_cons. cbn [String.length]. now rewrite IH.
Qed.

Lemma endsWith_append (a s : string) : endsWith (a +:+ s) s = true.
Proof.
  unfold endsWith. rewrite length_append.
  replace (String.length a + String.length s - String.length s)%nat
    with (String.length a) by lia.
  rewrite substring_drop_prefix, String.eqb_refl, andb_true_r.
  apply Nat.leb_le. lia.
Qed.

Lemma append_assoc (a b c : string) : (a +:+ b) +:+ c = a +:+ (b +:+ c).
Proof.
  induction a as [|x a IH]; [reflexivity|].
  rewrite !append_cons. now rewrite IH.
Qed.

Lemma prefix_append (a s : string) : String.prefix a (a +:+ s) = true.
Proof.
  induction a as [|c a IH].
  - now destruct s.
  - rewrite append_cons. cbn [String.prefix].
    destruct (ascii_dec c c); [exact IH|contradiction].
Qed.

Lemma is_backup_name_backup_name iso : is_backup_name (backup_name iso) = true.
Proof.
  unfold is_backup_name, backup_name. apply andb_true_iff. split.
  - apply prefix_append.
  - rewrite <- append_assoc. apply endsWith_append.
Qed.

Lemma names_of_insert dir f c :
  is_backup_name f = true -> names_of (<[f := c]> dir) = names_of dir ∪ {[f]}.
Proof.
  intros Hf. apply set_eq. intros g.
  rewrite elem_of_union, elem_of_singleton, !elem_of_names_of.
  destruct (decide (g = f)) as [->|Hne].
  - rewrite lookup_insert_eq. intuition eauto.
  - rewrite lookup_insert_ne by congruence. intuition congruence.
Qed.

Lemma createBackup_spec j w :
  exists p,
    createBackup j w
    = (Ret p,
       with_backupDir
         (after_pruning (env w)
            (<[backup_name_at (env w) (ticks w) := Parsed j]>
               (backupDir w)))
         (with_ticks (S (ticks w)) w)).
Proof.
  unfold createBackup, try_catch, toISOString, tick, get_world,
    writeFileSync_backup, bind. cbn.
  rewrite pruneBackups_spec. cbn. eauto.
Qed.

(** One save over an existing, parsable store. *)
Lemma save_document_spec D w j :
  memFile w = Some (Parsed j) ->
  exists w',
    save_document D w = (Ret true, w')
    /\ (exists j', memFile w' = Some (Parsed j'))
    /\ backupDir w'
       = after_pruning (env w)
           (<[backup_name_at (env w) (ticks w) := Parsed j]> (backupDir w))
    /\ ticks w' = (2 + ticks w)%nat
    /\ env w' = env w.
Proof.
  intros Hm. unfold save_document, bind, alloc.
  set (w0 := with_heap _ w).
  destruct (saveMemory_spec w0 (length (heap w)) D) as (wb & Hb & Hs).
  { apply lookup_snoc_new. }
  cbn zeta in Hs. rewrite Hs. clear Hs.
  revert Hb. unfold backup_existing, existsSync_memPath, bind, try_catch,
    readFileSync_memPath.
  subst w0. cbn [memFile with_heap]. rewrite Hm. cbn. rewrite Hm. cbn.
  destruct (createBackup_spec j (with_heap (heap w ++ [D]) w)) as [p ->].
  cbn. intros [= <-]. cbn.
  eexists. split; [reflexivity|]. cbn. eauto.
Qed.

Lemma created_names_S e t0 n :
  created_names e t0 (S n)
  = backup_name_at e t0 :: created_names e (2 + t0) n.
Proof.
  unfold created_names. cbn [seq map]. rewrite Nat.mul_0_r, Nat.add_0_r.
  f_equal. rewrite <- seq_shift, map_map. apply map_ext. intros i.
  f_equal. lia.
Qed.

Lemma save_all_keeps_greatest Ds :
  Ds <> [] ->
  forall w j All,
    require_defined (env w) = true ->
    memFile w = Some (Parsed j) ->
    keeps_greatest_or_all MAX_BACKUPS (backup_names w) All ->
    keeps_greatest MAX_BACKUPS (backup_names (snd (save_all Ds w)))
      (All ∪ list_to_set (created_names (env w) (ticks w) (length Ds))).
Proof.
  induction Ds as [|D rest IH]; [congruence|]. intros _ w j All Hreq Hm Hinv.
  destruct (save_document_spec D w j Hm)
    as (w1 & Hrun & (j1 & Hm1) & Hdir & Hticks & Henv).
  unfold after_pruning in Hdir. rewrite Hreq in Hdir.
  assert (Hstep :
    keeps_greatest MAX_BACKUPS (backup_names w1)
      (All ∪ {[backup_name_at (env w) (ticks w)]})).
  { apply (keeps_greatest_step _ (backup_names w)); [exact Hinv|].
    unfold backup_names. rewrite Hdir.
    rewrite <- (names_of_insert (backupDir w) _ (Parsed j))
      by apply is_backup_name_backup_name.
    apply prune_dir_keeps_greatest. }
  cbn [save_all]. unfold bind. rewrite Hrun.
  cbn [length]. rewrite created_names_S.
  destruct rest as [|D2 rest'].
  - cbn. replace (All ∪ ({[backup_name_at (env w) (ticks w)]} ∪ ∅))
      with (All ∪ {[backup_name_at (env w) (ticks w)]}) by set_solver.
    exact Hstep.
  - assert (Hreq1 : require_defined (env w1) = true) by now rewrite Henv.
    specialize (IH ltac:(congruence) w1 j1 _ Hreq1 Hm1 (or_intror Hstep)).
    rewrite Henv, Hticks in IH.
    replace (All ∪ list_to_set (backup_name_at (env w) (ticks w)
                :: created_names (env w) (2 + ticks w) (length (D2 :: rest'))))
      with (All ∪ {[backup_name_at (env w) (ticks w)]}
            ∪ list_to_set (created_names (env w) (2 + ticks w)
                             (length (D2 :: rest')))).
    + exact IH.
    + rewrite list_to_set_cons. set_solver.
Qed.

Lemma name_lt_irrefl a : ~ name_lt a a.
Proof. intros [_ H]. now apply H. Qed.

Lemma name_lt_asym a b : name_lt a b -> name_lt b a -> False.
Proof.
  intros [Hab Hne] [Hba _]. apply Hne. now apply (anti_symm String.le).
Qed.

(** The [k] greatest names of a set are determined by the set. *)
Lemma keeps_greatest_unique (k : nat) (R R' All : gset string) :
  keeps_greatest k R All -> keeps_greatest k R' All -> R = R'.
Proof.
  intros (Hsub & Hsize & Hord) (Hsub' & Hsize' & Hord').
  assert (Hone : forall X Y : gset string,
            X ⊆ All -> Y ⊆ All -> size X = size Y ->
            (forall kept dropped, kept ∈ X -> dropped ∈ All ->
               dropped ∉ X -> name_lt dropped kept) ->
            (forall kept dropped, kept ∈ Y -> dropped ∈ All ->
               dropped ∉ Y -> name_lt dropped kept) ->
            X ⊆ Y).
  { intros X Y HX HY Hs HordX HordY x Hx.
    destruct (decide (x ∈ Y)) as [|Hn]; [assumption|exfalso].
    assert (Hpos : (0 < size (Y ∖ X))%nat).
    { assert (HXY : (size (X ∩ Y) < size X)%nat).
      { apply subset_size. split; [set_solver|].
        intros Hall. apply Hn. specialize (Hall x Hx). set_solver. }
      rewrite size_difference_alt.
      assert (X ∩ Y = Y ∩ X) as <- by set_solver. lia. }
    apply size_pos_elem_of in Hpos as [y Hy].
    apply elem_of_difference in Hy as [HyY HyX].
    apply (name_lt_asym x y).
    - apply HordY; [exact HyY|apply HX, Hx|exact Hn].
    - apply HordX; [exact Hx|apply HY, HyY|exact HyX]. }
  apply set_eq. intros x. split; apply Hone; auto; lia.
Qed.

(** When the names created are strictly increasing and above all the names
    that were there, the greatest 20 are the last 20 created. *)
Lemma last_created_keeps_greatest (initial : gset string)
    (created : list string) :
  StronglySorted name_lt created ->
  (forall x y, x ∈ initial -> y ∈ created -> name_lt x y) ->
  (MAX_BACKUPS <= length created)%nat ->
  keeps_greatest MAX_BACKUPS
    (list_to_set (drop (length created - MAX_BACKUPS) created))
    (initial ∪ list_to_set created).
Proof.
  intros Hsorted Hbelow Hlen.
  set (n := (length created - MAX_BACKUPS)%nat).
  assert (Hsplit : created = take n created ++ drop n created)
    by (now rewrite take_drop).
  assert (Hnd : NoDup created).
  { clear -Hsorted. induction Hsorted as [|x l Hl IH Hx]; constructor; auto.
    intros Hin. rewrite Forall_forall in Hx.
    exact (name_lt_irrefl x (Hx x Hin)). }
  assert (Hnd' : NoDup (drop n created)).
  { rewrite Hsplit in Hnd. now apply NoDup_app in Hnd as (_ & _ & Hnd). }
  split; [|split].
  - intros x. rewrite elem_of_union, !elem_of_list_to_set.
    intros Hx. right. rewrite Hsplit. set_solver.
  - rewrite size_list_to_set by exact Hnd'. rewrite length_drop.
    assert (length created <= size (initial ∪ list_to_set created))%nat.
    { rewrite <- (size_list_to_set (C := gset string) created) by exact Hnd.
      apply subseteq_size. set_solver. }
    subst n. lia.
  - intros kept dropped. rewrite elem_of_union, !elem_of_list_to_set.
    intros Hkept [Hd|Hd] Hnot.
    + apply Hbelow; [exact Hd|]. rewrite Hsplit. set_solver.
    + rewrite Hsplit in Hd. apply elem_of_app in Hd as [Hd|Hd]; [|tauto].
      rewrite Hsplit in Hsorted.
      exact (StronglySorted_app_1_elem_of _ _ _ _ _ Hsorted Hd Hkept).
Qed.

(** *** Where [require] is bound

    A store exists and parses, and the module runs where [require] is
    bound (CommonJS); [N > 20] saves follow, of any documents.  Every save
    backs up the file it is about to replace, under a name made from the
    clock, and prunes.  Afterwards, with [all] the backup names that were in
    the directory at the start or were created by one of the saves:
    - at most 20 backup files remain, all of them from [all];
    - their number is [min (size all) 20];
    - every name of [all] that is gone is strictly below, in the order of
      the strings, every name that remains: the oldest went first and the
      greatest names are the ones kept;
    - when the clock gave the [N] saves distinct names, exactly 20 remain;
    - when the names the clock gave are strictly increasing and above the
      names that were there, the backups that remain are those of the last
      20 saves. *)
Lemma backup_retention (w : World) (j : json) (Ds : list WriterMemory.t) :
  require_defined (env w) = true ->
  memFile w = Some (Parsed j) ->
  (20 < length Ds)%nat ->
  let w' := snd (save_all Ds w) in
  let created := created_names (env w) (ticks w) (length Ds) in
  let all := backup_names w ∪ list_to_set created in
  (size (backup_names w') <= 20)%nat
  /\ backup_names w' ⊆ all
  /\ size (backup_names w') = Nat.min (size all) 20
  /\ (forall kept dropped : string,
        kept ∈ backup_names w' -> dropped ∈ all ->
        dropped ∉ backup_names w' ->
        name_lt dropped kept)
  /\ (NoDup created -> size (backup_names w') = 20%nat)
  /\ (StronglySorted name_lt created ->
      (forall x y, x ∈ backup_names w -> y ∈ created -> name_lt x y) ->
      backup_names w' = list_to_set (drop (length Ds - 20) created)).
Proof.
  intros Hreq Hm HN w' created all.
  assert (Hne : Ds <> []) by (intros ->; cbn in HN; lia).
  pose proof (save_all_keeps_greatest Ds Hne w j (backup_names w) Hreq Hm
                (or_introl eq_refl)) as Hkeeps.
  fold w' created all in Hkeeps.
  destruct Hkeeps as (Hsub & Hsize & Hord).
  change MAX_BACKUPS with 20%nat in Hsize.
  assert (Hcreated : length created = length Ds).
  { unfold created, created_names. now rewrite length_map, length_seq. }
  split; [lia|]. split; [exact Hsub|]. split; [exact Hsize|].
  split; [exact Hord|]. split.
  - intros Hnd. rewrite Hsize.
    assert (length Ds <= size all)%nat; [|lia].
    transitivity (size (list_to_set created : gset string)).
    + rewrite size_list_to_set by exact Hnd. now rewrite Hcreated.
    + apply subseteq_size. subst all. set_solver.
  - intros Hsorted Hbelow.
    apply (keeps_greatest_unique MAX_BACKUPS _ _ all).
    + exact (conj Hsub (conj Hsize Hord)).
    + rewrite <- Hcreated.
      apply last_created_keeps_greatest; [exact Hsorted|exact Hbelow|].
      rewrite Hcreated. change MAX_BACKUPS with 20%nat. lia.
Qed.

(** Twenty-one saves over the sample store, with the sample clock and
    [require] bound: the first backup is pruned, the other twenty remain. *)
Lemma backup_retention_witness :
  let Ds := replicate 21 Sample.doc in
  let w' := snd (save_all Ds Sample.world) in
  let created :=
    created_names (env Sample.world) (ticks Sample.world) (length Ds) in
  let all := backup_names Sample.world ∪ list_to_set created in
  ((size (backup_names w') <= 20)%nat
   /\ backup_names w' ⊆ all
   /\ size (backup_names w') = Nat.min (size all) 20
   /\ (forall kept dropped : string,
         kept ∈ backup_names w' -> dropped ∈ all ->
         dropped ∉ backup_names w' ->
         name_lt dropped kept)
   /\ (NoDup created -> size (backup_names w') = 20%nat)
   /\ (StronglySorted name_lt created ->
       (forall x y, x ∈ backup_names Sample.world -> y ∈ created ->
          name_lt x y) ->
       backup_names w' = list_to_set (drop (length Ds - 20) created)))
  /\ NoDup created
  /\ StronglySorted name_lt created
  /\ backup_names Sample.world = ∅.
Proof.
  cbv zeta. split; [|split; [|split]].
  - apply (backup_retention Sample.world (WriterMemory.toJSON Sample.doc)
             (replicate 21 Sample.doc)).
    + reflexivity.
    + reflexivity.
    + vm_compute. lia.
  - apply (bool_decide_unpack _). vm_compute. exact I.
  - apply (bool_decide_unpack _). vm_compute. exact I.
  - apply (bool_decide_unpack _). vm_compute. exact I.
Defined.

(** *** Where [require] is not bound

    Every save over a parsable store still writes its backup, and no save
    removes one: the directory holds what it held and every backup made
    since. *)
Lemma save_all_without_require Ds :
  forall w j,
    require_defined (env w) = false ->
    memFile w = Some (Parsed j) ->
    exists w',
      save_all Ds w = (Ret tt, w')
      /\ backup_names w'
         = backup_names w
           ∪ list_to_set (created_names (env w) (ticks w) (length Ds))
      /\ dom (backupDir w) ⊆ dom (backupDir w').
Proof.
  induction Ds as [|D rest IH]; intros w j Hreq Hm.
  - exists w. split; [reflexivity|]. split; [|reflexivity].
    cbn. set_solver.
  - destruct (save_document_spec D w j Hm)
      as (w1 & Hrun & (j1 & Hm1) & Hdir & Hticks & Henv).
    unfold after_pruning in Hdir. rewrite Hreq in Hdir.
    assert (Hreq1 : require_defined (env w1) = false) by now rewrite Henv.
    destruct (IH w1 j1 Hreq1 Hm1) as (w' & Hrest & Hnames & Hdom).
    exists w'. cbn [save_all]. unfold bind. rewrite Hrun.
    split; [exact Hrest|].
    cbn [length]. rewrite created_names_S, list_to_set_cons.
    rewrite Henv, Hticks in Hnames. split.
    + rewrite Hnames. unfold backup_names at 1. rewrite Hdir.
      rewrite names_of_insert by apply is_backup_name_backup_name.
      fold (backup_names w). now rewrite (assoc_L (∪)).
    + etrans; [|exact Hdom]. rewrite Hdir, dom_insert_L. set_solver.
Qed.

(** C7 on the sample store, the module loaded as an ES module, where
    [require] is not bound.  The backup directory is empty; twenty-one
    saves follow.  Every one of them returns and writes its backup, the
    clock gives the twenty-one backups distinct names, and all twenty-one
    are there afterwards: [pruneBackups] has removed none, where the claim
    has at most 20 remain.  The same saves with [require] bound leave 20. *)
Theorem pruneBackups_removes_nothing_without_require :
  let Ds := replicate 21 Sample.doc in
  let w' := snd (save_all Ds Sample.esm_world) in
  let created :=
    created_names (env Sample.esm_world) (ticks Sample.esm_world) 21 in
  require_defined (env Sample.esm_world) = false
  /\ backup_names Sample.esm_world = ∅
  /\ fst (save_all Ds Sample.esm_world) = Ret tt
  /\ NoDup created
  /\ backup_names w' = list_to_set created
  /\ size (backup_names w') = 21%nat
  /\ size (backup_names (snd (save_all Ds Sample.world))) = 20%nat.
Proof.
  cbv zeta. split; [reflexivity|].
  split; [apply (bool_decide_unpack _); vm_compute; exact I|].
  split; [vm_compute; reflexivity|].
  split; [apply (bool_decide_unpack _); vm_compute; exact I|].
  split; [apply (bool_decide_unpack _); vm_compute; exact I|].
  split; vm_compute; reflexivity.
Qed.


(* ================================================================== *)
(** * Further properties of the modules *)

(** ** The persistence layer: missing and corrupt stores, backups *)

Lemma backup_existing_nothing w :
  memFile w = None \/ (exists raw, memFile w = Some (Unparsable raw)) ->
  backup_existing w = (Ret tt, w).
Proof.
  unfold backup_existing, existsSync_memPath, try_catch, readFileSync_memPath,
    bind.
  intros [Hm|[raw Hm]]; rewrite Hm; cbn; [reflexivity|].
  now rewrite Hm.
Qed.

(** X1. A store whose memory file is missing, or holds text that does not
    parse, reads as no store and is repaired by the next save: [loadMemory]
    returns [null] and changes nothing; a save succeeds all the same, the
    store then holds the document saved, stamped with the reading of the
    clock, [loadMemory] returns that document, and no backup has been
    written or removed. *)
Theorem unreadable_store_is_repaired_by_a_save (w : World)
    (D : WriterMemory.t) :
  memFile w = None \/ (exists raw, memFile w = Some (Unparsable raw)) ->
  loadMemory w = (Ret None, w)
  /\ exists (w' : World) (D' : WriterMemory.t),
       save_document D w = (Ret true, w')
       /\ D' = set_project_updated (isoTime (env w) (ticks w)) D
       /\ on_disk w' = Some D'
       /\ loadMemory w' = (Ret (Some (length (heap w'))), loaded w' D')
       /\ backupDir w' = backupDir w
       /\ tmpFile w' = None.
Proof.
  intros Hm. split.
  { destruct Hm as [Hm|[raw Hm]]; [now apply loadMemory_missing|].
    unfold loadMemory, try_catch, bind, existsSync_memPath,
      readFileSync_memPath.
    rewrite Hm. cbn. now rewrite Hm. }
  unfold save_document, bind, alloc.
  set (w0 := with_heap _ w).
  destruct (saveMemory_spec w0 (length (heap w)) D) as (wb & Hb & Hs).
  { apply lookup_snoc_new. }
  cbn zeta in Hs. rewrite Hs. clear Hs.
  rewrite (backup_existing_nothing w0 Hm) in Hb. injection Hb as <-.
  do 2 eexists. split; [reflexivity|]. split; [reflexivity|].
  assert (Hdisk : forall hp k,
            on_disk
              (mkWorld
                 (Some (Parsed (WriterMemory.toJSON
                                  (set_project_updated
                                     (isoTime (env w) (ticks w)) D))))
                 None (backupDir w) hp k (env w))
            = Some (set_project_updated (isoTime (env w) (ticks w)) D)).
  { intros hp k. apply stored_toJSON. reflexivity. }
  split; [apply Hdisk|]. split; [|split; reflexivity].
  apply loadMemory_loaded, Hdisk.
Qed.

Lemma unreadable_store_is_repaired_by_a_save_witness :
  let w := mkWorld (Some (Unparsable "{")) None ∅ [] 0 Sample.sample_env in
  loadMemory w = (Ret None, w)
  /\ exists (w' : World) (D' : WriterMemory.t),
       save_document Sample.doc w = (Ret true, w')
       /\ D' = set_project_updated (isoTime (env w) (ticks w)) Sample.doc
       /\ on_disk w' = Some D'
       /\ loadMemory w' = (Ret (Some (length (heap w'))), loaded w' D')
       /\ backupDir w' = backupDir w
       /\ tmpFile w' = None.
Proof.
  cbv zeta.
  apply (unreadable_store_is_repaired_by_a_save
           (mkWorld (Some (Unparsable "{")) None ∅ [] 0 Sample.sample_env)
           Sample.doc).
  right. eexists. reflexivity.
Defined.

Lemma sorted_backups_length dir :
  length (sorted_backups dir) = size (names_of dir).
Proof.
  rewrite <- (size_list_to_set (C := gset string) (sorted_backups dir))
    by apply sorted_backups_NoDup.
  f_equal. apply set_eq. intros f. rewrite elem_of_list_to_set.
  apply sorted_backups_elem.
Qed.

Lemma prune_dir_few dir :
  (size (names_of dir) <= MAX_BACKUPS)%nat -> prune_dir dir = dir.
Proof.
  intros H. unfold prune_dir. rewrite sorted_backups_length.
  replace (size (names_of dir) - MAX_BACKUPS)%nat with 0%nat by lia.
  reflexivity.
Qed.

(** X2. A save over a store whose file parses first copies what the file
    held into the backup directory, under the name made from the clock.
    As long as fewer than [MAX_BACKUPS] backups are there, nothing else in
    the directory changes; the store then holds the document saved. *)
Theorem saveMemory_backs_up_the_previous_content (w : World)
    (D : WriterMemory.t) (j : json) :
  memFile w = Some (Parsed j) ->
  (size (backup_names w) < MAX_BACKUPS)%nat ->
  exists w' : World,
    save_document D w = (Ret true, w')
    /\ backupDir w'
       = <[backup_name_at (env w) (ticks w) := Parsed j]> (backupDir w)
    /\ on_disk w'
       = Some (set_project_updated (isoTime (env w) (S (ticks w))) D).
Proof.
  intros Hm Hfew. unfold save_document, bind, alloc.
  set (w0 := with_heap _ w).
  destruct (saveMemory_spec w0 (length (heap w)) D) as (wb & Hb & Hs).
  { apply lookup_snoc_new. }
  cbn zeta in Hs. rewrite Hs. clear Hs.
  revert Hb. unfold backup_existing, existsSync_memPath, bind, try_catch,
    readFileSync_memPath.
  subst w0. cbn [memFile with_heap]. rewrite Hm. cbn. rewrite Hm. cbn.
  destruct (createBackup_spec j (with_heap (heap w ++ [D]) w)) as [p ->].
  cbn. intros [= <-]. cbn.
  eexists. split; [reflexivity|]. split.
  - cbn [backupDir env with_ticks with_heap]. unfold after_pruning.
    destruct (require_defined (env w)); [|reflexivity].
    apply prune_dir_few.
    rewrite names_of_insert by apply is_backup_name_backup_name.
    rewrite size_union_alt.
    assert (size ({[backup_name_at (env w) (ticks w)]}
                  ∖ names_of (backupDir w) : gset string) <= 1)%nat.
    { rewrite <- (size_singleton (C := gset string)
                   (backup_name_at (env w) (ticks w))).
      apply subseteq_size. set_solver. }
    unfold backup_names in Hfew. lia.
  - apply stored_toJSON. reflexivity.
Qed.

Lemma saveMemory_backs_up_the_previous_content_witness :
  exists w' : World,
    save_document Sample.doc Sample.world = (Ret true, w')
    /\ backupDir w'
       = <[backup_name_at (env Sample.world) (ticks Sample.world)
           := Parsed (WriterMemory.toJSON Sample.doc)]>
           (backupDir Sample.world)
    /\ on_disk w'
       = Some (set_project_updated
                 (isoTime (env Sample.world) (S (ticks Sample.world)))
                 Sample.doc).
Proof.
  apply (saveMemory_backs_up_the_previous_content Sample.world Sample.doc
           (WriterMemory.toJSON Sample.doc)).
  - reflexivity.
  - vm_compute. lia.
Defined.

(** ** [validateMemory]: what a valid document is *)

Lemma includes_In x l : includes x l = true <-> In x l.
Proof.
  unfold includes. rewrite existsb_exists. split.
  - intros (y & Hy & Heq). apply String.eqb_eq in Heq. now subst.
  - intros H. exists x. split; [exact H|apply String.eqb_refl].
Qed.

Lemma includes_false x l : includes x l = false <-> ~ In x l.
Proof.
  rewrite <- includes_In. destruct (includes x l); split; congruence.
Qed.

Lemma truthy_true s : truthy s = true <-> s <> EmptyString.
Proof.
  unfold truthy. destruct (String.eqb_spec s EmptyString); cbn; split;
    congruence.
Qed.

Lemma flat_map_nil {A B} (f : A -> list B) (l : list A) :
  flat_map f l = [] <-> forall a, In a l -> f a = [].
Proof.
  induction l as [|a l IH]; cbn.
  - split; [intros _ a []|reflexivity].
  - split.
    + intros H. apply app_eq_nil in H as [Ha Hl]. intros b [<-|Hb]; auto.
      now apply IH.
    + intros H. rewrite (H a) by now left. cbn. apply IH. auto.
Qed.

Lemma scene_errors_nil seen scenes :
  scene_errors seen scenes = []
  <-> List.NoDup (map Scene.id scenes)
      /\ forall s, In s scenes -> ~ In (Scene.id s) seen.
Proof.
  revert seen. induction scenes as [|s rest IH]; intros seen; cbn.
  - split; [split; [constructor|intros ? []]|reflexivity].
  - split.
    + intros H. apply app_eq_nil in H as [Hs Hrest].
      apply IH in Hrest as [Hnd Hseen].
      destruct (includes (Scene.id s) seen) eqn:Hinc; [discriminate|].
      apply includes_false in Hinc. split.
      * constructor; [|exact Hnd]. intros Hin.
        apply in_map_iff in Hin as (s' & Heq & Hin').
        apply (Hseen s' Hin'). left. now symmetry.
      * intros s' [<-|Hin']; [exact Hinc|].
        intros Hc. apply (Hseen s' Hin'). now right.
    + intros [Hnd Hseen]. apply List.NoDup_cons_iff in Hnd as [Hs Hnd].
      assert (Hinc : includes (Scene.id s) seen = false).
      { apply includes_false, Hseen. now left. }
      rewrite Hinc. cbn. apply IH. split; [exact Hnd|].
      intros s' Hin' [Heq|Hc].
      * apply Hs. apply in_map_iff. exists s'. split; [now symmetry|exact Hin'].
      * apply (Hseen s'); [now right|exact Hc].
Qed.

Lemma version_errors_nil m :
  version_errors m = [] <-> WriterMemory.version m = "1.0".
Proof.
  unfold version_errors.
  destruct (String.eqb_spec (WriterMemory.version m) "1.0"); cbn; split;
    congruence.
Qed.

Lemma project_errors_nil p :
  project_errors p = []
  <-> ProjectMeta.name p <> EmptyString /\ ProjectMeta.created p <> EmptyString.
Proof.
  unfold project_errors. rewrite <- !truthy_true.
  destruct (truthy (ProjectMeta.name p)), (truthy (ProjectMeta.created p));
    cbn; split; intros H; try discriminate; try tauto;
    destruct H; discriminate.
Qed.

Lemma character_errors_nil key c :
  character_errors (key, c) = []
  <-> Character.id c = key /\ Character.name c <> EmptyString.
Proof.
  unfold character_errors. rewrite <- truthy_true.
  destruct (String.eqb_spec (Character.id c) key),
    (truthy (Character.name c)); cbn; split; intros H;
    try discriminate; try tauto; destruct H; congruence.
Qed.

Lemma relationship_errors_nil charIds r :
  relationship_errors charIds r = []
  <-> In (Relationship.from r) charIds /\ In (Relationship.to r) charIds.
Proof.
  unfold relationship_errors. rewrite <- !includes_In.
  destruct (includes (Relationship.from r) charIds),
    (includes (Relationship.to r) charIds); cbn; split; intros H;
    try discriminate; try tauto; destruct H; discriminate.
Qed.

Lemma validateMemory_valid_iff (m : WriterMemory.t) :
  valid (validateMemory m) = true <-> well_formed m.
Proof.
  unfold validateMemory, well_formed. cbn [valid].
  rewrite Nat.eqb_eq, length_zero_iff_nil.
  rewrite !app_nil, version_errors_nil, project_errors_nil, !flat_map_nil,
    scene_errors_nil.
  split.
  - intros (Hv & (Hn & Hc) & Hchars & Hrels & Hnd & _).
    refine (conj Hv (conj Hn (conj Hc (conj _ (conj _ Hnd))))).
    + intros key c Hin. now apply character_errors_nil, Hchars.
    + intros r Hin. now apply relationship_errors_nil, Hrels.
  - intros (Hv & Hn & Hc & Hchars & Hrels & Hnd).
    refine (conj Hv (conj (conj Hn Hc) (conj _ (conj _ (conj Hnd _))))).
    + intros [key c] Hin. apply character_errors_nil. now apply Hchars.
    + intros r Hin. apply relationship_errors_nil. now apply Hrels.
    + intros s _ [].
Qed.

(** X3. [validateMemory] finds a document valid exactly when: its version
    is "1.0"; the project has a name and a creation stamp; every character
    is stored under its own id and has a name; both ends of every
    relationship are keys of the character table; and no two scenes share
    an id.  Warnings have no part in it. *)
Theorem validateMemory_valid_exactly_when (m : WriterMemory.t) :
  (valid (validateMemory m) = true <-> well_formed m)
  /\ (valid (validateMemory m) = true <-> errors (validateMemory m) = []).
Proof.
  split; [apply validateMemory_valid_iff|].
  unfold validateMemory. cbn [valid errors].
  now rewrite Nat.eqb_eq, length_zero_iff_nil.
Qed.

(** ** [initMemory] *)

Lemma initMemory_spec projectName genre w :
  exists wb,
    backup_existing (loaded (with_ticks (S (ticks w)) w)
                       (WriterMemory.mk "1.0"
                          (ProjectMeta.mk projectName genre
                             (isoTime (env w) (ticks w))
                             (isoTime (env w) (ticks w)))
                          []
                          (WorldMemory.mk EmptyString EmptyString EmptyString
                             [] [] [] EmptyString)
                          [] [] []
                          (Some (SynopsisState.mk EmptyString EmptyString
                                   EmptyString EmptyString EmptyString
                                   None))))
    = (Ret tt, wb)
    /\ let D :=
         WriterMemory.mk "1.0"
           (ProjectMeta.mk projectName genre (isoTime (env w) (ticks w))
              (isoTime (env w) (ticks wb)))
           []
           (WorldMemory.mk EmptyString EmptyString EmptyString [] [] []
              EmptyString)
           [] [] []
           (Some (SynopsisState.mk EmptyString EmptyString EmptyString
                    EmptyString EmptyString None)) in
       exists w',
         initMemory projectName genre w = (Ret D, w') /\ on_disk w' = Some D.
Proof.
  unfold initMemory, bind at 1. rewrite now_spec.
  unfold bind at 1, alloc at 1.
  set (w1 := with_ticks (S (ticks w)) w).
  set (D0 := WriterMemory.mk _ _ _ _ _ _ _ _).
  change (with_heap (heap w1 ++ [D0]) w1) with (loaded w1 D0).
  destruct (saveMemory_spec (loaded w1 D0) (length (heap w1)) D0)
    as (wb & Hb & Hs).
  { apply lookup_snoc_new. }
  exists wb. split; [exact Hb|]. cbn zeta in Hs |- *.
  unfold bind. rewrite Hs. unfold deref. cbn [heap loaded with_heap].
  rewrite list_lookup_insert_eq by (rewrite length_app; cbn; lia).
  eexists. split; [reflexivity|].
  apply stored_toJSON. reflexivity.
Qed.

(** X4. [initMemory] returns the document it has stored: the store holds
    exactly the document the caller receives.  The document has version
    "1.0", the given name and genre, no character, relationship, scene or
    theme, and its creation stamp is the first reading of the clock.  When
    the clock does not answer with the empty string, [validateMemory] finds
    the document valid exactly when the project name is not empty, and has
    no warning for it exactly when the genre is not empty. *)
Theorem initMemory_stores_what_it_returns (projectName genre : string)
    (w : World) :
  isoTime (env w) (ticks w) <> EmptyString ->
  exists (D : WriterMemory.t) (w' : World),
    initMemory projectName genre w = (Ret D, w')
    /\ on_disk w' = Some D
    /\ WriterMemory.version D = "1.0"
    /\ ProjectMeta.name (WriterMemory.project D) = projectName
    /\ ProjectMeta.genre (WriterMemory.project D) = genre
    /\ ProjectMeta.created (WriterMemory.project D)
       = isoTime (env w) (ticks w)
    /\ WriterMemory.characters D = []
    /\ WriterMemory.relationships D = []
    /\ WriterMemory.scenes D = []
    /\ WriterMemory.themes D = []
    /\ (valid (validateMemory D) = true <-> projectName <> EmptyString)
    /\ (warnings (validateMemory D) = [] <-> genre <> EmptyString).
Proof.
  intros Hclock.
  destruct (initMemory_spec projectName genre w) as (wb & _ & H).
  cbn zeta in H. destruct H as (w' & Hrun & Hdisk).
  eexists _, w'. split; [exact Hrun|]. split; [exact Hdisk|].
  do 8 (split; [reflexivity|]). split.
  - rewrite validateMemory_valid_iff. unfold well_formed. cbn. split.
    + tauto.
    + intros Hn. refine (conj eq_refl (conj Hn (conj Hclock _))).
      split; [intros ? ? []|]. split; [intros ? []|constructor].
  - unfold validateMemory. cbn [warnings]. cbn.
    rewrite app_nil_r. unfold project_warnings. cbn.
    rewrite <- truthy_true. destruct (truthy genre); cbn; split;
      congruence.
Qed.

Lemma initMemory_stores_what_it_returns_witness :
  exists (D : WriterMemory.t) (w' : World),
    initMemory "Temperature of parting" EmptyString Sample.world = (Ret D, w')
    /\ on_disk w' = Some D
    /\ WriterMemory.version D = "1.0"
    /\ ProjectMeta.name (WriterMemory.project D) = "Temperature of parting"
    /\ ProjectMeta.genre (WriterMemory.project D) = EmptyString
    /\ ProjectMeta.created (WriterMemory.project D)
       = isoTime (env Sample.world) (ticks Sample.world)
    /\ WriterMemory.characters D = []
    /\ WriterMemory.relationships D = []
    /\ WriterMemory.scenes D = []
    /\ WriterMemory.themes D = []
    /\ (valid (validateMemory D) = true
        <-> "Temperature of parting" <> EmptyString)
    /\ (warnings (validateMemory D) = [] <-> EmptyString <> EmptyString).
Proof.
  apply (initMemory_stores_what_it_returns "Temperature of parting"
           EmptyString Sample.world).
  vm_compute. discriminate.
Defined.

(** ** Looking characters up *)

Lemma lookup_own_Some_In {A} (k : string) (a : A) (m : list (string * A)) :
  lookup_own k m = Some a -> In (k, a) m.
Proof.
  induction m as [|[k' a'] m IH]; [discriminate|]. cbn.
  destruct (String.eqb_spec k k') as [->|Hne].
  - intros [= ->]. now left.
  - intros H. right. now apply IH.
Qed.

Lemma lookup_own_find_name (chars : list (string * Character.t)) x :
  (forall key c, In (key, c) chars -> Character.name c = key) ->
  lookup_own x chars
  = List.find (fun char => String.eqb (Character.name char) x)
      (Object_values chars).
Proof.
  induction chars as [|[k c] rest IH]; intros Hkeys; [reflexivity|].
  cbn. rewrite (Hkeys k c) by now left.
  rewrite (String.eqb_sym k x).
  destruct (String.eqb x k); [reflexivity|].
  apply IH. intros key c' Hin. apply Hkeys. now right.
Qed.

Lemma find_entry_values {A} (p : A -> bool) (m : list (string * A)) :
  option_map snd (List.find (fun entry => p (snd entry)) m)
  = List.find p (Object_values m).
Proof.
  induction m as [|[k a] rest IH]; [reflexivity|]. cbn.
  destruct (p a); [reflexivity|exact IH].
Qed.

(** X5. When every character is stored under its name, the lookup of the
    character module agrees with the two searches of [memory-manager.ts]:
    for a name that is not one of [Object.prototype], [findCharacter] finds
    the character [findCharacterByName] finds, else the one
    [findCharacterByAlias] finds, else nothing.  A name takes precedence
    over an alias. *)
Theorem findCharacter_is_name_then_alias (m : WriterMemory.t) (x : string) :
  keyed_by_name m ->
  includes x object_prototype_names = false ->
  findCharacter m x
  = match findCharacterByName m x with
    | Some c => FoundCharacter (Character.name c)
    | None =>
        match findCharacterByAlias m x with
        | Some c => FoundCharacter (Character.name c)
        | None => NotFound
        end
    end.
Proof.
  intros Hkeys Hproto. unfold findCharacter, get_property,
    findCharacterByName, findCharacterByAlias.
  rewrite <- (lookup_own_find_name _ x Hkeys).
  destruct (lookup_own x (WriterMemory.characters m)) as [c|] eqn:Hl.
  - apply lookup_own_Some_In in Hl. now rewrite (Hkeys x c Hl).
  - rewrite Hproto.
    rewrite <- (find_entry_values
                  (fun char => includes x (Character.aliases char))).
    destruct (List.find _ _) as [[k c]|] eqn:Hf; [|reflexivity].
    cbn. apply find_some in Hf as [Hin _]. now rewrite (Hkeys k c Hin).
Qed.

Lemma findCharacter_is_name_then_alias_witness :
  findCharacter Sample.doc "Yeoni"
  = match findCharacterByName Sample.doc "Yeoni" with
    | Some c => FoundCharacter (Character.name c)
    | None =>
        match findCharacterByAlias Sample.doc "Yeoni" with
        | Some c => FoundCharacter (Character.name c)
        | None => NotFound
        end
    end.
Proof.
  apply (findCharacter_is_name_then_alias Sample.doc "Yeoni").
  - intros key c [[= <- <-]|[[= <- <-]|[]]]; reflexivity.
  - reflexivity.
Defined.

(** ** [truncate] *)

(** X6. For a limit of at least one code unit, [truncate] returns a text
    that fits the limit: a text within the limit is returned as it is, and
    a longer one is cut to its first [maxLen - 1] code units followed by an
    ellipsis, which makes [maxLen] code units exactly. *)
Theorem truncate_fits (text : option (list N)) (maxLen : Z) :
  1 <= maxLen ->
  Z.of_nat (length (truncate text maxLen)) <= maxLen
  /\ (forall t, text = Some t -> Z.of_nat (length t) <= maxLen ->
        truncate text maxLen = t)
  /\ (forall t, text = Some t -> maxLen < Z.of_nat (length t) ->
        truncate text maxLen = take (Z.to_nat (maxLen - 1)) t ++ [ellipsis]
        /\ Z.of_nat (length (truncate text maxLen)) = maxLen).
Proof.
  intros Hmax.
  assert (Hlong : forall t, maxLen < Z.of_nat (length t) ->
            truncate (Some t) maxLen
            = take (Z.to_nat (maxLen - 1)) t ++ [ellipsis]
            /\ Z.of_nat (length (truncate (Some t) maxLen)) = maxLen).
  { intros t Ht. unfold truncate, slice_to.
    destruct (Nat.eqb_spec (length t) 0) as [H0|_]; [lia|].
    destruct (Z.leb_spec (Z.of_nat (length t)) maxLen) as [|_]; [lia|].
    destruct (Z.ltb_spec (maxLen - 1) 0) as [|_]; [lia|].
    rewrite Z.min_l by lia. split; [reflexivity|].
    rewrite length_app, length_take. cbn. lia. }
  assert (Hshort : forall t, Z.of_nat (length t) <= maxLen ->
            truncate (Some t) maxLen = t).
  { intros t Ht. unfold truncate.
    destruct (Nat.eqb_spec (length t) 0) as [H0|_].
    - destruct t; [reflexivity|discriminate].
    - destruct (Z.leb_spec (Z.of_nat (length t)) maxLen); [reflexivity|lia]. }
  split; [|split].
  - destruct text as [t|]; [|cbn; lia].
    destruct (Z.le_gt_cases (Z.of_nat (length t)) maxLen) as [Hle|Hgt].
    + now rewrite Hshort.
    + destruct (Hlong t Hgt) as [_ ->]. lia.
  - intros t -> Ht. now apply Hshort.
  - intros t -> Ht. now apply Hlong.
Qed.

Lemma truncate_fits_witness :
  Z.of_nat (length (truncate (Some [0xAC00; 0xC694; 46; 32]%N) 3)) <= 3
  /\ (forall t, Some [0xAC00; 0xC694; 46; 32]%N = Some t ->
        Z.of_nat (length t) <= 3 ->
        truncate (Some [0xAC00; 0xC694; 46; 32]%N) 3 = t)
  /\ (forall t, Some [0xAC00; 0xC694; 46; 32]%N = Some t ->
        3 < Z.of_nat (length t) ->
        truncate (Some [0xAC00; 0xC694; 46; 32]%N) 3
        = take (Z.to_nat (3 - 1)) t ++ [ellipsis]
        /\ Z.of_nat (length (truncate (Some [0xAC00; 0xC694; 46; 32]%N) 3))
           = 3).
Proof.
  apply (truncate_fits (Some [0xAC00; 0xC694; 46; 32]%N) 3). lia.
Defined.

(** ** The character module *)

Lemma update_character_at h w D key f :
  h = length (heap w) ->
  update_character h key f (loaded w D)
  = (Ret tt,
     loaded w
       (WriterMemory.set_characters
          (alter_own f key (WriterMemory.characters D)) D)).
Proof. intros ->. unfold update_character. now rewrite modify_loaded. Qed.

Lemma read_character_at h w D key c :
  h = length (heap w) ->
  lookup_own key (WriterMemory.characters D) = Some c ->
  read_character h key (loaded w D) = (Ret c, loaded w D).
Proof. intros ->. apply read_character_loaded. Qed.

Lemma modify_at h w D f :
  h = length (heap w) ->
  modify h f (loaded w D) = (Ret tt, loaded w (f D)).
Proof. intros ->. apply modify_loaded. Qed.

Lemma deref_at h w D :
  h = length (heap w) -> deref h (loaded w D) = (Ret D, loaded w D).
Proof. intros ->. apply deref_loaded. Qed.

Lemma lookup_own_alter_own_eq {A} (f : A -> A) key (m : list (string * A)) a :
  lookup_own key m = Some a ->
  lookup_own key (alter_own f key m) = Some (f a).
Proof.
  induction m as [|[k b] rest IH]; [discriminate|]. cbn.
  destruct (String.eqb key k) eqn:E; cbn; rewrite E.
  - now intros [= ->].
  - exact IH.
Qed.

Lemma lookup_own_alter_own_ne {A} (f : A -> A) key k (m : list (string * A)) :
  k <> key -> lookup_own k (alter_own f key m) = lookup_own k m.
Proof.
  intros Hne. induction m as [|[k' b] rest IH]; [reflexivity|]. cbn.
  destruct (String.eqb_spec key k') as [<-|Hk]; cbn.
  - destruct (String.eqb_spec k key); [contradiction|reflexivity].
  - destruct (String.eqb k k'); [reflexivity|exact IH].
Qed.

Lemma lookup_own_alter_own_None {A} (f : A -> A) key k
    (m : list (string * A)) :
  lookup_own k m = None -> lookup_own k (alter_own f key m) = None.
Proof.
  intros H. destruct (String.eqb_spec k key) as [->|Hne].
  - induction m as [|[k' b] rest IH]; [reflexivity|]. cbn in *.
    destruct (String.eqb key k') eqn:E; [discriminate|]. cbn. rewrite E.
    now apply IH.
  - now rewrite lookup_own_alter_own_ne.
Qed.

Lemma alter_own_compose {A} (f g : A -> A) key (m : list (string * A)) :
  alter_own f key (alter_own g key m) = alter_own (fun a => f (g a)) key m.
Proof.
  induction m as [|[k b] rest IH]; [reflexivity|]. cbn.
  destruct (String.eqb key k) eqn:E; cbn; rewrite E; [reflexivity|].
  now rewrite IH.
Qed.

Lemma map_fst_alter_own {A} (f : A -> A) key (m : list (string * A)) :
  map fst (alter_own f key m) = map fst m.
Proof.
  induction m as [|[k b] rest IH]; [reflexivity|]. cbn.
  destruct (String.eqb key k); cbn; [reflexivity|now rewrite IH].
Qed.

(** A change that leaves the aliases of a character alone does not change
    what a name or an alias resolves to. *)
Lemma findCharacter_alter_own D f key x :
  (forall c, Character.aliases (f c) = Character.aliases c) ->
  findCharacter
    (WriterMemory.set_characters
       (alter_own f key (WriterMemory.characters D)) D) x
  = findCharacter D x.
Proof.
  intros Hf. unfold findCharacter, get_property. cbn [WriterMemory.characters
    WriterMemory.set_characters].
  destruct (lookup_own x (WriterMemory.characters D)) as [c|] eqn:Hl.
  - destruct (String.eqb_spec x key) as [->|Hne].
    + now rewrite (lookup_own_alter_own_eq _ _ _ _ Hl).
    + now rewrite lookup_own_alter_own_ne, Hl.
  - rewrite (lookup_own_alter_own_None _ _ _ _ Hl).
    destruct (includes x object_prototype_names); [reflexivity|].
    clear Hl. induction (WriterMemory.characters D) as [|[k b] rest IH];
      [reflexivity|]. cbn.
    destruct (String.eqb key k) eqn:E; cbn.
    + rewrite Hf. now destruct (includes x (Character.aliases b)).
    + destruct (includes x (Character.aliases b)); [reflexivity|exact IH].
Qed.

Lemma resolveCharacter_spec w D x key c :
  stored w D ->
  findCharacter D x = FoundCharacter key ->
  lookup_own key (WriterMemory.characters D) = Some c ->
  resolveCharacter x w = (Ret (ResolvedCharacter c), loaded w D).
Proof.
  intros Hst Hfind Hc. unfold resolveCharacter, bind at 1.
  rewrite (loadMemory_loaded _ _ Hst).
  unfold bind at 1. rewrite deref_loaded, Hfind.
  unfold bind. now rewrite (read_character_loaded _ _ _ _ Hc).
Qed.

Lemma addEmotionPoint_spec w D name key c emotion trigger options :
  stored w D ->
  findCharacter D name = FoundCharacter key ->
  lookup_own key (WriterMemory.characters D) = Some c ->
  let p :=
    EmotionPoint.mk (isoTime (env w) (ticks w)) (options ≫= opt_sceneId)
      emotion trigger (or_number (options ≫= opt_intensity) 3) in
  exists w' t,
    addEmotionPoint name emotion trigger options w = (Ret true, w')
    /\ on_disk w'
       = Some (set_project_updated t
                 (WriterMemory.set_characters
                    (alter_own
                       (fun c =>
                          Character.set_updated
                            (isoTime (env w) (S (ticks w)))
                            (set_timeline (Character.timeline c ++ [p]) c))
                       key (WriterMemory.characters D)) D)).
Proof.
  intros Hst Hfind Hc p. unfold addEmotionPoint, bind at 1.
  rewrite (loadMemory_loaded _ _ Hst).
  unfold bind at 1. rewrite deref_loaded, Hfind.
  unfold bind at 1. rewrite now_spec.
  unfold bind at 1. rewrite with_ticks_loaded.
  rewrite update_character_at by reflexivity.
  unfold bind at 1. rewrite now_spec.
  unfold bind at 1. rewrite with_ticks_loaded.
  rewrite update_character_at by reflexivity.
  unfold bind at 1.
  match goal with
  | |- context [saveMemory ?h (loaded ?w2 ?D1)] =>
      destruct (saveMemory_at h w2 D1 eq_refl) as (w' & t & Hs & Hdisk)
  end.
  rewrite Hs. cbn. do 2 eexists. split; [reflexivity|].
  rewrite Hdisk. cbn [WriterMemory.characters WriterMemory.set_characters].
  now rewrite alter_own_compose.
Qed.

Lemma Array_join_snoc sep l x :
  l <> [] -> Array_join sep (l ++ [x]) = Array_join sep l +:+ sep +:+ x.
Proof.
  induction l as [|a [|b rest] IH]; [congruence| |]; intros _.
  - reflexivity.
  - change (Array_join sep ((a :: b :: rest) ++ [x]))
      with (a +:+ sep +:+ Array_join sep ((b :: rest) ++ [x])).
    rewrite IH by discriminate.
    change (Array_join sep (a :: b :: rest))
      with (a +:+ sep +:+ Array_join sep (b :: rest)).
    now rewrite !append_assoc.
Qed.

(** X7. After [addEmotionPoint] on a character that a name or an alias
    resolves to, the emotion readers see the new point: it is the last of
    the timeline and the latest emotion, and the arc is the former arc
    with the new emotion at its end.  The point carries the given emotion
    and trigger, and intensity 3 when none, or 0, was given. *)
Theorem addEmotionPoint_then_read (w : World) (D : WriterMemory.t)
    (name key : string) (c : Character.t) (emotion trigger : string)
    (options : option EmotionOptions) :
  stored w D ->
  findCharacter D name = FoundCharacter key ->
  lookup_own key (WriterMemory.characters D) = Some c ->
  exists (w' : World) (p : EmotionPoint.t),
    addEmotionPoint name emotion trigger options w = (Ret true, w')
    /\ EmotionPoint.emotion p = emotion
    /\ EmotionPoint.trigger p = trigger
    /\ EmotionPoint.sceneId p = options ≫= opt_sceneId
    /\ EmotionPoint.intensity p = or_number (options ≫= opt_intensity) 3
    /\ fst (getEmotionTimeline name w') = Ret (Character.timeline c ++ [p])
    /\ fst (getLatestEmotion name w') = Ret (Some p)
    /\ fst (getEmotionArc name w')
       = Ret (Array_join " → "
                (map EmotionPoint.emotion (Character.timeline c)
                 ++ [emotion])).
Proof.
  intros Hst Hfind Hc.
  destruct (addEmotionPoint_spec w D name key c emotion trigger options
              Hst Hfind Hc) as (w' & t & Hrun & Hdisk).
  cbn zeta in Hdisk.
  set (p := EmotionPoint.mk _ _ _ _ _) in Hdisk.
  set (f := fun c0 : Character.t => _) in Hdisk.
  set (D' := set_project_updated t _) in Hdisk.
  assert (Hfind' : findCharacter D' name = FoundCharacter key).
  { subst D'. unfold set_project_updated.
    change (findCharacter
              (WriterMemory.set_characters
                 (alter_own f key (WriterMemory.characters D)) D) name
            = FoundCharacter key).
    rewrite findCharacter_alter_own; [exact Hfind|reflexivity]. }
  assert (Hc' : lookup_own key (WriterMemory.characters D') = Some (f c)).
  { subst D'. cbn. now apply lookup_own_alter_own_eq. }
  assert (Htl : getEmotionTimeline name w'
                = (Ret (Character.timeline c ++ [p]), loaded w' D')).
  { unfold getEmotionTimeline, bind.
    now rewrite (resolveCharacter_spec w' D' name key (f c) Hdisk Hfind' Hc'). }
  exists w', p. split; [exact Hrun|].
  do 4 (split; [reflexivity|]).
  split; [now rewrite Htl|]. split.
  - unfold getLatestEmotion, bind. rewrite Htl. cbn [fst].
    rewrite length_app. cbn [length].
    destruct (Nat.ltb_spec 0 (length (Character.timeline c) + 1)); [|lia].
    f_equal. rewrite lookup_app_r by lia.
    replace (length (Character.timeline c) + 1 - 1
             - length (Character.timeline c))%nat with 0%nat by lia.
    reflexivity.
  - unfold getEmotionArc, bind. rewrite Htl. cbn [fst].
    rewrite length_app. cbn [length].
    destruct (Nat.eqb_spec (length (Character.timeline c) + 1) 0); [lia|].
    cbn [fst]. now rewrite map_app.
Qed.

Lemma addEmotionPoint_then_read_witness :
  exists (w' : World) (p : EmotionPoint.t),
    addEmotionPoint "Yeoni" "longing" "rain" None Sample.world = (Ret true, w')
    /\ EmotionPoint.emotion p = "longing"
    /\ EmotionPoint.trigger p = "rain"
    /\ EmotionPoint.sceneId p = None
    /\ EmotionPoint.intensity p = 3
    /\ fst (getEmotionTimeline "Yeoni" w')
       = Ret (Character.timeline Sample.seoyeon ++ [p])
    /\ fst (getLatestEmotion "Yeoni" w') = Ret (Some p)
    /\ fst (getEmotionArc "Yeoni" w')
       = Ret (Array_join " → "
                (map EmotionPoint.emotion (Character.timeline Sample.seoyeon)
                 ++ ["longing"])).
Proof.
  apply (addEmotionPoint_then_read Sample.world Sample.doc "Yeoni" "Seoyeon"
           Sample.seoyeon "longing" "rain" None);
    reflexivity.
Defined.

Lemma lookup_own_delete_own_eq {A} key (m : list (string * A)) :
  lookup_own key (delete_own key m) = None.
Proof.
  induction m as [|[k b] rest IH]; [reflexivity|]. cbn.
  destruct (String.eqb key k) eqn:E; cbn; [exact IH|]. now rewrite E.
Qed.

Lemma lookup_own_delete_own_ne {A} key k (m : list (string * A)) :
  k <> key -> lookup_own k (delete_own key m) = lookup_own k m.
Proof.
  intros Hne. induction m as [|[k' b] rest IH]; [reflexivity|]. cbn.
  destruct (String.eqb_spec key k') as [<-|Hk]; cbn.
  - destruct (String.eqb_spec k key); [contradiction|exact IH].
  - destruct (String.eqb k k'); [reflexivity|exact IH].
Qed.

Lemma In_map_fst_delete_own {A} key k (m : list (string * A)) :
  In k (map fst (delete_own key m)) <-> k <> key /\ In k (map fst m).
Proof.
  unfold delete_own. rewrite !in_map_iff. split.
  - intros ([k' a] & <- & Hin). apply filter_In in Hin as [Hin Hne].
    cbn in *. split; [|exists (k', a); auto].
    intros ->. now rewrite String.eqb_refl in Hne.
  - intros [Hne ([k' a] & <- & Hin)]. exists (k', a). split; [reflexivity|].
    apply filter_In. split; [exact Hin|]. cbn in *.
    destruct (String.eqb_spec key k'); [congruence|reflexivity].
Qed.

Lemma removeCharacter_spec w D name key c :
  stored w D ->
  findCharacter D name = FoundCharacter key ->
  lookup_own key (WriterMemory.characters D) = Some c ->
  exists w' t,
    removeCharacter name w = (Ret true, w')
    /\ on_disk w'
       = Some (set_project_updated t
                 (WriterMemory.set_characters
                    (delete_own (Character.name c)
                       (WriterMemory.characters D)) D)).
Proof.
  intros Hst Hfind Hc. unfold removeCharacter, bind at 1.
  rewrite (loadMemory_loaded _ _ Hst).
  unfold bind at 1. rewrite deref_loaded, Hfind.
  unfold bind at 1. rewrite (read_character_loaded _ _ _ _ Hc).
  unfold bind at 1. rewrite modify_at by reflexivity.
  unfold bind at 1.
  match goal with
  | |- context [saveMemory ?h (loaded ?w2 ?D1)] =>
      destruct (saveMemory_at h w2 D1 eq_refl) as (w' & t & Hs & Hdisk)
  end.
  rewrite Hs. cbn. do 2 eexists. split; [reflexivity|exact Hdisk].
Qed.

(** X8. [removeCharacter] on a character that a name or an alias resolves
    to reports success and deletes the entry stored under the character's
    [name]: afterwards no entry has that key, every other entry is as it
    was, and relationships, scenes and themes are untouched.  When the
    character is stored under a key that is not its name, the entry found
    is therefore still there. *)
Theorem removeCharacter_deletes_by_name (w : World) (D : WriterMemory.t)
    (name key : string) (c : Character.t) :
  stored w D ->
  findCharacter D name = FoundCharacter key ->
  lookup_own key (WriterMemory.characters D) = Some c ->
  exists (w' : World) (D' : WriterMemory.t),
    removeCharacter name w = (Ret true, w')
    /\ on_disk w' = Some D'
    /\ lookup_own (Character.name c) (WriterMemory.characters D') = None
    /\ (forall k, k <> Character.name c ->
          lookup_own k (WriterMemory.characters D')
          = lookup_own k (WriterMemory.characters D))
    /\ (Character.name c <> key ->
        lookup_own key (WriterMemory.characters D') = Some c)
    /\ WriterMemory.relationships D' = WriterMemory.relationships D
    /\ WriterMemory.scenes D' = WriterMemory.scenes D
    /\ WriterMemory.themes D' = WriterMemory.themes D.
Proof.
  intros Hst Hfind Hc.
  destruct (removeCharacter_spec w D name key c Hst Hfind Hc)
    as (w' & t & Hrun & Hdisk).
  eexists w', _. split; [exact Hrun|]. split; [exact Hdisk|].
  cbn [set_project_updated WriterMemory.set_project
         WriterMemory.set_characters WriterMemory.characters
         WriterMemory.relationships WriterMemory.scenes WriterMemory.themes].
  split; [apply lookup_own_delete_own_eq|].
  split; [intros k Hk; now apply lookup_own_delete_own_ne|].
  split; [|now repeat split].
  intros Hne. rewrite lookup_own_delete_own_ne by congruence. exact Hc.
Qed.

Lemma removeCharacter_deletes_by_name_witness :
  exists (w' : World) (D' : WriterMemory.t),
    removeCharacter "Yeoni" Sample.world = (Ret true, w')
    /\ on_disk w' = Some D'
    /\ lookup_own (Character.name Sample.seoyeon)
         (WriterMemory.characters D') = None
    /\ (forall k, k <> Character.name Sample.seoyeon ->
          lookup_own k (WriterMemory.characters D')
          = lookup_own k (WriterMemory.characters Sample.doc))
    /\ (Character.name Sample.seoyeon <> "Seoyeon" ->
        lookup_own "Seoyeon" (WriterMemory.characters D')
        = Some Sample.seoyeon)
    /\ WriterMemory.relationships D' = WriterMemory.relationships Sample.doc
    /\ WriterMemory.scenes D' = WriterMemory.scenes Sample.doc
    /\ WriterMemory.themes D' = WriterMemory.themes Sample.doc.
Proof.
  apply (removeCharacter_deletes_by_name Sample.world Sample.doc "Yeoni"
           "Seoyeon" Sample.seoyeon);
    reflexivity.
Defined.

Lemma validateMemory_missing_character m r x :
  In r (WriterMemory.relationships m) ->
  Relationship.from r = x \/ Relationship.to r = x ->
  ~ In x (map fst (WriterMemory.characters m)) ->
  In (missing_character_error r x) (errors (validateMemory m))
  /\ valid (validateMemory m) = false.
Proof.
  intros Hr Hend Hx.
  assert (Hin : In (missing_character_error r x) (errors (validateMemory m))).
  { unfold validateMemory. cbn [errors].
    apply in_or_app. right. apply in_or_app. right.
    apply in_or_app. right. apply in_or_app. left.
    apply in_flat_map. exists r. split; [exact Hr|].
    unfold relationship_errors. apply includes_false in Hx.
    destruct Hend as [<-|<-]; rewrite Hx; cbn.
    - now left.
    - apply in_or_app. right. now left. }
  split; [exact Hin|].
  unfold validateMemory in *. cbn [errors valid] in *.
  destruct (_ ++ _); [destruct Hin|reflexivity].
Qed.

(** X9. [removeCharacter] does not look at the relationships: a
    relationship that names the removed character stays in the store, and
    [validateMemory] then reports that it references a character that does
    not exist, and finds the store invalid. *)
Theorem removeCharacter_leaves_relationships_dangling (w : World)
    (D : WriterMemory.t) (name key : string) (c : Character.t)
    (r : Relationship.t) :
  stored w D ->
  findCharacter D name = FoundCharacter key ->
  lookup_own key (WriterMemory.characters D) = Some c ->
  In r (WriterMemory.relationships D) ->
  Relationship.from r = Character.name c
  \/ Relationship.to r = Character.name c ->
  exists (w' : World) (D' : WriterMemory.t),
    removeCharacter name w = (Ret true, w')
    /\ on_disk w' = Some D'
    /\ In r (WriterMemory.relationships D')
    /\ In (missing_character_error r (Character.name c))
         (errors (validateMemory D'))
    /\ valid (validateMemory D') = false.
Proof.
  intros Hst Hfind Hc Hr Hend.
  destruct (removeCharacter_spec w D name key c Hst Hfind Hc)
    as (w' & t & Hrun & Hdisk).
  eexists w', _. split; [exact Hrun|]. split; [exact Hdisk|].
  split; [exact Hr|].
  apply validateMemory_missing_character; [exact Hr|exact Hend|].
  cbn [set_project_updated WriterMemory.set_project
         WriterMemory.set_characters WriterMemory.characters].
  rewrite In_map_fst_delete_own. tauto.
Qed.

Lemma removeCharacter_leaves_relationships_dangling_witness :
  exists (w' : World) (D' : WriterMemory.t),
    removeCharacter "Seoyeon" Sample.world = (Ret true, w')
    /\ on_disk w' = Some D'
    /\ In Sample.seoyeon_minjun (WriterMemory.relationships D')
    /\ In (missing_character_error Sample.seoyeon_minjun
             (Character.name Sample.seoyeon))
         (errors (validateMemory D'))
    /\ valid (validateMemory D') = false.
Proof.
  apply (removeCharacter_leaves_relationships_dangling Sample.world
           Sample.doc "Seoyeon" "Seoyeon" Sample.seoyeon
           Sample.seoyeon_minjun).
  - reflexivity.
  - reflexivity.
  - reflexivity.
  - now left.
  - now left.
Defined.

Lemma findCharacter_key D key c :
  lookup_own key (WriterMemory.characters D) = Some c ->
  findCharacter D key = FoundCharacter key.
Proof. intros H. unfold findCharacter, get_property. now rewrite H. Qed.

Lemma alter_own_ext_at {A} (f g : A -> A) key (m : list (string * A)) a :
  lookup_own key m = Some a -> f a = g a ->
  alter_own f key m = alter_own g key m.
Proof.
  intros Hl Heq. induction m as [|[k b] rest IH]; [reflexivity|].
  cbn in *. destruct (String.eqb key k).
  - injection Hl as ->. now rewrite Heq.
  - f_equal. now apply IH.
Qed.

Lemma find_alter_own_only {A} (p : A -> bool) (f : A -> A) key
    (m : list (string * A)) a :
  (forall k b, In (k, b) m -> p b = false) ->
  lookup_own key m = Some a ->
  p (f a) = true ->
  exists k', List.find (fun entry => p (snd entry)) (alter_own f key m)
             = Some (k', f a)
             /\ k' = key.
Proof.
  intros Hnone Hl Hp. induction m as [|[k b] rest IH]; [discriminate|].
  cbn in *. destruct (String.eqb_spec key k) as [->|Hne].
  - injection Hl as ->. cbn. rewrite Hp. eauto.
  - cbn. rewrite (Hnone k b) by now left.
    apply IH; [|exact Hl]. intros k0 b0 Hin. apply (Hnone k0 b0). now right.
Qed.

Lemma includes_snoc x l : includes x (l ++ [x]) = true.
Proof.
  unfold includes. rewrite existsb_app. cbn. rewrite String.eqb_refl.
  now rewrite orb_true_r.
Qed.

Lemma indexOf_snoc x l :
  includes x l = false -> indexOf x (l ++ [x]) = Some (length l).
Proof.
  unfold includes, indexOf. induction l as [|y l IH]; cbn.
  - now rewrite String.eqb_refl.
  - destruct (String.eqb x y); [discriminate|]. intros H.
    now rewrite (IH H).
Qed.

Lemma delete_snoc {A} (l : list A) (x : A) : delete (length l) (l ++ [x]) = l.
Proof.
  induction l as [|y l IH]; [reflexivity|].
  change (y :: delete (length l) (l ++ [x]) = y :: l). now f_equal.
Qed.

Lemma addAlias_spec w D name key c alias :
  stored w D ->
  findCharacter D name = FoundCharacter key ->
  lookup_own key (WriterMemory.characters D) = Some c ->
  includes alias (Character.aliases c) = false ->
  exists w' t,
    addAlias name alias w = (Ret true, w')
    /\ on_disk w'
       = Some (set_project_updated t
                 (WriterMemory.set_characters
                    (alter_own
                       (fun c =>
                          Character.set_updated (isoTime (env w) (ticks w))
                            (Character.set_aliases
                               (Character.aliases c ++ [alias]) c))
                       key (WriterMemory.characters D)) D))
    /\ env w' = env w.
Proof.
  intros Hst Hfind Hc Hnew. unfold addAlias, bind at 1.
  rewrite (loadMemory_loaded _ _ Hst).
  unfold bind at 1. rewrite deref_loaded, Hfind.
  unfold bind at 1. rewrite (read_character_loaded _ _ _ _ Hc), Hnew.
  cbn [negb]. unfold bind at 1. rewrite update_character_at by reflexivity.
  unfold bind at 1. rewrite now_spec.
  unfold bind at 1. rewrite with_ticks_loaded.
  rewrite update_character_at by reflexivity.
  unfold bind at 1.
  match goal with
  | |- context [saveMemory ?h (loaded ?w2 ?D1)] =>
      destruct (saveMemory_spec (loaded w2 D1) h D1) as (wb & Hb & Hs);
        [apply lookup_snoc_new|]
  end.
  cbn zeta in Hs. rewrite Hs. cbn. do 2 eexists.
  split; [reflexivity|]. split; [|reflexivity].
  unfold on_disk. cbn [memFile]. rewrite WriterMemory_roundtrip.
  cbn [WriterMemory.characters WriterMemory.set_characters].
  now rewrite alter_own_compose.
Qed.

Lemma removeAlias_spec w D name key c alias idx :
  stored w D ->
  findCharacter D name = FoundCharacter key ->
  lookup_own key (WriterMemory.characters D) = Some c ->
  indexOf alias (Character.aliases c) = Some idx ->
  exists w' t,
    removeAlias name alias w = (Ret true, w')
    /\ on_disk w'
       = Some (set_project_updated t
                 (WriterMemory.set_characters
                    (alter_own
                       (fun c =>
                          Character.set_updated (isoTime (env w) (ticks w))
                            (Character.set_aliases
                               (delete idx (Character.aliases c)) c))
                       key (WriterMemory.characters D)) D)).
Proof.
  intros Hst Hfind Hc Hidx. unfold removeAlias, bind at 1.
  rewrite (loadMemory_loaded _ _ Hst).
  unfold bind at 1. rewrite deref_loaded, Hfind.
  unfold bind at 1. rewrite (read_character_loaded _ _ _ _ Hc), Hidx.
  unfold bind at 1. rewrite update_character_at by reflexivity.
  unfold bind at 1. rewrite now_spec.
  unfold bind at 1. rewrite with_ticks_loaded.
  rewrite update_character_at by reflexivity.
  unfold bind at 1.
  match goal with
  | |- context [saveMemory ?h (loaded ?w2 ?D1)] =>
      destruct (saveMemory_at h w2 D1 eq_refl) as (w' & t & Hs & Hdisk)
  end.
  rewrite Hs. cbn. do 2 eexists. split; [reflexivity|].
  rewrite Hdisk. cbn [WriterMemory.characters WriterMemory.set_characters].
  now rewrite alter_own_compose.
Qed.

(** X10. After [addAlias] has given a character an alias that no character
    had, and that is no key of the character table and no name of
    [Object.prototype], [resolveCharacter] finds that character by the
    alias: the character it returns has the id and the name of the one the
    alias was given to, and its aliases are the former ones followed by the
    new one. *)
Theorem addAlias_then_resolveCharacter (w : World) (D : WriterMemory.t)
    (name key : string) (c : Character.t) (alias : string) :
  stored w D ->
  findCharacter D name = FoundCharacter key ->
  lookup_own key (WriterMemory.characters D) = Some c ->
  get_property alias (WriterMemory.characters D) = Absent ->
  (forall k c', In (k, c') (WriterMemory.characters D) ->
                includes alias (Character.aliases c') = false) ->
  exists (w' : World) (c' : Character.t),
    addAlias name alias w = (Ret true, w')
    /\ fst (resolveCharacter alias w') = Ret (ResolvedCharacter c')
    /\ Character.id c' = Character.id c
    /\ Character.name c' = Character.name c
    /\ Character.aliases c' = Character.aliases c ++ [alias]
    /\ Character.timeline c' = Character.timeline c.
Proof.
  intros Hst Hfind Hc Habsent Hnone.
  assert (Hnew : includes alias (Character.aliases c) = false).
  { apply (Hnone key). now apply lookup_own_Some_In. }
  destruct (addAlias_spec w D name key c alias Hst Hfind Hc Hnew)
    as (w' & t & Hrun & Hdisk & _).
  set (f := fun c0 : Character.t => _) in Hdisk.
  set (D' := set_project_updated t _) in Hdisk.
  assert (Hc' : lookup_own key (WriterMemory.characters D') = Some (f c)).
  { subst D'. cbn. now apply lookup_own_alter_own_eq. }
  assert (Hfind' : findCharacter D' alias = FoundCharacter key).
  { unfold findCharacter, get_property. subst D'.
    cbn [set_project_updated WriterMemory.set_project
           WriterMemory.set_characters WriterMemory.characters].
    revert Habsent. unfold get_property.
    destruct (lookup_own alias (WriterMemory.characters D)) eqn:Hl;
      [discriminate|].
    rewrite (lookup_own_alter_own_None _ _ _ _ Hl).
    destruct (includes alias object_prototype_names); [discriminate|].
    intros _.
    destruct (find_alter_own_only
                (fun c0 => includes alias (Character.aliases c0)) f key
                (WriterMemory.characters D) c Hnone Hc)
      as (k' & -> & ->); [|reflexivity].
    subst f. cbn. apply includes_snoc. }
  exists w', (f c). split; [exact Hrun|]. split.
  - now rewrite (resolveCharacter_spec w' D' alias key (f c) Hdisk Hfind' Hc').
  - now repeat split.
Qed.

Lemma addAlias_then_resolveCharacter_witness :
  exists (w' : World) (c' : Character.t),
    addAlias "Minjun" "Junie" Sample.world = (Ret true, w')
    /\ fst (resolveCharacter "Junie" w') = Ret (ResolvedCharacter c')
    /\ Character.id c' = Character.id Sample.minjun
    /\ Character.name c' = Character.name Sample.minjun
    /\ Character.aliases c' = Character.aliases Sample.minjun ++ ["Junie"]
    /\ Character.timeline c' = Character.timeline Sample.minjun.
Proof.
  apply (addAlias_then_resolveCharacter Sample.world Sample.doc "Minjun"
           "Minjun" Sample.minjun "Junie").
  - reflexivity.
  - reflexivity.
  - reflexivity.
  - reflexivity.
  - intros k c' [[= <- <-]|[[= <- <-]|[]]]; reflexivity.
Defined.

(** X11. [removeAlias] undoes [addAlias]: when a character registered
    under [name] is given an alias it did not have and the alias is then
    removed, both calls succeed and the store holds the document it held
    before, but for the time stamps [updated] of the project and of that
    character. *)
Theorem removeAlias_undoes_addAlias (w : World) (D : WriterMemory.t)
    (name : string) (c : Character.t) (alias : string) :
  stored w D ->
  lookup_own name (WriterMemory.characters D) = Some c ->
  includes alias (Character.aliases c) = false ->
  exists (w1 w2 : World) (t t' : string),
    addAlias name alias w = (Ret true, w1)
    /\ removeAlias name alias w1 = (Ret true, w2)
    /\ on_disk w2
       = Some (set_project_updated t
                 (WriterMemory.set_characters
                    (alter_own (Character.set_updated t') name
                       (WriterMemory.characters D)) D)).
Proof.
  intros Hst Hc Hnew.
  destruct (addAlias_spec w D name name c alias Hst
              (findCharacter_key D name c Hc) Hc Hnew)
    as (w1 & t1 & Hrun1 & Hdisk1 & _).
  set (f := fun c0 : Character.t => _) in Hdisk1.
  set (D1 := set_project_updated t1 _) in Hdisk1.
  assert (Hc1 : lookup_own name (WriterMemory.characters D1) = Some (f c)).
  { subst D1. cbn. now apply lookup_own_alter_own_eq. }
  assert (Hidx : indexOf alias (Character.aliases (f c))
                 = Some (length (Character.aliases c))).
  { subst f. cbn. now apply indexOf_snoc. }
  destruct (removeAlias_spec w1 D1 name name (f c) alias _ Hdisk1
              (findCharacter_key D1 name (f c) Hc1) Hc1 Hidx)
    as (w2 & t2 & Hrun2 & Hdisk2).
  exists w1, w2, t2, (isoTime (env w1) (ticks w1)).
  split; [exact Hrun1|]. split; [exact Hrun2|].
  rewrite Hdisk2. subst D1.
  unfold set_project_updated, WriterMemory.set_project,
    WriterMemory.set_characters.
  cbn [WriterMemory.characters WriterMemory.project WriterMemory.version
         WriterMemory.world WriterMemory.relationships WriterMemory.scenes
         WriterMemory.themes WriterMemory.synopsis ProjectMeta.set_updated
         ProjectMeta.name ProjectMeta.genre ProjectMeta.created].
  rewrite alter_own_compose.
  rewrite (alter_own_ext_at _
             (Character.set_updated (isoTime (env w1) (ticks w1)))
             _ _ c Hc); [reflexivity|].
  subst f. cbn. rewrite delete_snoc. now destruct c.
Qed.

Lemma removeAlias_undoes_addAlias_witness :
  exists (w1 w2 : World) (t t' : string),
    addAlias "Minjun" "Junie" Sample.world = (Ret true, w1)
    /\ removeAlias "Minjun" "Junie" w1 = (Ret true, w2)
    /\ on_disk w2
       = Some (set_project_updated t
                 (WriterMemory.set_characters
                    (alter_own (Character.set_updated t') "Minjun"
                       (WriterMemory.characters Sample.doc)) Sample.doc)).
Proof.
  apply (removeAlias_undoes_addAlias Sample.world Sample.doc "Minjun"
           Sample.minjun "Junie");
    reflexivity.
Defined.

(** ** Characters: names and the keys of the table *)

Lemma In_set_own_cases {A} k (v : A) (m : list (string * A)) k' v' :
  In (k', v') (set_own k v m) -> (k' = k /\ v' = v) \/ In (k', v') m.
Proof.
  induction m as [|[k0 a] m IH]; cbn.
  - intros [[= <- <-]|[]]. now left.
  - destruct (String.eqb k k0); cbn.
    + intros [[= <- <-]|H]; [now left|right; now right].
    + intros [H|H]; [right; now left|].
      destruct (IH H) as [?|?]; [now left|right; now right].
Qed.

Lemma In_alter_own_cases {A} (f : A -> A) key (m : list (string * A)) k' v' :
  In (k', v') (alter_own f key m) ->
  In (k', v') m \/ exists v, In (k', v) m /\ v' = f v.
Proof.
  induction m as [|[k0 a] m IH]; cbn; [tauto|].
  destruct (String.eqb key k0); cbn.
  - intros [[= <- <-]|H]; [right; eauto|left; now right].
  - intros [H|H]; [left; now left|].
    destruct (IH H) as [?|(v & ? & ?)]; [left; now right|right; eauto].
Qed.

Lemma keyed_by_name_alter_own D f key :
  keyed_by_name D ->
  (forall c, Character.name (f c) = Character.name c) ->
  forall k c,
    In (k, c) (alter_own f key (WriterMemory.characters D)) ->
    Character.name c = k.
Proof.
  intros HD Hf k c Hin.
  apply In_alter_own_cases in Hin as [Hin|(v & Hin & ->)].
  - now apply HD.
  - rewrite Hf. now apply HD.
Qed.

Lemma keyed_by_name_delete_own D x :
  keyed_by_name D ->
  forall k c,
    In (k, c) (delete_own x (WriterMemory.characters D)) ->
    Character.name c = k.
Proof.
  intros HD k c Hin. unfold delete_own in Hin.
  apply filter_In in Hin as [Hin _]. now apply HD.
Qed.

Lemma addCharacter_taken w D name options :
  stored w D ->
  get_property name (WriterMemory.characters D) <> Absent ->
  addCharacter name options w = (Ret None, loaded w D).
Proof.
  intros Hst Hget. unfold addCharacter, bind at 1.
  rewrite (loadMemory_loaded _ _ Hst).
  unfold bind at 1. rewrite deref_loaded.
  now destruct (get_property name (WriterMemory.characters D)).
Qed.

(** X12. [addCharacter] takes a name that is a key of the character table,
    or a property name of [Object.prototype] such as "constructor", for
    taken: it returns [null] and writes nothing.  For any other name it
    stores a character with that name, no alias and an empty timeline under
    the name; [resolveCharacter] then returns that character for the name,
    and a table in which every character is stored under its name stays
    so. *)
Theorem addCharacter_takes_free_names_only (w : World) (D : WriterMemory.t)
    (name : string) (options : option CharacterOptions) :
  stored w D ->
  ((is_Some (lookup_own name (WriterMemory.characters D))
    \/ In name object_prototype_names) ->
   addCharacter name options w = (Ret None, loaded w D))
  /\ (lookup_own name (WriterMemory.characters D) = None ->
      ~ In name object_prototype_names ->
      exists (c : Character.t) (w' : World) (D' : WriterMemory.t),
        addCharacter name options w = (Ret (Some c), w')
        /\ on_disk w' = Some D'
        /\ Character.name c = name
        /\ Character.aliases c = []
        /\ Character.timeline c = []
        /\ lookup_own name (WriterMemory.characters D') = Some c
        /\ fst (resolveCharacter name w') = Ret (ResolvedCharacter c)
        /\ (keyed_by_name D -> keyed_by_name D')).
Proof.
  intros Hst. split.
  - intros Htaken. apply (addCharacter_taken w D name options Hst).
    unfold get_property.
    destruct (lookup_own name (WriterMemory.characters D)) eqn:Hl;
      [discriminate|].
    destruct Htaken as [[c Hc]|Hin]; [discriminate|].
    apply includes_In in Hin. now rewrite Hin.
  - intros Hnone Hproto.
    assert (Hget : get_property name (WriterMemory.characters D) = Absent).
    { unfold get_property. rewrite Hnone.
      apply includes_false in Hproto. now rewrite Hproto. }
    destruct (addCharacter_absent w D name options Hst Hget)
      as (w' & t & Hrun & Hdisk).
    set (c := Character.mk _ _ _ _ _ _ _ _ _ _ _ _ _ _ _) in *.
    exists c, w'. eexists. split; [exact Hrun|]. split; [exact Hdisk|].
    assert (Hc : lookup_own name
                   (WriterMemory.characters
                      (set_project_updated t
                         (WriterMemory.set_characters
                            (set_own name c (WriterMemory.characters D)) D)))
                 = Some c).
    { cbn. apply lookup_own_set_own. }
    do 3 (split; [reflexivity|]). split; [exact Hc|]. split.
    + rewrite (resolveCharacter_spec w' _ name name c Hdisk); [reflexivity| |].
      * now apply (findCharacter_key _ name c).
      * exact Hc.
    + intros HD k c' Hin. cbn in Hin.
      apply In_set_own_cases in Hin as [[-> ->]|Hin]; [reflexivity|].
      now apply HD.
Qed.

Lemma addCharacter_takes_free_names_only_witness :
  ((is_Some (lookup_own "Jisu" (WriterMemory.characters Sample.doc))
    \/ In "Jisu" object_prototype_names) ->
   addCharacter "Jisu" None Sample.world
   = (Ret None, loaded Sample.world Sample.doc))
  /\ (lookup_own "Jisu" (WriterMemory.characters Sample.doc) = None ->
      ~ In "Jisu" object_prototype_names ->
      exists (c : Character.t) (w' : World) (D' : WriterMemory.t),
        addCharacter "Jisu" None Sample.world = (Ret (Some c), w')
        /\ on_disk w' = Some D'
        /\ Character.name c = "Jisu"
        /\ Character.aliases c = []
        /\ Character.timeline c = []
        /\ lookup_own "Jisu" (WriterMemory.characters D') = Some c
        /\ fst (resolveCharacter "Jisu" w') = Ret (ResolvedCharacter c)
        /\ (keyed_by_name Sample.doc -> keyed_by_name D')).
Proof.
  apply (addCharacter_takes_free_names_only Sample.world Sample.doc "Jisu"
           None).
  reflexivity.
Defined.

(** X13. The operations of the character module keep the character table
    keyed by name: when every character of the store is stored under its
    name, this is so again after [addCharacter], [addAlias],
    [removeAlias], [addEmotionPoint] and [removeCharacter], whatever their
    arguments and whatever they return, also when they throw. *)
Theorem character_operations_keep_the_table_keyed_by_name (w : World)
    (D : WriterMemory.t) :
  stored w D ->
  keyed_by_name D ->
  (forall name options,
     exists D', on_disk (snd (addCharacter name options w)) = Some D'
                /\ keyed_by_name D')
  /\ (forall name alias,
        exists D', on_disk (snd (addAlias name alias w)) = Some D'
                   /\ keyed_by_name D')
  /\ (forall name alias,
        exists D', on_disk (snd (removeAlias name alias w)) = Some D'
                   /\ keyed_by_name D')
  /\ (forall name emotion trigger options,
        exists D',
          on_disk (snd (addEmotionPoint name emotion trigger options w))
          = Some D'
          /\ keyed_by_name D')
  /\ (forall name,
        exists D', on_disk (snd (removeCharacter name w)) = Some D'
                   /\ keyed_by_name D').
Proof.
  intros Hst HD.
  assert (Hsame : forall w0, on_disk w0 = Some D ->
            exists D', on_disk w0 = Some D' /\ keyed_by_name D').
  { intros w0 H0. exists D. auto. }
  split; [|split; [|split; [|split]]].
  - intros name options.
    destruct (get_property name (WriterMemory.characters D)) eqn:Hget.
    + rewrite (addCharacter_taken w D name options Hst) by congruence.
      now apply Hsame.
    + rewrite (addCharacter_taken w D name options Hst) by congruence.
      now apply Hsame.
    + destruct (addCharacter_absent w D name options Hst Hget)
        as (w' & t & -> & Hdisk).
      eexists. split; [exact Hdisk|].
      intros k c' Hin. cbn in Hin.
      apply In_set_own_cases in Hin as [[-> ->]|Hin]; [reflexivity|].
      now apply HD.
  - intros name alias.
    destruct (findCharacter D name) as [key| |] eqn:Hfind.
    + destruct (findCharacter_own D name key Hfind) as [c Hc].
      destruct (includes alias (Character.aliases c)) eqn:Hinc.
      * assert (Hrun : addAlias name alias w = (Ret true, loaded w D)).
        { unfold addAlias, bind at 1. rewrite (loadMemory_loaded _ _ Hst).
          unfold bind at 1. rewrite deref_loaded, Hfind.
          unfold bind at 1. rewrite (read_character_loaded _ _ _ _ Hc).
          now rewrite Hinc. }
        rewrite Hrun. now apply Hsame.
      * destruct (addAlias_spec w D name key c alias Hst Hfind Hc Hinc)
          as (w' & t & -> & Hdisk & _).
        eexists. split; [exact Hdisk|].
        intros k c'. cbn. now apply keyed_by_name_alter_own.
    + assert (Hrun : addAlias name alias w = (Throw, loaded w D)).
      { unfold addAlias, bind at 1. rewrite (loadMemory_loaded _ _ Hst).
        unfold bind. now rewrite deref_loaded, Hfind. }
      rewrite Hrun. now apply Hsame.
    + assert (Hrun : addAlias name alias w = (Ret false, loaded w D)).
      { unfold addAlias, bind at 1. rewrite (loadMemory_loaded _ _ Hst).
        unfold bind. now rewrite deref_loaded, Hfind. }
      rewrite Hrun. now apply Hsame.
  - intros name alias.
    destruct (findCharacter D name) as [key| |] eqn:Hfind.
    + destruct (findCharacter_own D name key Hfind) as [c Hc].
      destruct (indexOf alias (Character.aliases c)) as [idx|] eqn:Hidx.
      * destruct (removeAlias_spec w D name key c alias idx Hst Hfind Hc Hidx)
          as (w' & t & -> & Hdisk).
        eexists. split; [exact Hdisk|].
        intros k c'. cbn. now apply keyed_by_name_alter_own.
      * assert (Hrun : removeAlias name alias w = (Ret false, loaded w D)).
        { unfold removeAlias, bind at 1. rewrite (loadMemory_loaded _ _ Hst).
          unfold bind at 1. rewrite deref_loaded, Hfind.
          unfold bind at 1. rewrite (read_character_loaded _ _ _ _ Hc).
          now rewrite Hidx. }
        rewrite Hrun. now apply Hsame.
    + assert (Hrun : removeAlias name alias w = (Throw, loaded w D)).
      { unfold removeAlias, bind at 1. rewrite (loadMemory_loaded _ _ Hst).
        unfold bind. now rewrite deref_loaded, Hfind. }
      rewrite Hrun. now apply Hsame.
    + assert (Hrun : removeAlias name alias w = (Ret false, loaded w D)).
      { unfold removeAlias, bind at 1. rewrite (loadMemory_loaded _ _ Hst).
        unfold bind. now rewrite deref_loaded, Hfind. }
      rewrite Hrun. now apply Hsame.
  - intros name emotion trigger options.
    destruct (findCharacter D name) as [key| |] eqn:Hfind.
    + destruct (findCharacter_own D name key Hfind) as [c Hc].
      destruct (addEmotionPoint_spec w D name key c emotion trigger options
                  Hst Hfind Hc) as (w' & t & -> & Hdisk).
      eexists. split; [exact Hdisk|].
      intros k c'. cbn. now apply keyed_by_name_alter_own.
    + assert (Hrun : addEmotionPoint name emotion trigger options w
                     = (Throw, with_ticks (S (ticks w)) (loaded w D))).
      { unfold addEmotionPoint, bind at 1.
        rewrite (loadMemory_loaded _ _ Hst).
        unfold bind. now rewrite deref_loaded, Hfind. }
      rewrite Hrun. now apply Hsame.
    + assert (Hrun : addEmotionPoint name emotion trigger options w
                     = (Ret false, loaded w D)).
      { unfold addEmotionPoint, bind at 1.
        rewrite (loadMemory_loaded _ _ Hst).
        unfold bind. now rewrite deref_loaded, Hfind. }
      rewrite Hrun. now apply Hsame.
  - intros name.
    destruct (findCharacter D name) as [key| |] eqn:Hfind.
    + destruct (findCharacter_own D name key Hfind) as [c Hc].
      destruct (removeCharacter_spec w D name key c Hst Hfind Hc)
        as (w' & t & -> & Hdisk).
      eexists. split; [exact Hdisk|].
      intros k c'. cbn. now apply keyed_by_name_delete_own.
    + assert (Hrun : exists w' t,
                removeCharacter name w = (Ret true, w')
                /\ on_disk w'
                   = Some (set_project_updated t
                             (WriterMemory.set_characters
                                (delete_own (inherited_name name)
                                   (WriterMemory.characters D)) D))).
      { unfold removeCharacter, bind at 1.
        rewrite (loadMemory_loaded _ _ Hst).
        unfold bind at 1. rewrite deref_loaded, Hfind.
        unfold bind at 1. rewrite modify_at by reflexivity.
        unfold bind at 1.
        match goal with
        | |- context [saveMemory ?h (loaded ?w2 ?D1)] =>
            destruct (saveMemory_at h w2 D1 eq_refl) as (w' & t & Hs & Hdisk)
        end.
        rewrite Hs. cbn. do 2 eexists. split; [reflexivity|exact Hdisk]. }
      destruct Hrun as (w' & t & -> & Hdisk).
      eexists. split; [exact Hdisk|].
      intros k c'. cbn. now apply keyed_by_name_delete_own.
    + assert (Hrun : removeCharacter name w = (Ret false, loaded w D)).
      { unfold removeCharacter, bind at 1.
        rewrite (loadMemory_loaded _ _ Hst).
        unfold bind. now rewrite deref_loaded, Hfind. }
      rewrite Hrun. now apply Hsame.
Qed.

Lemma character_operations_keep_the_table_keyed_by_name_witness :
  (forall name options,
     exists D', on_disk (snd (addCharacter name options Sample.world))
                = Some D'
                /\ keyed_by_name D')
  /\ (forall name alias,
        exists D', on_disk (snd (addAlias name alias Sample.world)) = Some D'
                   /\ keyed_by_name D')
  /\ (forall name alias,
        exists D', on_disk (snd (removeAlias name alias Sample.world))
                   = Some D'
                   /\ keyed_by_name D')
  /\ (forall name emotion trigger options,
        exists D',
          on_disk (snd (addEmotionPoint name emotion trigger options
                          Sample.world))
          = Some D'
          /\ keyed_by_name D')
  /\ (forall name,
        exists D', on_disk (snd (removeCharacter name Sample.world))
                   = Some D'
                   /\ keyed_by_name D').
Proof.
  apply (character_operations_keep_the_table_keyed_by_name Sample.world
           Sample.doc).
  - reflexivity.
  - intros key c [[= <- <-]|[[= <- <-]|[]]]; reflexivity.
Defined.

(** ** The relationship module *)

Lemma removeRelationship_spec w D a b :
  stored w D ->
  match findIndex (same_pair a b) (WriterMemory.relationships D) with
  | None => removeRelationship a b w = (Ret false, loaded w D)
  | Some index =>
      exists w' t,
        removeRelationship a b w = (Ret true, w')
        /\ on_disk w'
           = Some (set_project_updated t
                     (WriterMemory.set_relationships
                        (delete index (WriterMemory.relationships D)) D))
  end.
Proof.
  intros Hst.
  assert (Hprefix :
    removeRelationship a b w
    = match findIndex (same_pair a b) (WriterMemory.relationships D) with
      | None => ret false
      | Some index =>
          exec! modify (length (heap w))
                  (fun d =>
                     WriterMemory.set_relationships
                       (delete index (WriterMemory.relationships d)) d) in
          let! _ := saveMemory (length (heap w)) in
          ret true
      end (loaded w D)).
  { unfold removeRelationship, bind at 1.
    rewrite (loadMemory_loaded _ _ Hst).
    unfold bind at 1. now rewrite deref_loaded. }
  rewrite Hprefix. clear Hprefix.
  destruct (findIndex _ _) as [index|]; [|reflexivity].
  unfold bind at 1. rewrite modify_at by reflexivity.
  unfold bind at 1.
  match goal with
  | |- context [saveMemory ?h (loaded ?w2 ?D1)] =>
      destruct (saveMemory_at h w2 D1 eq_refl) as (w' & t & Hs & Hdisk)
  end.
  rewrite Hs. cbn. do 2 eexists. split; [reflexivity|exact Hdisk].
Qed.

Lemma findIndex_lookup {A} (p : A -> bool) l i :
  findIndex p l = Some i -> exists a, l !! i = Some a /\ p a = true.
Proof.
  revert i. induction l as [|x l IH]; intros i; [discriminate|]. cbn.
  destruct (p x) eqn:Hp.
  - intros [= <-]. eauto.
  - destruct (findIndex p l) as [j|]; [|discriminate].
    intros [= <-]. cbn. now apply IH.
Qed.

Lemma findIndex_none_existsb {A} (p : A -> bool) l :
  findIndex p l = None <-> existsb p l = false.
Proof.
  induction l as [|x l IH]; cbn; [tauto|].
  destruct (p x); cbn.
  - split; discriminate.
  - rewrite <- IH. destruct (findIndex p l); cbn; split; congruence.
Qed.

Lemma existsb_same_pair a b x l :
  same_pair a b x = true ->
  existsb (same_pair a b) l = existsb
    (same_pair (Relationship.from x) (Relationship.to x)) l.
Proof.
  intros Hx. induction l as [|r l IH]; [reflexivity|]. cbn. rewrite IH.
  f_equal. revert Hx. unfold same_pair.
  rewrite !orb_true_iff, !andb_true_iff, !String.eqb_eq.
  intros [[-> ->]|[-> ->]]; [reflexivity|].
  now rewrite orb_comm.
Qed.

(** In a list with at most one relationship per pair, deleting the first
    relationship of a pair leaves none of that pair. *)
Lemma unique_pairs_delete a b l i :
  unique_pairs l = true ->
  findIndex (same_pair a b) l = Some i ->
  existsb (same_pair a b) (delete i l) = false
  /\ unique_pairs (delete i l) = true.
Proof.
  revert i. induction l as [|x l IH]; intros i; [discriminate|].
  cbn [unique_pairs findIndex]. rewrite andb_true_iff, negb_true_iff.
  intros [Hx Hl]. destruct (same_pair a b x) eqn:Hab.
  - intros [= <-]. cbn. split; [|exact Hl].
    now rewrite (existsb_same_pair a b x l Hab).
  - destruct (findIndex (same_pair a b) l) as [j|] eqn:Hj; [|discriminate].
    intros [= <-]. destruct (IH j Hl eq_refl) as [Hnone Hu].
    change (delete (S j) (x :: l)) with (x :: delete j l).
    cbn. rewrite Hab, Hnone, Hu. split; [reflexivity|].
    rewrite andb_true_r, negb_true_iff.
    apply not_true_is_false. intros Hex.
    apply existsb_exists in Hex as (y & Hy & Hxy).
    assert (Hin : In y l).
    { apply list_elem_of_In. apply list_elem_of_In in Hy.
      revert Hy. clear. revert j. induction l as [|z l IH]; intros [|j];
        cbn; try (intros H; now apply elem_of_nil in H).
      - intros H. now right.
      - intros H. apply elem_of_cons in H as [->|H]; [now left|].
        right. now apply (IH j). }
    apply not_true_iff_false in Hx. apply Hx.
    apply existsb_exists. eauto.
Qed.

Lemma In_delete {A} (l : list A) i y :
  In y (delete i l) -> In y l.
Proof.
  revert i. induction l as [|z l IH]; intros [|i]; cbn; try tauto.
  intros [->|H]; [now left|right; now apply (IH i)].
Qed.

(** X14. [removeRelationship] in a store with at most one relationship per
    pair: when the pair has a relationship, in either orientation, the
    call reports success and afterwards the pair has none; every
    relationship that is left was there before, the store still has at
    most one relationship per pair, and the characters are untouched.
    When the pair has no relationship the call reports [false] and writes
    nothing. *)
Theorem removeRelationship_removes_the_pair (w : World) (D : WriterMemory.t)
    (a b : string) :
  stored w D ->
  unique_pairs (WriterMemory.relationships D) = true ->
  (existsb (same_pair a b) (WriterMemory.relationships D) = false ->
   removeRelationship a b w = (Ret false, loaded w D))
  /\ (existsb (same_pair a b) (WriterMemory.relationships D) = true ->
      exists (w' : World) (D' : WriterMemory.t),
        removeRelationship a b w = (Ret true, w')
        /\ on_disk w' = Some D'
        /\ existsb (same_pair a b) (WriterMemory.relationships D') = false
        /\ existsb (same_pair b a) (WriterMemory.relationships D') = false
        /\ (forall r, In r (WriterMemory.relationships D') ->
                      In r (WriterMemory.relationships D))
        /\ length (WriterMemory.relationships D')
           = (length (WriterMemory.relationships D) - 1)%nat
        /\ unique_pairs (WriterMemory.relationships D') = true
        /\ WriterMemory.characters D' = WriterMemory.characters D).
Proof.
  intros Hst Hu. pose proof (removeRelationship_spec w D a b Hst) as H.
  destruct (findIndex (same_pair a b) (WriterMemory.relationships D))
    as [i|] eqn:Hi.
  - split.
    + intros Hnone. apply findIndex_none_existsb in Hnone. congruence.
    + intros _. destruct H as (w' & t & Hrun & Hdisk).
      destruct (unique_pairs_delete a b _ i Hu Hi) as [Hgone Hu'].
      eexists w', _. split; [exact Hrun|]. split; [exact Hdisk|].
      cbn [set_project_updated WriterMemory.set_project
             WriterMemory.set_relationships WriterMemory.relationships
             WriterMemory.characters].
      split; [exact Hgone|]. split.
      { rewrite <- Hgone. clear.
        induction (delete i (WriterMemory.relationships D)) as [|r l IH];
          [reflexivity|].
        cbn. now rewrite IH, same_pair_sym. }
      split; [intros r; apply In_delete|].
      split; [|split; [exact Hu'|reflexivity]].
      rewrite length_delete; [reflexivity|].
      destruct (findIndex_lookup _ _ _ Hi) as (r & Hr & _). eauto.
  - split; [intros _; exact H|].
    intros Hsome. apply findIndex_none_existsb in Hi. congruence.
Qed.

Lemma removeRelationship_removes_the_pair_witness :
  (existsb (same_pair "Minjun" "Seoyeon")
     (WriterMemory.relationships Sample.doc) = false ->
   removeRelationship "Minjun" "Seoyeon" Sample.world
   = (Ret false, loaded Sample.world Sample.doc))
  /\ (existsb (same_pair "Minjun" "Seoyeon")
        (WriterMemory.relationships Sample.doc) = true ->
      exists (w' : World) (D' : WriterMemory.t),
        removeRelationship "Minjun" "Seoyeon" Sample.world = (Ret true, w')
        /\ on_disk w' = Some D'
        /\ existsb (same_pair "Minjun" "Seoyeon")
             (WriterMemory.relationships D') = false
        /\ existsb (same_pair "Seoyeon" "Minjun")
             (WriterMemory.relationships D') = false
        /\ (forall r, In r (WriterMemory.relationships D') ->
                      In r (WriterMemory.relationships Sample.doc))
        /\ length (WriterMemory.relationships D')
           = (length (WriterMemory.relationships Sample.doc) - 1)%nat
        /\ unique_pairs (WriterMemory.relationships D') = true
        /\ WriterMemory.characters D' = WriterMemory.characters Sample.doc).
Proof.
  apply (removeRelationship_removes_the_pair Sample.world Sample.doc "Minjun"
           "Seoyeon");
    reflexivity.
Defined.

Lemma findIndex_app_none {A} (p : A -> bool) l x :
  List.find p l = None -> p x = true ->
  findIndex p (l ++ [x]) = Some (length l).
Proof.
  intros Hl Hx. induction l as [|y l IH]; cbn in *.
  - now rewrite Hx.
  - destruct (p y); [discriminate|]. now rewrite (IH Hl).
Qed.

(** X15. [removeRelationship] undoes [addRelationship], whichever way
    round the pair is named: when a pair without relationship is given one
    and the relationship is then removed, both calls succeed and the store
    holds the document it held before, but for the time stamp of the
    project. *)
Theorem removeRelationship_undoes_addRelationship (w : World)
    (D : WriterMemory.t) (a b : string) (type : RelationshipType)
    (options : option RelationshipOptions) :
  stored w D ->
  List.find (same_pair a b) (WriterMemory.relationships D) = None ->
  exists (r : Relationship.t) (w1 w2 : World) (t : string),
    addRelationship a b type options w = (Ret (Some r), w1)
    /\ removeRelationship b a w1 = (Ret true, w2)
    /\ on_disk w2 = Some (set_project_updated t D).
Proof.
  intros Hst Hfind.
  destruct (addRelationship_new w D a b type options Hst Hfind)
    as (w1 & t1 & Hrun1 & Hdisk1).
  set (r := Relationship.mk _ _ _ _ _ _ _ _ _) in *.
  pose proof (removeRelationship_spec w1 _ b a Hdisk1) as H.
  cbn [set_project_updated WriterMemory.set_project
         WriterMemory.set_relationships WriterMemory.relationships] in H.
  rewrite findIndex_app_none in H.
  - destruct H as (w2 & t2 & Hrun2 & Hdisk2).
    exists r, w1, w2, t2. split; [exact Hrun1|]. split; [exact Hrun2|].
    rewrite Hdisk2. rewrite delete_snoc. now destruct D.
  - rewrite (find_ext (same_pair b a) (same_pair a b))
      by (intros x; apply same_pair_sym).
    exact Hfind.
  - unfold same_pair, r. cbn. now rewrite !String.eqb_refl, orb_true_r.
Qed.

Lemma removeRelationship_undoes_addRelationship_witness :
  exists (r : Relationship.t) (w1 w2 : World) (t : string),
    addRelationship "Minjun" "Jisu" friendship None Sample.world
    = (Ret (Some r), w1)
    /\ removeRelationship "Jisu" "Minjun" w1 = (Ret true, w2)
    /\ on_disk w2 = Some (set_project_updated t Sample.doc).
Proof.
  apply (removeRelationship_undoes_addRelationship Sample.world Sample.doc
           "Minjun" "Jisu" friendship None);
    reflexivity.
Defined.

(** X16. [addRelationship] does not look at the characters: for a pair
    without relationship it succeeds also when one of the two names is no
    key of the character table, and [validateMemory] then reports that the
    new relationship references a character that does not exist, and finds
    the store invalid. *)
Theorem addRelationship_accepts_unknown_characters (w : World)
    (D : WriterMemory.t) (a b : string) (type : RelationshipType)
    (options : option RelationshipOptions) (x : string) :
  stored w D ->
  List.find (same_pair a b) (WriterMemory.relationships D) = None ->
  x = a \/ x = b ->
  ~ In x (map fst (WriterMemory.characters D)) ->
  exists (r : Relationship.t) (w' : World) (D' : WriterMemory.t),
    addRelationship a b type options w = (Ret (Some r), w')
    /\ on_disk w' = Some D'
    /\ In r (WriterMemory.relationships D')
    /\ Relationship.from r = a /\ Relationship.to r = b
    /\ In (missing_character_error r x) (errors (validateMemory D'))
    /\ valid (validateMemory D') = false.
Proof.
  intros Hst Hfind Hx Hunknown.
  destruct (addRelationship_new w D a b type options Hst Hfind)
    as (w' & t & Hrun & Hdisk).
  set (r := Relationship.mk _ _ _ _ _ _ _ _ _) in *.
  exists r, w'. eexists. split; [exact Hrun|]. split; [exact Hdisk|].
  assert (Hin : In r (WriterMemory.relationships
                        (set_project_updated t
                           (WriterMemory.set_relationships
                              (WriterMemory.relationships D ++ [r]) D)))).
  { cbn. apply in_or_app. right. now left. }
  split; [exact Hin|]. split; [reflexivity|]. split; [reflexivity|].
  apply validateMemory_missing_character; [exact Hin| |exact Hunknown].
  destruct Hx as [->| ->]; [now left|now right].
Qed.

Lemma addRelationship_accepts_unknown_characters_witness :
  exists (r : Relationship.t) (w' : World) (D' : WriterMemory.t),
    addRelationship "Minjun" "Jisu" friendship None Sample.world
    = (Ret (Some r), w')
    /\ on_disk w' = Some D'
    /\ In r (WriterMemory.relationships D')
    /\ Relationship.from r = "Minjun" /\ Relationship.to r = "Jisu"
    /\ In (missing_character_error r "Jisu") (errors (validateMemory D'))
    /\ valid (validateMemory D') = false.
Proof.
  apply (addRelationship_accepts_unknown_characters Sample.world Sample.doc
           "Minjun" "Jisu" friendship None "Jisu").
  - reflexivity.
  - reflexivity.
  - now right.
  - intros [H|[H|[]]]; discriminate.
Defined.

Lemma listRelationships_spec w D characterName :
  stored w D ->
  listRelationships characterName w
  = (Ret (match characterName with
          | Some name =>
              if truthy name then
                List.filter
                  (fun r =>
                     String.eqb (Relationship.from r) name
                     || String.eqb (Relationship.to r) name)
                  (WriterMemory.relationships D)
              else WriterMemory.relationships D
          | None => WriterMemory.relationships D
          end),
     loaded w D).
Proof.
  intros Hst. unfold listRelationships, bind at 1.
  rewrite (loadMemory_loaded _ _ Hst).
  unfold bind. rewrite deref_loaded.
  destruct characterName as [name|]; [|reflexivity].
  now destruct (truthy name).
Qed.

(** X17. For a name that is not empty, [getCharacterConnections] lists one
    connection for every stored relationship one end of which is the name,
    in the sequence of the store and no other; the other character of a
    connection is the other end of its relationship (the name itself when
    both ends are the name), and the direction is always [mutual]. *)
Theorem getCharacterConnections_other_end (w : World) (D : WriterMemory.t)
    (characterName : string) :
  stored w D ->
  characterName <> EmptyString ->
  exists conns : list Connection.t,
    fst (getCharacterConnections characterName w) = Ret conns
    /\ map Connection.relationship conns
       = List.filter
           (fun r =>
              String.eqb (Relationship.from r) characterName
              || String.eqb (Relationship.to r) characterName)
           (WriterMemory.relationships D)
    /\ forall conn, In conn conns ->
         In (Connection.relationship conn) (WriterMemory.relationships D)
         /\ same_pair characterName (Connection.otherCharacter conn)
              (Connection.relationship conn) = true
         /\ Connection.direction conn = mutual.
Proof.
  intros Hst Hname. unfold getCharacterConnections, bind.
  rewrite (listRelationships_spec w D _ Hst).
  apply truthy_true in Hname. rewrite Hname. cbn [fst].
  eexists. split; [reflexivity|]. split.
  - rewrite map_map. cbn. apply map_id.
  - intros conn Hin. apply in_map_iff in Hin as (r & <- & Hr).
    apply filter_In in Hr as [Hr Hends]. cbn.
    split; [exact Hr|]. split; [|reflexivity].
    unfold same_pair.
    destruct (String.eqb (Relationship.from r) characterName) eqn:Hfrom;
      cbn in Hends |- *.
    + now rewrite String.eqb_refl.
    + now rewrite Hends, String.eqb_refl.
Qed.

Lemma getCharacterConnections_other_end_witness :
  exists conns : list Connection.t,
    fst (getCharacterConnections "Minjun" Sample.world) = Ret conns
    /\ map Connection.relationship conns
       = List.filter
           (fun r =>
              String.eqb (Relationship.from r) "Minjun"
              || String.eqb (Relationship.to r) "Minjun")
           (WriterMemory.relationships Sample.doc)
    /\ forall conn, In conn conns ->
         In (Connection.relationship conn)
           (WriterMemory.relationships Sample.doc)
         /\ same_pair "Minjun" (Connection.otherCharacter conn)
              (Connection.relationship conn) = true
         /\ Connection.direction conn = mutual.
Proof.
  apply (getCharacterConnections_other_end Sample.world Sample.doc "Minjun").
  - reflexivity.
  - discriminate.
Defined.

Lemma ListNoDup_snoc {A} (s : list A) (x : A) :
  List.NoDup s -> ~ In x s -> List.NoDup (s ++ [x]).
Proof.
  induction 1 as [|y s Hy Hnd IH]; cbn; intros Hx.
  - constructor; [intros []|constructor].
  - constructor.
    + rewrite in_app_iff. cbn. intuition.
    + apply IH. intuition.
Qed.

Lemma Set_add_NoDup x s : List.NoDup s -> List.NoDup (Set_add x s).
Proof.
  intros Hnd. unfold Set_add. destruct (includes x s) eqn:Hinc; [exact Hnd|].
  apply includes_false in Hinc. now apply ListNoDup_snoc.
Qed.

Lemma In_Set_add x y s : In y (Set_add x s) <-> y = x \/ In y s.
Proof.
  unfold Set_add. destruct (includes x s) eqn:Hinc.
  - apply includes_In in Hinc. split; [now right|].
    intros [->|H]; assumption.
  - rewrite in_app_iff. cbn. intuition.
Qed.

Lemma web_fold_spec rels :
  forall nodes edges,
    List.NoDup nodes ->
    let acc := fold_left web_step rels (nodes, edges) in
    List.NoDup (fst acc)
    /\ (forall x, In x (fst acc)
                  <-> In x nodes
                      \/ exists r, In r rels
                                   /\ (Relationship.from r = x
                                       \/ Relationship.to r = x))
    /\ snd acc
       = edges
         ++ map (fun r => Edge.mk (Relationship.from r) (Relationship.to r)
                            (Relationship.type r)) rels.
Proof.
  induction rels as [|r rels IH]; intros nodes edges Hnd; cbn zeta.
  - cbn. split; [exact Hnd|]. split; [|now rewrite app_nil_r].
    intros x. split; [now left|]. intros [H|(r & [] & _)]. exact H.
  - cbn [fold_left].
    change (web_step (nodes, edges) r)
      with (Set_add (Relationship.to r)
              (Set_add (Relationship.from r) nodes),
            edges ++ [Edge.mk (Relationship.from r) (Relationship.to r)
                        (Relationship.type r)]).
    specialize (IH (Set_add (Relationship.to r)
                      (Set_add (Relationship.from r) nodes))
                  (edges ++ [Edge.mk (Relationship.from r)
                               (Relationship.to r) (Relationship.type r)])).
    cbn zeta in IH.
    destruct IH as (Hnd' & Hin & Hedges);
      [now apply Set_add_NoDup, Set_add_NoDup|].
    split; [exact Hnd'|]. split.
    + intros x. rewrite Hin, !In_Set_add. split.
      * intros [[->|[->|H]]|(r' & Hr' & Hx)].
        -- right. exists r. split; [now left|now right].
        -- right. exists r. split; [now left|now left].
        -- now left.
        -- right. exists r'. split; [now right|exact Hx].
      * intros [H|(r' & [<-|Hr'] & [Hx|Hx])]; eauto 6.
    + rewrite Hedges, <- app_assoc. reflexivity.
Qed.

(** X18. The graph [getRelationshipWeb] returns has every character name
    that is an end of a stored relationship as a node, exactly once, and
    nothing else; it has one edge for every relationship, in the sequence
    of the store, with the two ends and the type of the relationship. *)
Theorem getRelationshipWeb_nodes_and_edges (w : World) (D : WriterMemory.t) :
  stored w D ->
  exists web : RelationshipWeb.t,
    fst (getRelationshipWeb w) = Ret web
    /\ List.NoDup (RelationshipWeb.nodes web)
    /\ (forall x, In x (RelationshipWeb.nodes web)
                  <-> exists r, In r (WriterMemory.relationships D)
                                /\ (Relationship.from r = x
                                    \/ Relationship.to r = x))
    /\ RelationshipWeb.edges web
       = map (fun r => Edge.mk (Relationship.from r) (Relationship.to r)
                         (Relationship.type r))
           (WriterMemory.relationships D).
Proof.
  intros Hst. unfold getRelationshipWeb, bind at 1.
  rewrite (loadMemory_loaded _ _ Hst).
  unfold bind. rewrite deref_loaded. cbn [fst].
  destruct (web_fold_spec (WriterMemory.relationships D) [] [])
    as (Hnd & Hin & Hedges); [constructor|].
  eexists. split; [reflexivity|]. cbn [RelationshipWeb.nodes
    RelationshipWeb.edges].
  split; [exact Hnd|]. split; [|exact Hedges].
  intros x. rewrite Hin. split; [intros [[]|H]; exact H|now right].
Qed.

Lemma getRelationshipWeb_nodes_and_edges_witness :
  exists web : RelationshipWeb.t,
    fst (getRelationshipWeb Sample.world) = Ret web
    /\ List.NoDup (RelationshipWeb.nodes web)
    /\ (forall x, In x (RelationshipWeb.nodes web)
                  <-> exists r, In r (WriterMemory.relationships Sample.doc)
                                /\ (Relationship.from r = x
                                    \/ Relationship.to r = x))
    /\ RelationshipWeb.edges web
       = map (fun r => Edge.mk (Relationship.from r) (Relationship.to r)
                         (Relationship.type r))
           (WriterMemory.relationships Sample.doc).
Proof.
  apply (getRelationshipWeb_nodes_and_edges Sample.world Sample.doc).
  reflexivity.
Defined.

(** ** The scene module: orders *)

(** X19. [addScene] on a store whose scene orders are dense appends a scene
    with the given title, no cut and the next free order, and the orders
    are dense again; the scenes that were there are untouched. *)
Theorem addScene_appends_in_order (w : World) (D : WriterMemory.t)
    (title : string) (options : option SceneOptions) :
  stored w D ->
  dense (map Scene.order (WriterMemory.scenes D)) ->
  exists (s : Scene.t) (w' : World) (D' : WriterMemory.t),
    addScene title options w = (Ret (Some s), w')
    /\ on_disk w' = Some D'
    /\ WriterMemory.scenes D' = WriterMemory.scenes D ++ [s]
    /\ Scene.order s = Z.of_nat (length (WriterMemory.scenes D))
    /\ dense (map Scene.order (WriterMemory.scenes D')).
Proof.
  intros Hst Hd.
  destruct (addScene_spec w D title options Hst)
    as (w' & t & s & Hrun & Horder & Hdisk).
  exists s, w'. eexists. split; [exact Hrun|]. split; [exact Hdisk|].
  cbn [set_project_updated WriterMemory.set_project WriterMemory.set_scenes
         WriterMemory.scenes].
  split; [reflexivity|]. split; [exact Horder|].
  rewrite map_app. cbn. rewrite Horder.
  rewrite <- (length_map Scene.order). now apply dense_snoc.
Qed.

Lemma addScene_appends_in_order_witness :
  exists (s : Scene.t) (w' : World) (D' : WriterMemory.t),
    addScene "Reunion" None Sample.world = (Ret (Some s), w')
    /\ on_disk w' = Some D'
    /\ WriterMemory.scenes D' = WriterMemory.scenes Sample.doc ++ [s]
    /\ Scene.order s = Z.of_nat (length (WriterMemory.scenes Sample.doc))
    /\ dense (map Scene.order (WriterMemory.scenes D')).
Proof.
  apply (addScene_appends_in_order Sample.world Sample.doc "Reunion" None).
  - reflexivity.
  - exact (dense_index_range 2).
Defined.

Lemma renumber_scenes_lookup (l : list Scene.t) k :
  renumber_scenes l !! k = Scene.set_order (Z.of_nat k) <$> l !! k.
Proof.
  unfold renumber_scenes. rewrite list_lookup_imap. now destruct (l !! k).
Qed.

Lemma map_id_renumber_scenes (l : list Scene.t) :
  map Scene.id (renumber_scenes l) = map Scene.id l.
Proof.
  apply list_eq. intros k.
  rewrite !list_lookup_fmap, renumber_scenes_lookup.
  now destruct (l !! k).
Qed.

Lemma map_delete {A B} (f : A -> B) (l : list A) i :
  map f (delete i l) = delete i (map f l).
Proof.
  revert i. induction l as [|x l IH]; intros [|i]; cbn; try reflexivity.
  change (f x :: map f (delete i l) = f x :: delete i (map f l)).
  now rewrite IH.
Qed.

(** X20. [removeScene] renumbers: for a known id it removes the first
    scene with that id, keeps the others in their sequence, each as it was
    but for its order, and gives them the orders [0 .. n-2], whatever the
    orders were before.  For an unknown id it reports [false] and writes
    nothing. *)
Theorem removeScene_renumbers (w : World) (D : WriterMemory.t)
    (sceneId : string) :
  stored w D ->
  (findSceneById D sceneId = None ->
   removeScene sceneId w = (Ret false, loaded w D))
  /\ (forall index,
        findSceneById D sceneId = Some index ->
        exists (w' : World) (D' : WriterMemory.t),
          removeScene sceneId w = (Ret true, w')
          /\ on_disk w' = Some D'
          /\ map Scene.id (WriterMemory.scenes D')
             = delete index (map Scene.id (WriterMemory.scenes D))
          /\ map Scene.order (WriterMemory.scenes D')
             = index_range (length (WriterMemory.scenes D) - 1)
          /\ forall k s',
               WriterMemory.scenes D' !! k = Some s' ->
               exists s,
                 delete index (WriterMemory.scenes D) !! k = Some s
                 /\ s' = Scene.set_order (Z.of_nat k) s).
Proof.
  intros Hst. pose proof (removeScene_spec w D sceneId Hst) as H.
  unfold findSceneById. split.
  - intros Hnone. now rewrite Hnone in H.
  - intros index Hsome. rewrite Hsome in H.
    destruct H as (w' & t & Hrun & Hdisk).
    exists w'. eexists. split; [exact Hrun|]. split; [exact Hdisk|].
    cbn [set_project_updated WriterMemory.set_project
           WriterMemory.set_scenes WriterMemory.scenes].
    split; [now rewrite map_id_renumber_scenes, map_delete|].
    split.
    + rewrite renumber_scenes_orders, length_delete; [reflexivity|].
      destruct (findIndex_lookup _ _ _ Hsome) as (s & Hs & _). eauto.
    + intros k s'. rewrite renumber_scenes_lookup.
      destruct (delete index (WriterMemory.scenes D) !! k) as [s|];
        cbn; [|discriminate].
      intros [= <-]. eauto.
Qed.

Lemma removeScene_renumbers_witness :
  (findSceneById Sample.doc "scene_a" = None ->
   removeScene "scene_a" Sample.world
   = (Ret false, loaded Sample.world Sample.doc))
  /\ (forall index,
        findSceneById Sample.doc "scene_a" = Some index ->
        exists (w' : World) (D' : WriterMemory.t),
          removeScene "scene_a" Sample.world = (Ret true, w')
          /\ on_disk w' = Some D'
          /\ map Scene.id (WriterMemory.scenes D')
             = delete index (map Scene.id (WriterMemory.scenes Sample.doc))
          /\ map Scene.order (WriterMemory.scenes D')
             = index_range (length (WriterMemory.scenes Sample.doc) - 1)
          /\ forall k s',
               WriterMemory.scenes D' !! k = Some s' ->
               exists s,
                 delete index (WriterMemory.scenes Sample.doc) !! k = Some s
                 /\ s' = Scene.set_order (Z.of_nat k) s).
Proof.
  apply (removeScene_renumbers Sample.world Sample.doc "scene_a").
  reflexivity.
Defined.



Lemma renumber_cuts_lookup (l : list Cut.t) k :
  renumber_cuts l !! k = Cut.set_order (Z.of_nat k) <$> l !! k.
Proof.
  unfold renumber_cuts. rewrite list_lookup_imap. now destruct (l !! k).
Qed.

(** X22. The cuts of a scene keep dense orders.  [addCut] appends a cut
    with the content given and the next free order, so dense orders stay
    dense.  [removeCut] removes the first cut with the order given, keeps
    the others in their sequence, each as it was but for its order, and
    renumbers them [0 .. m-2]; for an order no cut has it reports [false]
    and writes nothing.  No other scene is touched. *)
Theorem addCut_and_removeCut_keep_cut_orders_dense (w : World)
    (D : WriterMemory.t) (sceneId : string) (i : nat) (s : Scene.t)
    (cut : CutInput) (cutOrder : Z) :
  stored w D ->
  findSceneById D sceneId = Some i ->
  WriterMemory.scenes D !! i = Some s ->
  (exists (w' : World) (D' : WriterMemory.t) (cuts' : list Cut.t),
     addCut sceneId cut w = (Ret true, w')
     /\ on_disk w' = Some D'
     /\ WriterMemory.scenes D'
        = <[i := Scene.set_cuts cuts' s]> (WriterMemory.scenes D)
     /\ cuts'
        = Scene.cuts s
          ++ [Cut.mk (Z.of_nat (length (Scene.cuts s))) (cut_type cut)
                (cut_content cut) (cut_character cut) (cut_emotionTag cut)]
     /\ (dense (map Cut.order (Scene.cuts s)) ->
         dense (map Cut.order cuts')))
  /\ (findIndex (fun c => Z.eqb (Cut.order c) cutOrder) (Scene.cuts s) = None ->
      removeCut sceneId cutOrder w = (Ret false, loaded w D))
  /\ (forall index,
        findIndex (fun c => Z.eqb (Cut.order c) cutOrder) (Scene.cuts s)
        = Some index ->
        exists (w' : World) (D' : WriterMemory.t) (cuts' : list Cut.t),
          removeCut sceneId cutOrder w = (Ret true, w')
          /\ on_disk w' = Some D'
          /\ WriterMemory.scenes D'
             = <[i := Scene.set_cuts cuts' s]> (WriterMemory.scenes D)
          /\ map Cut.order cuts' = index_range (length (Scene.cuts s) - 1)
          /\ forall k c',
               cuts' !! k = Some c' ->
               exists c,
                 delete index (Scene.cuts s) !! k = Some c
                 /\ c' = Cut.set_order (Z.of_nat k) c).
Proof.
  intros Hst Hfind Hs. split; [|split].
  - destruct (addCut_spec w D sceneId i s cut Hst Hfind Hs)
      as (w' & t & Hrun & Hdisk).
    exists w'. do 2 eexists. split; [exact Hrun|]. split; [exact Hdisk|].
    split; [reflexivity|]. split; [reflexivity|].
    intros Hd. rewrite map_app. cbn.
    rewrite <- (length_map Cut.order). now apply dense_snoc.
  - intros Hnone.
    pose proof (removeCut_spec w D sceneId i s cutOrder Hst Hfind Hs) as H.
    now rewrite Hnone in H.
  - intros index Hsome.
    pose proof (removeCut_spec w D sceneId i s cutOrder Hst Hfind Hs) as H.
    rewrite Hsome in H. destruct H as (w' & t & Hrun & Hdisk).
    exists w'. do 2 eexists. split; [exact Hrun|]. split; [exact Hdisk|].
    split; [reflexivity|]. split.
    + rewrite renumber_cuts_orders, length_delete; [reflexivity|].
      destruct (findIndex_lookup _ _ _ Hsome) as (c & Hc & _). eauto.
    + intros k c'. rewrite renumber_cuts_lookup.
      destruct (delete index (Scene.cuts s) !! k) as [c|];
        cbn; [|discriminate].
      intros [= <-]. eauto.
Qed.

Lemma addCut_and_removeCut_keep_cut_orders_dense_witness :
  let cut := mkCutInput narration "four" None None in
  (exists (w' : World) (D' : WriterMemory.t) (cuts' : list Cut.t),
     addCut "scene_a" cut Sample.world = (Ret true, w')
     /\ on_disk w' = Some D'
     /\ WriterMemory.scenes D'
        = <[0%nat := Scene.set_cuts cuts' Sample.scene_a]>
            (WriterMemory.scenes Sample.doc)
     /\ cuts'
        = Scene.cuts Sample.scene_a
          ++ [Cut.mk (Z.of_nat (length (Scene.cuts Sample.scene_a)))
                (cut_type cut) (cut_content cut) (cut_character cut)
                (cut_emotionTag cut)]
     /\ (dense (map Cut.order (Scene.cuts Sample.scene_a)) ->
         dense (map Cut.order cuts')))
  /\ (findIndex (fun c => Z.eqb (Cut.order c) 1) (Scene.cuts Sample.scene_a)
      = None ->
      removeCut "scene_a" 1 Sample.world
      = (Ret false, loaded Sample.world Sample.doc))
  /\ (forall index,
        findIndex (fun c => Z.eqb (Cut.order c) 1)
          (Scene.cuts Sample.scene_a)
        = Some index ->
        exists (w' : World) (D' : WriterMemory.t) (cuts' : list Cut.t),
          removeCut "scene_a" 1 Sample.world = (Ret true, w')
          /\ on_disk w' = Some D'
          /\ WriterMemory.scenes D'
             = <[0%nat := Scene.set_cuts cuts' Sample.scene_a]>
                 (WriterMemory.scenes Sample.doc)
          /\ map Cut.order cuts'
             = index_range (length (Scene.cuts Sample.scene_a) - 1)
          /\ forall k c',
               cuts' !! k = Some c' ->
               exists c,
                 delete index (Scene.cuts Sample.scene_a) !! k = Some c
                 /\ c' = Cut.set_order (Z.of_nat k) c).
Proof.
  cbv zeta.
  apply (addCut_and_removeCut_keep_cut_orders_dense Sample.world Sample.doc
           "scene_a" 0%nat Sample.scene_a
           (mkCutInput narration "four" None None) 1);
    reflexivity.
Defined.

(** ** The scene module: updates *)



Lemma updateScene_spec w D sceneId i s updates :
  stored w D ->
  findSceneById D sceneId = Some i ->
  WriterMemory.scenes D !! i = Some s ->
  exists w' t,
    updateScene sceneId updates w = (Ret (Some (assign_scene updates s)), w')
    /\ on_disk w'
       = Some (set_project_updated t
                 (WriterMemory.set_scenes
                    (<[i := assign_scene updates s]> (WriterMemory.scenes D))
                    D)).
Proof.
  intros Hst Hfind Hs. unfold updateScene, try_catch, bind at 1.
  rewrite (loadMemory_loaded _ _ Hst).
  unfold bind at 1. rewrite deref_nullable_loaded, Hfind.
  unfold bind at 1. rewrite update_scene_at by reflexivity.
  rewrite (alter_as_insert _ _ _ s Hs).
  unfold bind at 1.
  match goal with
  | |- context [saveMemory ?h (loaded ?w2 ?D1)] =>
      destruct (saveMemory_spec (loaded w2 D1) h D1) as (wb & Hb & Hsave);
        [apply lookup_snoc_new|]
  end.
  cbn zeta in Hsave. rewrite Hsave. clear Hsave.
  unfold bind at 1, read_scene, bind, deref. cbn [heap loaded with_heap].
  rewrite list_lookup_insert_eq by (rewrite length_app; cbn; lia).
  cbn [set_project_updated WriterMemory.set_project WriterMemory.set_scenes
         WriterMemory.scenes].
  rewrite list_lookup_insert_eq by (now apply lookup_lt_Some in Hs).
  do 2 eexists. split; [reflexivity|].
  unfold on_disk. cbn [memFile]. now rewrite WriterMemory_roundtrip.
Qed.



Lemma dense_in_range (orders : list Z) (k : Z) :
  dense orders -> In k orders -> 0 <= k < Z.of_nat (length orders).
Proof.
  unfold dense. intros Hd Hk. apply list_elem_of_In in Hk.
  rewrite Hd in Hk. apply list_elem_of_In, in_map_iff in Hk as (j & <- & Hj).
  apply in_seq in Hj. lia.
Qed.

(** X24. [updateScene] does not protect the order of a scene: an order
    carried by the updates is stored as it is.  When it lies outside
    [0 .. n-1], the orders of the store are no longer dense. *)
Theorem updateScene_writes_any_order (w : World) (D : WriterMemory.t)
    (sceneId : string) (i : nat) (s : Scene.t) (updates : SceneUpdates.t)
    (k : Z) :
  stored w D ->
  findSceneById D sceneId = Some i ->
  WriterMemory.scenes D !! i = Some s ->
  SceneUpdates.order updates = Some k ->
  k < 0 \/ Z.of_nat (length (WriterMemory.scenes D)) <= k ->
  exists (w' : World) (D' : WriterMemory.t) (s' : Scene.t),
    updateScene sceneId updates w = (Ret (Some s'), w')
    /\ on_disk w' = Some D'
    /\ WriterMemory.scenes D' !! i = Some s'
    /\ Scene.order s' = k
    /\ ~ dense (map Scene.order (WriterMemory.scenes D')).
Proof.
  intros Hst Hfind Hs Hk Hout.
  destruct (updateScene_spec w D sceneId i s updates Hst Hfind Hs)
    as (w' & t & Hrun & Hdisk).
  exists w'. do 2 eexists. split; [exact Hrun|]. split; [exact Hdisk|].
  cbn [set_project_updated WriterMemory.set_project WriterMemory.set_scenes
         WriterMemory.scenes].
  assert (Hi : <[i := assign_scene updates s]> (WriterMemory.scenes D) !! i
               = Some (assign_scene updates s)).
  { apply list_lookup_insert_eq. now apply lookup_lt_Some in Hs. }
  split; [exact Hi|].
  assert (Hord : Scene.order (assign_scene updates s) = k).
  { unfold assign_scene. cbn. now rewrite Hk. }
  split; [exact Hord|].
  intros Hd. apply (dense_in_range _ k) in Hd.
  - rewrite length_map, length_insert in Hd. lia.
  - apply in_map_iff. exists (assign_scene updates s). split; [exact Hord|].
    apply list_elem_of_In, list_elem_of_lookup. eauto.
Qed.

Lemma updateScene_writes_any_order_witness :
  let updates :=
    SceneUpdates.mk None None None (Some 7) None None None None None None in
  exists (w' : World) (D' : WriterMemory.t) (s' : Scene.t),
    updateScene "scene_a" updates Sample.world = (Ret (Some s'), w')
    /\ on_disk w' = Some D'
    /\ WriterMemory.scenes D' !! 0%nat = Some s'
    /\ Scene.order s' = 7
    /\ ~ dense (map Scene.order (WriterMemory.scenes D')).
Proof.
  cbv zeta.
  apply (updateScene_writes_any_order Sample.world Sample.doc "scene_a"
           0%nat Sample.scene_a
           (SceneUpdates.mk None None None (Some 7) None None None None None
              None) 7).
  - reflexivity.
  - reflexivity.
  - reflexivity.
  - reflexivity.
  - right. cbn. lia.
Defined.

Lemma updateCut_spec w D sceneId i s cutOrder updates :
  stored w D ->
  findSceneById D sceneId = Some i ->
  WriterMemory.scenes D !! i = Some s ->
  match findIndex (fun c => Z.eqb (Cut.order c) cutOrder) (Scene.cuts s) with
  | None => updateCut sceneId cutOrder updates w = (Ret false, loaded w D)
  | Some k =>
      exists w' t,
        updateCut sceneId cutOrder updates w = (Ret true, w')
        /\ on_disk w'
           = Some (set_project_updated t
                     (WriterMemory.set_scenes
                        (<[i := Scene.set_cuts
                                  (alter (assign_cut updates) k (Scene.cuts s))
                                  s]>
                           (WriterMemory.scenes D)) D))
  end.
Proof.
  intros Hst Hfind Hs.
  assert (Hprefix :
    updateCut sceneId cutOrder updates w
    = try_catch
        (match
           findIndex (fun c => Z.eqb (Cut.order c) cutOrder) (Scene.cuts s)
         with
         | None => ret false
         | Some k =>
             exec! update_scene (length (heap w)) i
                     (fun s =>
                        Scene.set_cuts
                          (alter (assign_cut updates) k (Scene.cuts s)) s) in
             let! _ := saveMemory (length (heap w)) in
             ret true
         end)
        (ret false) (loaded w D)).
  { unfold updateCut, try_catch, bind at 1.
    rewrite (loadMemory_loaded _ _ Hst).
    unfold bind at 1. rewrite deref_nullable_loaded, Hfind.
    unfold bind at 1. now rewrite (read_scene_loaded _ _ _ _ Hs). }
  rewrite Hprefix. clear Hprefix.
  destruct (findIndex _ _) as [k|]; [|reflexivity].
  unfold try_catch, bind at 1. rewrite update_scene_at by reflexivity.
  unfold bind at 1.
  match goal with
  | |- context [saveMemory ?h (loaded ?w2 ?D1)] =>
      destruct (saveMemory_at h w2 D1 eq_refl) as (w' & t & Hsave & Hdisk)
  end.
  rewrite Hsave. cbn. do 2 eexists. split; [reflexivity|].
  rewrite Hdisk. now rewrite (alter_as_insert _ _ _ s Hs).
Qed.

(** X25. [updateCut] keeps the order of every cut, also when the updates
    carry an order: the orders of the scene's cuts are, position by
    position, what they were, so dense orders stay dense.  Only the first
    cut with the order given changes, and no other scene is touched; for an
    order no cut has, the call reports [false] and writes nothing. *)
Theorem updateCut_keeps_the_orders (w : World) (D : WriterMemory.t)
    (sceneId : string) (i : nat) (s : Scene.t) (cutOrder : Z)
    (updates : CutUpdates.t) :
  stored w D ->
  findSceneById D sceneId = Some i ->
  WriterMemory.scenes D !! i = Some s ->
  (findIndex (fun c => Z.eqb (Cut.order c) cutOrder) (Scene.cuts s) = None ->
   updateCut sceneId cutOrder updates w = (Ret false, loaded w D))
  /\ (forall k,
        findIndex (fun c => Z.eqb (Cut.order c) cutOrder) (Scene.cuts s)
        = Some k ->
        exists (w' : World) (D' : WriterMemory.t) (cuts' : list Cut.t),
          updateCut sceneId cutOrder updates w = (Ret true, w')
          /\ on_disk w' = Some D'
          /\ WriterMemory.scenes D'
             = <[i := Scene.set_cuts cuts' s]> (WriterMemory.scenes D)
          /\ map Cut.order cuts' = map Cut.order (Scene.cuts s)
          /\ (forall j, j <> k -> cuts' !! j = Scene.cuts s !! j)
          /\ exists c c',
               Scene.cuts s !! k = Some c /\ cuts' !! k = Some c'
               /\ Cut.order c = cutOrder /\ Cut.order c' = cutOrder
               /\ (forall v, CutUpdates.content updates = Some v ->
                             Cut.content c' = v)).
Proof.
  intros Hst Hfind Hs.
  pose proof (updateCut_spec w D sceneId i s cutOrder updates Hst Hfind Hs)
    as H.
  split.
  - intros Hnone. now rewrite Hnone in H.
  - intros k Hsome. rewrite Hsome in H.
    destruct H as (w' & t & Hrun & Hdisk).
    exists w'. do 2 eexists. split; [exact Hrun|]. split; [exact Hdisk|].
    split; [reflexivity|].
    destruct (findIndex_lookup _ _ _ Hsome) as (c & Hc & Horder).
    apply Z.eqb_eq in Horder.
    split; [|split].
    + apply list_eq. intros j. rewrite !list_lookup_fmap.
      destruct (decide (j = k)) as [->|Hne].
      * rewrite list_lookup_alter_eq, Hc. reflexivity.
      * now rewrite list_lookup_alter_ne by congruence.
    + intros j Hne. now rewrite list_lookup_alter_ne by congruence.
    + exists c, (assign_cut updates c).
      split; [exact Hc|]. split; [now rewrite list_lookup_alter_eq, Hc|].
      split; [exact Horder|]. split; [exact Horder|].
      intros v Hv. unfold assign_cut. cbn. now rewrite Hv.
Qed.

Lemma updateCut_keeps_the_orders_witness :
  let updates := CutUpdates.mk (Some 9) None (Some "deux") None None in
  (findIndex (fun c => Z.eqb (Cut.order c) 1) (Scene.cuts Sample.scene_a)
   = None ->
   updateCut "scene_a" 1 updates Sample.world
   = (Ret false, loaded Sample.world Sample.doc))
  /\ (forall k,
        findIndex (fun c => Z.eqb (Cut.order c) 1)
          (Scene.cuts Sample.scene_a)
        = Some k ->
        exists (w' : World) (D' : WriterMemory.t) (cuts' : list Cut.t),
          updateCut "scene_a" 1 updates Sample.world = (Ret true, w')
          /\ on_disk w' = Some D'
          /\ WriterMemory.scenes D'
             = <[0%nat := Scene.set_cuts cuts' Sample.scene_a]>
                 (WriterMemory.scenes Sample.doc)
          /\ map Cut.order cuts' = map Cut.order (Scene.cuts Sample.scene_a)
          /\ (forall j, j <> k -> cuts' !! j = Scene.cuts Sample.scene_a !! j)
          /\ exists c c',
               Scene.cuts Sample.scene_a !! k = Some c
               /\ cuts' !! k = Some c'
               /\ Cut.order c = 1 /\ Cut.order c' = 1
               /\ (forall v, CutUpdates.content updates = Some v ->
                             Cut.content c' = v)).
Proof.
  cbv zeta.
  apply (updateCut_keeps_the_orders Sample.world Sample.doc "scene_a" 0%nat
           Sample.scene_a 1 (CutUpdates.mk (Some 9) None (Some "deux") None
                               None));
    reflexivity.
Defined.

(** ** The scene module: listings *)

Lemma insert_by_Permutation {A} (key : A -> Z) x l :
  insert_by key x l ≡ₚ x :: l.
Proof.
  induction l as [|y l IH]; [reflexivity|]. cbn.
  destruct (key x <=? key y); [reflexivity|].
  rewrite IH. apply perm_swap.
Qed.

Lemma sort_by_Permutation {A} (key : A -> Z) l : sort_by key l ≡ₚ l.
Proof.
  induction l as [|x l IH]; [reflexivity|]. cbn.
  now rewrite insert_by_Permutation, IH.
Qed.

Lemma insert_by_sorted {A} (key : A -> Z) x l :
  StronglySorted (fun a b => key a <= key b) l ->
  StronglySorted (fun a b => key a <= key b) (insert_by key x l).
Proof.
  induction 1 as [|y l Hl IH Hy]; cbn.
  - constructor; [constructor|constructor].
  - destruct (Z.leb_spec (key x) (key y)) as [Hle|Hgt].
    + constructor; [now constructor|].
      constructor; [exact Hle|].
      eapply Forall_impl; [exact Hy|]. cbn. intros z Hz. lia.
    + constructor; [exact IH|].
      rewrite insert_by_Permutation. constructor; [lia|exact Hy].
Qed.

Lemma sort_by_sorted {A} (key : A -> Z) l :
  StronglySorted (fun a b => key a <= key b) (sort_by key l).
Proof.
  induction l as [|x l IH]; [constructor|]. cbn. now apply insert_by_sorted.
Qed.

Lemma In_filter_if {A} (value : option string) (pred : string -> A -> bool)
    (l : list A) (a : A) :
  In a (filter_if value pred l)
  <-> In a l
      /\ forall v, value = Some v -> v <> EmptyString -> pred v a = true.
Proof.
  unfold filter_if. destruct value as [v|].
  - destruct (truthy v) eqn:Hv.
    + rewrite filter_In. apply truthy_true in Hv. split.
      * intros [Hin Hp]. split; [exact Hin|]. now intros ? [= <-] _.
      * intros [Hin Hp]. split; [exact Hin|]. now apply Hp.
    + split; [|tauto]. intros Hin. split; [exact Hin|].
      intros ? [= <-] Hne. apply truthy_true in Hne. congruence.
  - split; [|tauto]. intros Hin. split; [exact Hin|]. discriminate.
Qed.

(** X26. [listScenes] lists, in ascending order of [order], one summary
    for every stored scene that passes the three options, and no other:
    a scene passes an option when the option is absent or empty, or when
    the scene has that chapter, that character or that emotion tag.  With
    a non-empty emotion tag as the only option, the scenes summarised are
    the ones [getScenesByEmotion] returns for that tag, in the same
    sequence. *)
Theorem listScenes_sorted_and_filtered (w : World) (D : WriterMemory.t)
    (options : option ListOptions) :
  stored w D ->
  exists scenes : list Scene.t,
    fst (listScenes options w) = Ret (map summary_of scenes)
    /\ StronglySorted (fun a b => Scene.order a <= Scene.order b) scenes
    /\ StronglySorted Z.le
         (map SceneSummary.order (map summary_of scenes))
    /\ scenes ≡ₚ list_filters options (WriterMemory.scenes D)
    /\ (forall s,
          In s scenes
          <-> In s (WriterMemory.scenes D)
              /\ passes (options ≫= list_chapter) chapter_is s
              /\ passes (options ≫= list_character) has_character s
              /\ passes (options ≫= list_emotionTag) has_emotionTag s)
    /\ (options = None -> scenes ≡ₚ WriterMemory.scenes D)
    /\ (forall emotionTag,
          emotionTag <> EmptyString ->
          options = Some (mkListOptions None None (Some emotionTag)) ->
          fst (getScenesByEmotion emotionTag w) = Ret scenes).
Proof.
  intros Hst.
  assert (Hby : forall emotionTag,
            fst (getScenesByEmotion emotionTag w)
            = Ret (sort_by Scene.order
                     (List.filter (has_emotionTag emotionTag)
                        (WriterMemory.scenes D)))).
  { intros emotionTag. unfold getScenesByEmotion, try_catch, bind at 1.
    rewrite (loadMemory_loaded _ _ Hst).
    unfold bind. now rewrite deref_nullable_loaded. }
  unfold listScenes, try_catch, bind at 1.
  rewrite (loadMemory_loaded _ _ Hst).
  unfold bind. rewrite deref_nullable_loaded. cbn [fst].
  exists (sort_by Scene.order (list_filters options (WriterMemory.scenes D))).
  split; [reflexivity|].
  split; [apply sort_by_sorted|].
  split.
  { rewrite map_map. cbn.
    assert (H := sort_by_sorted Scene.order
                   (list_filters options (WriterMemory.scenes D))).
    induction H as [|a l Hl IH Ha]; cbn; constructor; [exact IH|].
    apply Forall_forall. intros z Hz.
    apply list_elem_of_In, in_map_iff in Hz as (b & <- & Hb).
    rewrite Forall_forall in Ha. apply Ha. now apply list_elem_of_In. }
  split; [apply sort_by_Permutation|].
  split.
  - intros s. rewrite <- !list_elem_of_In, sort_by_Permutation,
      !list_elem_of_In.
    unfold list_filters, passes. rewrite !In_filter_if. tauto.
  - split.
    + intros ->. rewrite sort_by_Permutation. reflexivity.
    + intros emotionTag Hne ->. rewrite Hby.
      unfold list_filters, filter_if. cbn.
      apply truthy_true in Hne. now rewrite Hne.
Qed.

Lemma listScenes_sorted_and_filtered_witness :
  let options := Some (mkListOptions None (Some "Minjun") (Some EmptyString)) in
  exists scenes : list Scene.t,
    fst (listScenes options Sample.world) = Ret (map summary_of scenes)
    /\ StronglySorted (fun a b => Scene.order a <= Scene.order b) scenes
    /\ StronglySorted Z.le
         (map SceneSummary.order (map summary_of scenes))
    /\ scenes ≡ₚ list_filters options (WriterMemory.scenes Sample.doc)
    /\ (forall s,
          In s scenes
          <-> In s (WriterMemory.scenes Sample.doc)
              /\ passes (options ≫= list_chapter) chapter_is s
              /\ passes (options ≫= list_character) has_character s
              /\ passes (options ≫= list_emotionTag) has_emotionTag s)
    /\ (options = None -> scenes ≡ₚ WriterMemory.scenes Sample.doc)
    /\ (forall emotionTag,
          emotionTag <> EmptyString ->
          options = Some (mkListOptions None None (Some emotionTag)) ->
          fst (getScenesByEmotion emotionTag Sample.world) = Ret scenes).
Proof.
  cbv zeta.
  apply (listScenes_sorted_and_filtered Sample.world Sample.doc
           (Some (mkListOptions None (Some "Minjun") (Some EmptyString)))).
  reflexivity.
Defined.

Lemma fold_left_flat_map {A B C} (f : C -> B -> C) (g : A -> list B)
    (l : list A) (c : C) :
  fold_left (fun acc a => fold_left f (g a) acc) l c
  = fold_left f (flat_map g l) c.
Proof.
  revert c. induction l as [|a l IH]; intros c; [reflexivity|]. cbn.
  now rewrite fold_left_app, IH.
Qed.

Lemma map_fst_set_own {A} k (v : A) (m : list (string * A)) :
  map fst (set_own k v m)
  = if includes k (map fst m) then map fst m else map fst m ++ [k].
Proof.
  unfold includes. induction m as [|[k' a] m IH]; [reflexivity|]. cbn.
  destruct (String.eqb k k') eqn:E; cbn.
  - apply String.eqb_eq in E as ->. reflexivity.
  - rewrite IH. now destruct (existsb (String.eqb k) (map fst m)).
Qed.

Lemma lookup_own_None_keys {A} k (m : list (string * A)) :
  lookup_own k m = None <-> ~ In k (map fst m).
Proof.
  induction m as [|[k' a] m IH]; cbn; [tauto|].
  destruct (String.eqb_spec k k') as [->|Hne].
  - split; [discriminate|]. intros H. exfalso. apply H. now left.
  - rewrite IH. split; [intros H [Heq|Hin]; [congruence|tauto]|tauto].
Qed.

Lemma lookup_own_NoDup_In {A} k (v : A) (m : list (string * A)) :
  List.NoDup (map fst m) -> (In (k, v) m <-> lookup_own k m = Some v).
Proof.
  intros Hnd. split; [|apply lookup_own_Some_In].
  induction m as [|[k' a] m IH]; [intros []|]. cbn in *.
  apply List.NoDup_cons_iff in Hnd as [Hk' Hnd].
  intros [[= -> ->]|Hin].
  - now rewrite String.eqb_refl.
  - destruct (String.eqb_spec k k') as [->|Hne]; [|now apply IH].
    exfalso. apply Hk'. apply in_map_iff. now exists (k', v).
Qed.

Lemma occurrences_app x l1 l2 :
  occurrences x (l1 ++ l2) = (occurrences x l1 + occurrences x l2)%nat.
Proof. unfold occurrences. now rewrite List.filter_app, length_app. Qed.

(** The counting loop: the map has one entry for every tag seen, with the
    number of times the tag was seen. *)
Lemma count_tags_fold (tags : list string) :
  forall (m : list (string * Z)) (seen : list string),
    List.NoDup (map fst m) ->
    (forall x, lookup_own x m
               = if (occurrences x seen =? 0)%nat then None
                 else Some (Z.of_nat (occurrences x seen))) ->
    let m' := fold_left count_tag tags m in
    List.NoDup (map fst m')
    /\ forall x, lookup_own x m'
                 = if (occurrences x (seen ++ tags) =? 0)%nat then None
                   else Some (Z.of_nat (occurrences x (seen ++ tags))).
Proof.
  induction tags as [|tag tags IH]; intros m seen Hnd Hm; cbn zeta.
  - cbn. rewrite app_nil_r. auto.
  - cbn [fold_left].
    replace (seen ++ tag :: tags) with ((seen ++ [tag]) ++ tags)
      by (now rewrite <- app_assoc).
    apply IH.
    + unfold count_tag. rewrite map_fst_set_own.
      destruct (includes tag (map fst m)) eqn:Hinc; [exact Hnd|].
      apply ListNoDup_snoc; [exact Hnd|]. now apply includes_false.
    + intros x. unfold count_tag. rewrite lookup_own_set_own_cases.
      rewrite occurrences_app. unfold occurrences at 2 4. cbn.
      destruct (String.eqb_spec x tag) as [->|Hne].
      * rewrite Hm. cbn [length].
        destruct (Nat.eqb_spec (occurrences tag seen + 1) 0) as [|_]; [lia|].
        f_equal. destruct (Nat.eqb_spec (occurrences tag seen) 0) as [H0|H0].
        -- cbn. rewrite H0. reflexivity.
        -- cbn. destruct (Z.eqb_spec (Z.of_nat (occurrences tag seen)) 0);
             lia.
      * cbn [length]. rewrite Nat.add_0_r. apply Hm.
Qed.

Lemma count_tags_spec (scenes : list Scene.t) :
  List.NoDup (map fst (count_tags scenes))
  /\ forall x n,
       In (x, n) (count_tags scenes)
       <-> 0 < n
           /\ n = Z.of_nat (occurrences x (flat_map Scene.emotionTags scenes)).
Proof.
  unfold count_tags. rewrite fold_left_flat_map.
  destruct (count_tags_fold (flat_map Scene.emotionTags scenes) [] [])
    as [Hnd Hl]; [constructor|reflexivity|].
  cbn [app] in Hl. split; [exact Hnd|].
  intros x n. rewrite (lookup_own_NoDup_In _ _ _ Hnd), Hl.
  destruct (Nat.eqb_spec
              (occurrences x (flat_map Scene.emotionTags scenes)) 0)
    as [H0|H0].
  - split; [discriminate|]. intros [Hpos ->]. lia.
  - split; [intros [= <-]; split; lia|]. now intros [_ ->].
Qed.

(** X27. [getAllEmotionTags] lists every emotion tag of the stored scenes
    exactly once, with the number of times it occurs in the tag lists of
    all scenes, the most frequent first. *)
Theorem getAllEmotionTags_counts_occurrences (w : World)
    (D : WriterMemory.t) :
  stored w D ->
  exists tagCounts : list TagCount.t,
    fst (getAllEmotionTags w) = Ret tagCounts
    /\ List.NoDup (map TagCount.tag tagCounts)
    /\ (forall x n,
          In (TagCount.mk x n) tagCounts
          <-> 0 < n
              /\ n = Z.of_nat
                       (occurrences x
                          (flat_map Scene.emotionTags
                             (WriterMemory.scenes D))))
    /\ StronglySorted (fun a b => TagCount.count b <= TagCount.count a)
         tagCounts.
Proof.
  intros Hst. unfold getAllEmotionTags, try_catch, bind at 1.
  rewrite (loadMemory_loaded _ _ Hst).
  unfold bind. rewrite deref_nullable_loaded. cbn [fst].
  destruct (count_tags_spec (WriterMemory.scenes D)) as [Hnd Hin].
  set (m := count_tags (WriterMemory.scenes D)) in *.
  set (entries := map (fun entry => TagCount.mk (fst entry) (snd entry)) m).
  assert (Hperm : sort_by (fun a => - TagCount.count a) entries ≡ₚ entries)
    by apply sort_by_Permutation.
  eexists. split; [reflexivity|]. split; [|split].
  - apply NoDup_ListNoDup. apply NoDup_ListNoDup in Hnd.
    assert (Hmap : map TagCount.tag
                     (sort_by (fun a => - TagCount.count a) entries)
                   ≡ₚ map fst m).
    { rewrite Hperm. subst entries. rewrite map_map. cbn. reflexivity. }
    now rewrite Hmap.
  - intros x n. rewrite <- Hin, <- !list_elem_of_In, Hperm, !list_elem_of_In.
    subst entries. rewrite in_map_iff. split.
    + intros ([k v] & [= -> ->] & H). exact H.
    + intros H. exists (x, n). auto.
  - assert (H := sort_by_sorted (fun a => - TagCount.count a) entries).
    eapply StronglySorted_ind with (P := fun l =>
             StronglySorted
               (fun a b => TagCount.count b <= TagCount.count a) l);
      [constructor| |exact H].
    intros a l _ IH Ha. constructor; [exact IH|].
    eapply Forall_impl; [exact Ha|]. cbn. intros b Hb. lia.
Qed.

Lemma getAllEmotionTags_counts_occurrences_witness :
  exists tagCounts : list TagCount.t,
    fst (getAllEmotionTags Sample.world) = Ret tagCounts
    /\ List.NoDup (map TagCount.tag tagCounts)
    /\ (forall x n,
          In (TagCount.mk x n) tagCounts
          <-> 0 < n
              /\ n = Z.of_nat
                       (occurrences x
                          (flat_map Scene.emotionTags
                             (WriterMemory.scenes Sample.doc))))
    /\ StronglySorted (fun a b => TagCount.count b <= TagCount.count a)
         tagCounts.
Proof.
  apply (getAllEmotionTags_counts_occurrences Sample.world Sample.doc).
  reflexivity.
Defined.

Lemma index_range_sorted m : StronglySorted Z.le (index_range m).
Proof.
  unfold index_range. induction m as [|m IH]; [constructor|].
  rewrite seq_S, map_app. apply StronglySorted_app_2; [|exact IH|].
  - intros x1 x2 H1 H2. apply list_elem_of_In, in_map_iff in H1 as (a & <- & Ha).
    apply list_elem_of_In in H2. cbn in H2. destruct H2 as [<-|[]].
    apply in_seq in Ha. lia.
  - cbn. repeat constructor.
Qed.

(** The orders of a list sorted by order, when they are dense. *)
Lemma sort_by_dense (scenes : list Scene.t) :
  dense (map Scene.order scenes) ->
  map Scene.order (sort_by Scene.order scenes)
  = index_range (length scenes).
Proof.
  intros Hd. apply (StronglySorted_unique Z.le).
  - assert (H := sort_by_sorted Scene.order scenes).
    induction H as [|a l Hl IH Ha]; cbn; constructor; [exact IH|].
    apply Forall_forall. intros z Hz.
    apply list_elem_of_In, in_map_iff in Hz as (b & <- & Hb).
    rewrite Forall_forall in Ha. apply Ha. now apply list_elem_of_In.
  - apply index_range_sorted.
  - unfold dense in Hd. rewrite length_map in Hd. rewrite <- Hd.
    change (Scene.order <$> sort_by Scene.order scenes
            ≡ₚ Scene.order <$> scenes).
    now rewrite sort_by_Permutation.
Qed.

(** X28. On a store whose scene orders are dense, [getSceneFlow] numbers
    the scenes [1 .. n] without gap or repetition, and it leaves the store
    as it was. *)
Theorem getSceneFlow_numbers_from_one (w : World) (D : WriterMemory.t) :
  stored w D ->
  dense (map Scene.order (WriterMemory.scenes D)) ->
  exists (flow : list SceneFlowEntry.t) (w' : World),
    getSceneFlow w = (Ret flow, w')
    /\ map SceneFlowEntry.order flow
       = map (fun k => Z.of_nat k + 1)
           (seq 0 (length (WriterMemory.scenes D)))
    /\ on_disk w' = Some D
    /\ backupDir w' = backupDir w.
Proof.
  intros Hst Hd. unfold getSceneFlow, try_catch, bind at 1.
  rewrite (loadMemory_loaded _ _ Hst).
  unfold bind at 1. rewrite deref_nullable_loaded.
  unfold bind at 1. rewrite update_scenes_at by reflexivity.
  unfold bind. rewrite deref_loaded.
  do 2 eexists. split; [reflexivity|].
  split; [|split; [exact Hst|reflexivity]].
  cbn [WriterMemory.scenes WriterMemory.set_scenes].
  rewrite map_map. cbn.
  rewrite <- (map_map Scene.order (fun z => z + 1)).
  rewrite (sort_by_dense _ Hd). unfold index_range. now rewrite map_map.
Qed.

Lemma getSceneFlow_numbers_from_one_witness :
  exists (flow : list SceneFlowEntry.t) (w' : World),
    getSceneFlow Sample.world = (Ret flow, w')
    /\ map SceneFlowEntry.order flow
       = map (fun k => Z.of_nat k + 1)
           (seq 0 (length (WriterMemory.scenes Sample.doc)))
    /\ on_disk w' = Some Sample.doc
    /\ backupDir w' = backupDir Sample.world.
Proof.
  apply (getSceneFlow_numbers_from_one Sample.world Sample.doc).
  - reflexivity.
  - exact (dense_index_range 2).
Defined.

(** ** The synopsis state *)

Lemma loadSynopsisState_spec w D :
  stored w D ->
  loadSynopsisState w = (Ret (WriterMemory.synopsis D), loaded w D).
Proof.
  intros Hst. unfold loadSynopsisState, bind at 1.
  rewrite (loadMemory_loaded _ _ Hst). unfold bind. now rewrite deref_loaded.
Qed.

Lemma update_synopsis_at h w D s f :
  h = length (heap w) ->
  WriterMemory.synopsis D = Some s ->
  update_synopsis h f (loaded w D) = (Ret tt, loaded w (set_synopsis (f s) D)).
Proof.
  intros Hh Hs. unfold update_synopsis, bind.
  rewrite (deref_at _ _ _ Hh), Hs. now apply modify_at.
Qed.

(** X29. The synopsis state is read back as it was written, on a store
    with a synopsis and on one without.  [loadSynopsisState] returns the
    synopsis of the stored document, and [null] when the document has
    none.  After [saveSynopsisState], it returns the five text elements of
    the state given, and as [lastGenerated] the reading of the clock at the
    save, whatever [lastGenerated] the state given carried.  After
    [updateSynopsisElement], which succeeds also when the document had no
    synopsis, the state read back has the value given under the element
    named; every other one of the five text elements is as it was, or is
    the empty string when the document had no synopsis; and
    [lastGenerated] is the reading of the clock, also when [lastGenerated]
    is the element named.  Either way the rest of the document is as it
    was. *)
Theorem synopsis_state_is_read_back (w : World) (D : WriterMemory.t) :
  stored w D ->
  fst (loadSynopsisState w) = Ret (WriterMemory.synopsis D)
  /\ (forall state,
        exists (w' : World) (D' : WriterMemory.t) (s' : SynopsisState.t),
          saveSynopsisState state w = (Ret true, w')
          /\ on_disk w' = Some D'
          /\ fst (loadSynopsisState w') = Ret (Some s')
          /\ (forall element,
                element <> lastGenerated ->
                element_of element s' = element_of element state)
          /\ SynopsisState.lastGenerated s'
             = Some (isoTime (env w) (ticks w))
          /\ WriterMemory.characters D' = WriterMemory.characters D
          /\ WriterMemory.relationships D' = WriterMemory.relationships D
          /\ WriterMemory.scenes D' = WriterMemory.scenes D
          /\ WriterMemory.themes D' = WriterMemory.themes D
          /\ WriterMemory.world D' = WriterMemory.world D)
  /\ (forall element value,
        exists (w' : World) (D' : WriterMemory.t) (s' : SynopsisState.t),
          updateSynopsisElement element value w = (Ret true, w')
          /\ on_disk w' = Some D'
          /\ fst (loadSynopsisState w') = Ret (Some s')
          /\ (element <> lastGenerated -> element_of element s' = Some value)
          /\ (forall other s,
                other <> element -> other <> lastGenerated ->
                WriterMemory.synopsis D = Some s ->
                element_of other s' = element_of other s)
          /\ (forall other,
                other <> element -> other <> lastGenerated ->
                WriterMemory.synopsis D = None ->
                element_of other s' = Some EmptyString)
          /\ SynopsisState.lastGenerated s'
             = Some (isoTime (env w) (ticks w))
          /\ WriterMemory.characters D' = WriterMemory.characters D
          /\ WriterMemory.relationships D' = WriterMemory.relationships D
          /\ WriterMemory.scenes D' = WriterMemory.scenes D
          /\ WriterMemory.themes D' = WriterMemory.themes D
          /\ WriterMemory.world D' = WriterMemory.world D).
Proof.
  intros Hst. split; [now rewrite (loadSynopsisState_spec w D Hst)|]. split.
  - intros state. unfold saveSynopsisState, bind at 1.
    rewrite (loadMemory_loaded _ _ Hst).
    unfold bind at 1. rewrite now_spec.
    unfold bind at 1. rewrite with_ticks_loaded.
    rewrite modify_at by reflexivity.
    match goal with
    | |- context [saveMemory ?h (loaded ?w2 ?D1)] =>
        destruct (saveMemory_at h w2 D1 eq_refl) as (w' & t & Hs & Hdisk)
    end.
    rewrite Hs. exists w'. do 2 eexists. split; [reflexivity|].
    split; [exact Hdisk|].
    split; [now rewrite (loadSynopsisState_spec w' _ Hdisk)|].
    split; [|now repeat split].
    intros element Hne. now destruct element.
  - intros element value. unfold updateSynopsisElement, bind at 1.
    rewrite (loadMemory_loaded _ _ Hst).
    unfold bind at 1. rewrite deref_at by reflexivity.
    unfold bind at 1. rewrite modify_at by reflexivity.
    unfold bind at 1.
    erewrite update_synopsis_at; [|reflexivity|reflexivity].
    unfold bind at 1. rewrite now_spec.
    unfold bind at 1. rewrite with_ticks_loaded.
    erewrite update_synopsis_at; [|reflexivity|reflexivity].
    match goal with
    | |- context [saveMemory ?h (loaded ?w2 ?D1)] =>
        destruct (saveMemory_at h w2 D1 eq_refl) as (w' & t & Hs & Hdisk)
    end.
    rewrite Hs. exists w'. do 2 eexists. split; [reflexivity|].
    split; [exact Hdisk|].
    split; [now rewrite (loadSynopsisState_spec w' _ Hdisk)|].
    split; [|split; [|split; [|split; [reflexivity|now repeat split]]]].
    + intros Hne. destruct element; cbn; congruence.
    + intros other s Hoe Hol Hsyn. rewrite Hsyn.
      destruct element, other; cbn; congruence.
    + intros other Hoe Hol Hsyn. rewrite Hsyn.
      destruct element, other; cbn; congruence.
Qed.

(** The sample store before any synopsis was written: there is nothing to
    load; after [updateSynopsisElement] on the emotional theme, the theme is
    the one given, the ending aftertaste is the empty string of the default
    object, and the stamp is the first reading of the clock. *)
Lemma synopsis_state_is_read_back_witness :
  let w := Sample.world_of Sample.doc_without_synopsis in
  fst (loadSynopsisState w) = Ret None
  /\ exists (w' : World) (s' : SynopsisState.t),
       updateSynopsisElement emotionalTheme "longing" w = (Ret true, w')
       /\ fst (loadSynopsisState w') = Ret (Some s')
       /\ SynopsisState.emotionalTheme s' = "longing"
       /\ SynopsisState.endingAftertaste s' = EmptyString
       /\ SynopsisState.lastGenerated s' = Some (Sample.clock 0).
Proof.
  cbv zeta.
  destruct (synopsis_state_is_read_back
              (Sample.world_of Sample.doc_without_synopsis)
              Sample.doc_without_synopsis eq_refl)
    as (Hload & _ & Hupdate).
  split; [exact Hload|].
  destruct (Hupdate emotionalTheme "longing")
    as (w' & D' & s' & Hrun & _ & Hread & Hset & _ & Hdefault & Hstamp & _).
  exists w', s'. split; [exact Hrun|]. split; [exact Hread|].
  split; [|split; [|exact Hstamp]].
  - specialize (Hset ltac:(discriminate)). now injection Hset.
  - specialize (Hdefault endingAftertaste ltac:(discriminate)
                  ltac:(discriminate) eq_refl).
    now injection Hdefault.
Defined.

(** ** Operations on a missing store *)

Ltac missing_store Hload :=
  intros;
  repeat match goal with
         | |- _ /\ _ => split
         end;
  unfold addCharacter, addAlias, removeAlias, removeCharacter,
    addEmotionPoint, addRelationship, updateRelationship,
    removeRelationship, addRelationshipEvent, getRelationship, addScene,
    updateScene, removeScene, reorderScenes, addCut, updateCut, removeCut,
    reorderCuts, addEmotionTag, removeEmotionTag, saveSynopsisState,
    updateSynopsisElement, try_catch, bind;
  rewrite ?Hload; cbn; rewrite ?Hload; cbn;
  try reflexivity; try (now repeat split).

(** X30. On a store that has no memory file, every operation that would
    write reports failure ([null] or [false]) and nothing is written: the
    memory file is still missing, and the temporary file, the backup
    directory and the documents in memory are as before.  In the scene
    module the failure comes from the exception that reading [null]
    raises, which every function there catches. *)
Theorem operations_fail_without_a_store (w : World) :
  memFile w = None ->
  (forall name options,
     fst (addCharacter name options w) = Ret None
     /\ untouched w (snd (addCharacter name options w)))
  /\ (forall name alias,
        fst (addAlias name alias w) = Ret false
        /\ untouched w (snd (addAlias name alias w))
        /\ fst (removeAlias name alias w) = Ret false
        /\ untouched w (snd (removeAlias name alias w)))
  /\ (forall name,
        fst (removeCharacter name w) = Ret false
        /\ untouched w (snd (removeCharacter name w)))
  /\ (forall name emotion trigger options,
        fst (addEmotionPoint name emotion trigger options w) = Ret false
        /\ untouched w (snd (addEmotionPoint name emotion trigger options w)))
  /\ (forall a b type options,
        fst (addRelationship a b type options w) = Ret None
        /\ untouched w (snd (addRelationship a b type options w)))
  /\ (forall a b updates,
        fst (updateRelationship a b updates w) = Ret None
        /\ untouched w (snd (updateRelationship a b updates w)))
  /\ (forall a b,
        fst (removeRelationship a b w) = Ret false
        /\ untouched w (snd (removeRelationship a b w)))
  /\ (forall a b change catalyst sceneId,
        fst (addRelationshipEvent a b change catalyst sceneId w) = Ret None
        /\ untouched w
             (snd (addRelationshipEvent a b change catalyst sceneId w)))
  /\ (forall title options,
        fst (addScene title options w) = Ret None
        /\ untouched w (snd (addScene title options w)))
  /\ (forall sceneId updates,
        fst (updateScene sceneId updates w) = Ret None
        /\ untouched w (snd (updateScene sceneId updates w)))
  /\ (forall sceneId,
        fst (removeScene sceneId w) = Ret false
        /\ untouched w (snd (removeScene sceneId w)))
  /\ (forall sceneIds,
        fst (reorderScenes sceneIds w) = Ret false
        /\ untouched w (snd (reorderScenes sceneIds w)))
  /\ (forall sceneId cut,
        fst (addCut sceneId cut w) = Ret false
        /\ untouched w (snd (addCut sceneId cut w)))
  /\ (forall sceneId cutOrder updates,
        fst (updateCut sceneId cutOrder updates w) = Ret false
        /\ untouched w (snd (updateCut sceneId cutOrder updates w)))
  /\ (forall sceneId cutOrder,
        fst (removeCut sceneId cutOrder w) = Ret false
        /\ untouched w (snd (removeCut sceneId cutOrder w)))
  /\ (forall sceneId newOrder,
        fst (reorderCuts sceneId newOrder w) = Ret false
        /\ untouched w (snd (reorderCuts sceneId newOrder w)))
  /\ (forall sceneId tag,
        fst (addEmotionTag sceneId tag w) = Ret false
        /\ untouched w (snd (addEmotionTag sceneId tag w))
        /\ fst (removeEmotionTag sceneId tag w) = Ret false
        /\ untouched w (snd (removeEmotionTag sceneId tag w)))
  /\ (forall state,
        fst (saveSynopsisState state w) = Ret false
        /\ untouched w (snd (saveSynopsisState state w)))
  /\ (forall element value,
        fst (updateSynopsisElement element value w) = Ret false
        /\ untouched w (snd (updateSynopsisElement element value w))).
Proof.
  intros Hm. pose proof (loadMemory_missing w Hm) as Hload.
  repeat match goal with
         | |- _ /\ _ => split
         end; missing_store Hload.
Qed.

Lemma operations_fail_without_a_store_witness :
  let w := mkWorld None None ∅ [] 0 Sample.sample_env in
  memFile w = None
  /\ fst (addCharacter "Jisu" None w) = Ret None
  /\ untouched w (snd (addCharacter "Jisu" None w))
  /\ fst (addScene "Reunion" None w) = Ret None
  /\ untouched w (snd (addScene "Reunion" None w))
  /\ fst (reorderCuts "scene_a" [0] w) = Ret false
  /\ untouched w (snd (reorderCuts "scene_a" [0] w))
  /\ fst (updateSynopsisElement endingAftertaste "warmth" w) = Ret false
  /\ untouched w (snd (updateSynopsisElement endingAftertaste "warmth" w)).
Proof.
  cbv zeta.
  destruct (operations_fail_without_a_store
              (mkWorld None None ∅ [] 0 Sample.sample_env) eq_refl)
    as (Hchar & _ & _ & _ & _ & _ & _ & _ & Hscene & _ & _ & _ & _ & _ & _
        & Hcuts & _ & _ & Hsyn).
  split; [reflexivity|].
  split; [apply Hchar|]. split; [apply Hchar|].
  split; [apply Hscene|]. split; [apply Hscene|].
  split; [apply Hcuts|]. split; [apply Hcuts|].
  split; apply Hsyn.
Defined.
